(** * mlx_lm/utils.py: the token-generation loop

    A shallow embedding of [apply_repetition_penalty], [generate_step]
    and [stream_generate] of [llms/mlx_lm/utils.py], and the properties
    of the generation engine checked against it; then [generate], and
    [make_shards], [save_weights] and [save_config], with theirs.

    Conventions of the embedding:
    - a token id is a [nat]; an array of token ids is a [list token];
    - a score vector is the single row of the [(1, vocab)] array the
      source manipulates, a [list F] for an abstract scalar type [F]
      whose arithmetic (the array dtype's) is a parameter;
    - Python floats of the configuration ([temp], [top_p], the penalty,
      the rate, clock readings) are finite and read as rationals;
    - the model, the cache factory, the samplers of [sample_utils] and
      the detokenizer are collaborators and enter as parameters;
    - Python list objects that are shared with the caller live in a
      store of locations, so that aliasing is visible. *)

From Stdlib Require Import ZArith QArith Lia Lqa.
From Stdlib Require Import Ascii.
From Stdlib Require DecimalString DecimalNat.
From stdpp Require Import base option list gmap strings sorting.

Open Scope Z_scope.
Open Scope nat_scope.

Definition token := nat.

(** ** Python slicing *)

(** A slice bound [i] on a sequence of length [len], as Python resolves
    it: a negative bound counts from the end, and the result is clamped
    to [0..len]. *)
Definition py_bound (len i : Z) : Z :=
  if (i <? 0)%Z then Z.max 0 (i + len) else Z.min i len.

(** [l[start:]] *)
Definition py_slice_from {A} (start : Z) (l : list A) : list A :=
  drop (Z.to_nat (py_bound (Z.of_nat (length l)) start)) l.

(** [l[:stop]] *)
Definition py_slice_to {A} (stop : Z) (l : list A) : list A :=
  take (Z.to_nat (py_bound (Z.of_nat (length l)) stop)) l.

(** ** The array backend *)

(** What the engine uses of [mlx.core] on score vectors.  [f_neg x] is
    the comparison [x < 0]; [f_of_py] promotes a Python float to the
    array dtype. *)
Class MxBackend (F : Type) := {
  f_neg : F → bool;
  f_mul : F → F → F;
  f_div : F → F → F;
  f_add : F → F → F;
  f_sub : F → F → F;
  f_of_py : Q → F;
  logsumexp : list F → F;
  argmax : list F → token
}.

Section Arrays.
Context {F : Type} {backend : MxBackend F}.

(** [logits[:, idx]]: the entries at the given ids.  An id beyond the
    vocabulary is outside what mlx defines; the model reads nothing
    there. *)
Definition gather (logits : list F) (idx : list nat) : list (option F) :=
  (λ i, logits !! i) <$> idx.

(** [logits[:, idx] = vals]: entries are written one id at a time;
    an id beyond the vocabulary writes nothing. *)
Fixpoint scatter (logits : list F) (idx : list nat) (vals : list (option F))
  : list F :=
  match idx, vals with
  | i :: idx', Some v :: vals' => scatter (<[i:=v]> logits) idx' vals'
  | _ :: idx', None :: vals' => scatter logits idx' vals'
  | _, _ => logits
  end.

(** [mx.where(x < 0, x * penalty, x / penalty)] at one entry. *)
Definition penalise (penalty : F) (x : F) : F :=
  if f_neg x then f_mul x penalty else f_div x penalty.

Definition apply_repetition_penalty
    (logits : list F) (tokens : list token) (penalty : F) : list F :=
  if (0 <? length tokens)%nat then
    let selected_logits := gather logits tokens in
    let selected_logits :=
      (λ ox : option F, penalise penalty <$> ox) <$> selected_logits in
    scatter logits tokens selected_logits
  else logits.

(** [logits[:, indices] += values] *)
Definition add_at (logits : list F) (indices : list nat) (values : list F)
  : list F :=
  let selected := gather logits indices in
  let summed := zip_with (λ ox v, (λ x, f_add x v) <$> ox) selected values in
  scatter logits indices summed.

(** [logits - mx.logsumexp(logits)] *)
Definition log_normalise (logits : list F) : list F :=
  (λ x, f_sub x (logsumexp logits)) <$> logits.

End Arrays.

(** ** Python values of the configuration *)

(** A number as a caller passes it: Python keeps an [int] and a
    [float] apart ([isinstance(x, float)] tells them).  Floats are
    the finite ones. *)
Inductive pynum := PyInt (z : Z) | PyFloat (q : Q).

Definition pynum_val (x : pynum) : Q :=
  match x with PyInt z => inject_Z z | PyFloat q => q end.

Definition isinstance_float (x : pynum) : bool :=
  match x with PyFloat _ => true | PyInt _ => false end.

(** Truth value of an optional number: [None] and zero are false. *)
Definition truthy (x : option pynum) : bool :=
  match x with
  | None => false
  | Some v => negb (Qeq_bool (pynum_val v) 0)
  end.

Definition Qltb (a b : Q) : bool := negb (Qle_bool b a).

(** The [ValueError]s of [generate_step], one constructor per message:
    "repetition_penalty must be a non-negative float, got ..",
    "max_tokens_per_sec must be a positive number, got .." and
    "Wrong number of layers in the prompt cache."; and the error of
    the index [logits[:, -1, :]] on scores that have no position. *)
Inductive exn :=
| BadRepetitionPenalty (got : option pynum)
| BadMaxTokensPerSec (got : option pynum)
| WrongNumberOfLayers
| NoLastPosition.

(** How a computation ends: with a value, with a raised exception, or
    not at all (the loop bound of the embedding ran out). *)
Inductive outcome (A : Type) :=
| Ok (a : A)
| Raise (e : exn)
| Diverge.
Arguments Ok {A} a.
Arguments Raise {A} e.
Arguments Diverge {A}.

(** The four branches of [sample]. *)
Inductive strategy := Greedy | TopP | MinP | Categorical.

(** What a run does that an observer outside can see. *)
Inductive event :=
| EvForward (y : list token)     (* model(y[None], cache=prompt_cache) *)
| EvEvalCache                    (* mx.eval([c.state for c in prompt_cache]) *)
| EvClearCache                   (* mx.metal.clear_cache() *)
| EvCacheCheck                   (* len(prompt_cache) != len(model.layers) *)
| EvSampler (s : strategy)       (* the sampler that sample() calls *)
| EvAsyncEval                    (* mx.async_eval(..) *)
| EvSleep (d : Q).               (* time.sleep(d) *)

(** ** The tokenizer *)

(** The tokenizer wrapper and its streaming detokenizer, whose state
    is a [D]; reading [last_segment] moves the detokenizer's offset. *)
Record Tokenizer (D : Type) := {
  encode : string → list token;
  eos_token_id : token;
  reset : D → D;
  add_token : token → D → D;
  finalize : D → D;
  last_segment : D → string * D
}.
Arguments encode {D} _ _.
Arguments eos_token_id {D} _.
Arguments reset {D} _ _.
Arguments add_token {D} _ _ _.
Arguments finalize {D} _ _.
Arguments last_segment {D} _ _.

(** What [stream_generate] does to its detokenizer and its consumer. *)
Inductive stream_event :=
| SeReset
| SeAddToken (t : token)
| SeFinalize
| SeYield (segment : string).

#[export] Instance stream_event_eq_dec : EqDecision stream_event.
Proof. solve_decision. Defined.

Section Engine.
Context {F : Type} {backend : MxBackend F}.
(** State of the global random generator of [mx.random]. *)
Context {Rng : Type}.
(** One per-layer cache object. *)
Context {KV : Type}.

(** *** Collaborators *)

(** [sample_utils]: each sampler draws from the random state. *)
Variable top_p_sampling : list F → Q → Q → Rng → token * Rng.
Variable min_p_sampling : list F → Q → Z → Q → Rng → token * Rng.
Variable categorical_sampling : list F → Q → Rng → token * Rng.

(** [models.cache.make_prompt_cache(model, max_kv_size)]. *)
Variable make_prompt_cache : option Z → list KV.

(** The model: [layers] is [len(model.layers)]; [forward y cache] is
    [model(y[None], cache=cache)], giving one score vector per
    position of [y] and the cache as the call leaves it. *)
Record Model := {
  layers : nat;
  forward : list token → list KV → list (list F) * list KV
}.
Variable model : Model.

(** [logits[:, -1, :]] on scores that have a position: the last of
    the score vectors.  The scores of an empty [y] have none, and
    [_step] raises there instead of taking it. *)
Definition last_position (out : list (list F)) : list F :=
  default [] (last out).

(** *** Logits processors *)

(** The callables that can sit in the [logits_processor] list: the two
    closures [generate_step] defines, with the variables they capture,
    and whatever the caller supplied. *)
Inductive processor :=
| repetition_penalty_processor
    (repetition_context_size : Z) (repetition_penalty : Q)
| logit_bias_processor (indices : list nat) (values : list Q)
| user_processor (f : list token → list F → list F).

Definition call_processor
    (p : processor) (tokens : list token) (logits : list F) : list F :=
  match p with
  | repetition_penalty_processor repetition_context_size repetition_penalty =>
      apply_repetition_penalty logits
        (py_slice_from (- repetition_context_size) tokens)
        (f_of_py repetition_penalty)
  | logit_bias_processor indices values =>
      add_at logits indices (f_of_py <$> values)
  | user_processor f => f tokens logits
  end.

(** [for processor in logits_processor: logits = processor(tokens, logits)] *)
Definition run_processors
    (ps : list processor) (tokens : list token) (logits : list F) : list F :=
  foldl (λ logits processor, call_processor processor tokens logits) logits ps.

(** *** The world a call runs in *)

(** [heap] holds the Python lists of processors, by location; [clock]
    is what the successive calls of [time.perf_counter()] return. *)
Record world := {
  heap : gmap positive (list processor);
  rng : Rng;
  clock : nat → Q;
  clock_reads : nat;
  trace : list event
}.

Definition M (A : Type) : Type := world → outcome A * world.

Definition ret {A} (a : A) : M A := λ w, (Ok a, w).
Definition bind {A B} (c : M A) (k : A → M B) : M B :=
  λ w, match c w with
       | (Ok a, w') => k a w'
       | (Raise e, w') => (Raise e, w')
       | (Diverge, w') => (Diverge, w')
       end.
Definition raise {A} (e : exn) : M A := λ w, (Raise e, w).
Definition diverge {A} : M A := λ w, (Diverge, w).

Definition emit (e : event) : M unit :=
  λ w, (Ok tt, {| heap := heap w; rng := rng w; clock := clock w;
                  clock_reads := clock_reads w; trace := trace w ++ [e] |}).

Definition perf_counter : M Q :=
  λ w, (Ok (clock w (clock_reads w)),
        {| heap := heap w; rng := rng w; clock := clock w;
           clock_reads := S (clock_reads w); trace := trace w |}).

Definition draw {A} (f : Rng → A * Rng) : M A :=
  λ w, let '(a, r) := f (rng w) in
       (Ok a, {| heap := heap w; rng := r; clock := clock w;
                 clock_reads := clock_reads w; trace := trace w |}).

Definition read_list (l : positive) : M (list processor) :=
  λ w, (Ok (default [] (heap w !! l)), w).

Definition new_list : M positive :=
  λ w, let l := fresh (dom (heap w)) in
       (Ok l, {| heap := <[l := []]> (heap w); rng := rng w; clock := clock w;
                 clock_reads := clock_reads w; trace := trace w |}).

(** [lst.append(p)] on the list object at [l]. *)
Definition list_append (l : positive) (p : processor) : M unit :=
  λ w, (Ok tt, {| heap := <[l := default [] (heap w !! l) ++ [p]]> (heap w);
                  rng := rng w; clock := clock w;
                  clock_reads := clock_reads w; trace := trace w |}).

Notation "'let*' x ':=' c1 'in' c2" := (bind c1 (λ x, c2))
  (at level 10, x name, c1 at level 100, c2 at level 200).
Notation "'let*' ' pat ':=' c1 'in' c2" :=
  (bind c1 (λ x, match x with pat => c2 end))
  (at level 10, pat pattern, c1 at level 100, c2 at level 200).
Notation "'do' c1 'then' c2" := (bind c1 (λ _, c2))
  (at level 10, c1 at level 100, c2 at level 200).

(** *** generate_step *)

(** The arguments of [generate_step] other than the model.
    [logits_processor] is a reference to the caller's list object;
    [logit_bias] is the dictionary's items in insertion order, its keys
    token ids; [repetition_context_size] is an [int] (with [None] the
    slice of the history would raise a [TypeError]). *)
Record gen_args := {
  prompt : list token;
  temp : Q;
  max_tokens_per_sec : option pynum;
  repetition_penalty : option pynum;
  repetition_context_size : Z;
  top_p : Q;
  min_p : Q;
  min_tokens_to_keep : Z;
  prefill_step_size : Z;
  max_kv_size : option Z;
  prompt_cache : option (list KV);
  logit_bias : option (list (nat * Q));
  logits_processor : option positive
}.

(** The local variables of a running [generate_step]: the list the
    name [logits_processor] is bound to after the first statements,
    the cache and the token history [_step] updates, and the loop's
    [y], [logprobs] and [last_target_time]. *)
Record frame := {
  fr_args : gen_args;
  fr_processors : positive;
  fr_cache : list KV;
  fr_tokens : option (list token);
  fr_y : token;
  fr_logprobs : list F;
  fr_last_target_time : Q
}.

Section Closures.
Variable args : gen_args.

Definition sample (logits : list F) : M (token * list F) :=
  let logprobs := log_normalise logits in
  let* token :=
    (if Qeq_bool (temp args) 0 then
       do emit (EvSampler Greedy) then
       ret (argmax logits)
     else if Qltb 0 (top_p args) && Qltb (top_p args) 1 then
       do emit (EvSampler TopP) then
       draw (top_p_sampling logits (top_p args) (temp args))
     else if negb (Qeq_bool (min_p args) 0) then
       do emit (EvSampler MinP) then
       draw (min_p_sampling logits (min_p args) (min_tokens_to_keep args)
               (temp args))
     else
       do emit (EvSampler Categorical) then
       draw (categorical_sampling logits (temp args))) in
  ret (token, logprobs).

(** [_step(y)], on the list [lp] and the current cache and history;
    it gives back the sampled token, its log-probabilities, and the
    cache and history as it leaves them.  The model gives one score
    vector per position of [y]: after the model has run on an empty
    [y] there is no last position, and [logits[:, -1, :]] raises. *)
Definition _step (lp : positive) (cache : list KV)
    (tokens : option (list token)) (y : list token)
  : M (token * list F * list KV * option (list token)) :=
  do emit (EvForward y) then
  let '(out, cache) := forward model y cache in
  let* logits :=
    (match y with
     | [] => raise NoLastPosition
     | _ :: _ => ret (last_position out)
     end) in
  let* processors := read_list lp in
  let* '(logits, tokens) :=
    (match processors with
     | [] => ret (logits, tokens)
     | _ :: _ =>
         let tokens :=
           match tokens with Some ts => ts ++ y | None => y end in
         ret (run_processors processors tokens logits, Some tokens)
     end) in
  let* '(y, logprobs) := sample logits in
  ret (y, logprobs, cache, tokens).

(** [while y.size > prefill_step_size: ..] *)
Fixpoint prefill (fuel : nat) (y : list token) (cache : list KV)
  : M (list token * list KV) :=
  if (prefill_step_size args <? Z.of_nat (length y))%Z then
    match fuel with
    | O => diverge
    | S fuel =>
        let chunk := py_slice_to (prefill_step_size args) y in
        do emit (EvForward chunk) then
        let cache := snd (forward model chunk cache) in
        do emit EvEvalCache then
        let y := py_slice_from (prefill_step_size args) y in
        do emit EvClearCache then
        prefill fuel y cache
    end
  else ret (y, cache).

(** The two argument checks at the top:
    [repetition_penalty and (repetition_penalty < 0 or not
    isinstance(repetition_penalty, float))], and for a rate that is
    not [None], [max_tokens_per_sec <= 0] (a [pynum] is always an
    instance of [(int, float)]). *)
Definition penalty_rejected : bool :=
  match repetition_penalty args with
  | Some p =>
      truthy (Some p) &&
      (Qltb (pynum_val p) 0 || negb (isinstance_float p))
  | None => false
  end.

Definition rate_rejected : bool :=
  match max_tokens_per_sec args with
  | Some r => Qle_bool (pynum_val r) 0
  | None => false
  end.

Definition check_args : M unit :=
  do (if penalty_rejected
      then raise (BadRepetitionPenalty (repetition_penalty args))
      else ret tt) then
  if rate_rejected
  then raise (BadMaxTokensPerSec (max_tokens_per_sec args))
  else ret tt.

(** [logits_processor = logits_processor or []]: the caller's own
    list when it has one that is not empty, a new list otherwise. *)
Definition processors_or_new : M positive :=
  match logits_processor args with
  | Some l =>
      let* ps := read_list l in
      match ps with
      | _ :: _ => ret l
      | [] => new_list
      end
  | None => new_list
  end.

(** The two conditional appends, under [if repetition_penalty:]
    and [if logit_bias:]. *)
Definition install_processors (lp : positive) : M unit :=
  do (match repetition_penalty args with
      | Some p =>
          if truthy (Some p) then
            list_append lp
              (repetition_penalty_processor
                 (repetition_context_size args) (pynum_val p))
          else ret tt
      | None => ret tt
      end) then
  match logit_bias args with
  | Some ((_ :: _) as bias) =>
      list_append lp (logit_bias_processor (fst <$> bias) (snd <$> bias))
  | _ => ret tt
  end.

(** "Create the KV cache for generation". *)
Definition resolve_cache : M (list KV) :=
  match prompt_cache args with
  | None => ret (make_prompt_cache (max_kv_size args))
  | Some c =>
      do emit EvCacheCheck then
      if negb (length c =? layers model)%nat then raise WrongNumberOfLayers
      else ret c
  end.

(** From the cache to the first token: the cache, the prefill
    loop, the first [_step] and the start of the pacing clock. *)
Definition first_token (lp : positive) (fuel : nat) : M frame :=
  let* cache := resolve_cache in
  let* '(y, cache) := prefill fuel (prompt args) cache in
  let* '(y, logprobs, cache, tokens) := _step lp cache None y in
  do emit EvAsyncEval then
  let* last_target_time := perf_counter in
  ret {| fr_args := args; fr_processors := lp; fr_cache := cache;
         fr_tokens := tokens; fr_y := y; fr_logprobs := logprobs;
         fr_last_target_time := last_target_time |}.

(** Everything [generate_step] does before its [while True]. *)
Definition generate_step_start (fuel : nat) : M frame :=
  do check_args then
  let* lp := processors_or_new in
  let* last_token_time := perf_counter in
  do install_processors lp then
  first_token lp fuel.

End Closures.

(** One turn of the [while True] loop, up to and including its
    [yield]: the pair yielded and the frame the next turn starts
    from. *)
Definition generate_step_next (fr : frame) : M (token * list F * frame) :=
  let args := fr_args fr in
  let* '(next_y, next_logprobs, cache, tokens) :=
    _step args (fr_processors fr) (fr_cache fr) (fr_tokens fr) [fr_y fr] in
  do emit EvAsyncEval then
  let* last_target_time :=
    (match max_tokens_per_sec args with
     | Some r =>
         let target_time := (1 / pynum_val r)%Q in
         let last_target_time := (fr_last_target_time fr + target_time)%Q in
         let* now := perf_counter in
         let sleep_time := (last_target_time - now)%Q in
         do (if Qltb 0 sleep_time then emit (EvSleep sleep_time) else ret tt)
         then ret last_target_time
     | None => ret (fr_last_target_time fr)
     end) in
  ret (fr_y fr, fr_logprobs fr,
       {| fr_args := args; fr_processors := fr_processors fr;
          fr_cache := cache; fr_tokens := tokens; fr_y := next_y;
          fr_logprobs := next_logprobs;
          fr_last_target_time := last_target_time |}).

(** The generator object [generate_step(..)] returns: nothing of the
    body has run before the first [next]. *)
Inductive generator :=
| GenFresh (args : gen_args)
| GenRunning (fr : frame).

(** [next(g)] *)
Definition gen_next (fuel : nat) (g : generator)
  : M (token * list F * generator) :=
  let* fr :=
    (match g with
     | GenFresh args => generate_step_start args fuel
     | GenRunning fr => ret fr
     end) in
  let* '(token, logprobs, fr) := generate_step_next fr in
  ret (token, logprobs, GenRunning fr).

(** The first [n] items of the generator. *)
Fixpoint gen_take (fuel n : nat) (g : generator)
  : M (list (token * list F) * generator) :=
  match n with
  | O => ret ([], g)
  | S n =>
      let* '(token, logprobs, g) := gen_next fuel g in
      let* '(items, g) := gen_take fuel n g in
      ret ((token, logprobs) :: items, g)
  end.

(** *** stream_generate *)

Definition call_generate_step
    (kwargs : gen_args) (prompt_tokens : list token)
    (rate : option pynum) : generator :=
  GenFresh
    {| prompt := prompt_tokens; temp := temp kwargs;
       max_tokens_per_sec := rate;
       repetition_penalty := repetition_penalty kwargs;
       repetition_context_size := repetition_context_size kwargs;
       top_p := top_p kwargs; min_p := min_p kwargs;
       min_tokens_to_keep := min_tokens_to_keep kwargs;
       prefill_step_size := prefill_step_size kwargs;
       max_kv_size := max_kv_size kwargs;
       prompt_cache := prompt_cache kwargs;
       logit_bias := logit_bias kwargs;
       logits_processor := logits_processor kwargs |}.

Section Stream.
Context {D : Type} (tokenizer : Tokenizer D).
Variable fuel : nat.

(** [for n, (token, _) in zip(range(max_tokens), generate_step(..))]:
    [n] counts what is left of the range, and the generator is not
    asked once the range is exhausted. *)
Fixpoint stream_loop (n : nat) (g : generator) (d : D)
  : M (list stream_event * D * generator) :=
  match n with
  | O => ret ([], d, g)
  | S n =>
      let* '(token, _, g) := gen_next fuel g in
      if (token =? eos_token_id tokenizer)%nat then ret ([], d, g)
      else
        let d := add_token tokenizer token d in
        let '(segment, d) := last_segment tokenizer d in
        let* '(evs, d, g) := stream_loop n g d in
        ret (SeAddToken token :: SeYield segment :: evs, d, g)
  end.

(** The whole generator, run until it is exhausted. *)
Definition stream_generate
    (prompt_text : string) (max_tokens : Z) (rate : option pynum)
    (kwargs : gen_args) (d : D)
  : M (list stream_event * D * generator) :=
  let prompt_tokens := encode tokenizer prompt_text in
  let d := reset tokenizer d in
  let* '(evs, d, g) :=
    stream_loop (Z.to_nat max_tokens)
      (call_generate_step kwargs prompt_tokens rate) d in
  let d := finalize tokenizer d in
  let '(segment, d) := last_segment tokenizer d in
  ret (SeReset :: evs ++ [SeFinalize; SeYield segment], d, g).

End Stream.

End Engine.

(** ** Derived notions used to state the properties *)

(** The context window as the specification words it: the trailing
    window of at most [n] tokens of the history. *)
Definition spec_trailing_window (n : Z) (tokens : list token) : list token :=
  drop (length tokens - Z.to_nat n) tokens.

(** The tokens handed to the detokenizer, in order. *)
Definition added_tokens (evs : list stream_event) : list token :=
  omap (λ e, match e with SeAddToken t => Some t | _ => None end) evs.

(** The text segments the consumer receives, in order. *)
Definition yielded_segments (evs : list stream_event) : list string :=
  omap (λ e, match e with SeYield s => Some s | _ => None end) evs.

(** How many times the detokenizer is finalized. *)
Definition finalize_count (evs : list stream_event) : nat :=
  length (filter (λ e, e = SeFinalize) evs).

(** The tokens [ts] given to the detokenizer one after the other from
    the state [d], the segment read after each one being yielded:
    the events, and the state the detokenizer is left in. *)
Fixpoint feed_tokens {D} (tokenizer : Tokenizer D) (ts : list token) (d : D)
  : list stream_event * D :=
  match ts with
  | [] => ([], d)
  | t :: ts =>
      let '(segment, d1) :=
        last_segment tokenizer (add_token tokenizer t d) in
      let '(evs, d2) := feed_tokens tokenizer ts d1 in
      (SeAddToken t :: SeYield segment :: evs, d2)
  end.

(** A whole stream that lets the tokens [ts] through: the detokenizer
    is reset, fed [ts], finalized, and its last segment yielded. *)
Definition stream_run {D} (tokenizer : Tokenizer D) (ts : list token) (d : D)
  : list stream_event * D :=
  let '(evs, d1) := feed_tokens tokenizer ts (reset tokenizer d) in
  let '(segment, d2) := last_segment tokenizer (finalize tokenizer d1) in
  (SeReset :: evs ++ [SeFinalize; SeYield segment], d2).

Section Derived.
Context {F : Type} {backend : MxBackend F} {Rng KV : Type}.

(** The history [_step] hands to the processors: [mx.concat([tokens,
    y])], or [y] when there is no history yet. *)
Definition step_history (tokens : option (list token)) (y : list token)
  : list token :=
  match tokens with Some ts => ts ++ y | None => y end.

(** The scores [_step] samples from, for the processor list [ps] it
    finds: under [if logits_processor:] the processors run on the
    extended history; with an empty list the raw scores go through. *)
Definition step_logits (ps : list (processor (F := F)))
    (tokens : option (list token)) (y : list token) (raw : list F)
  : list F :=
  match ps with
  | [] => raw
  | _ :: _ => run_processors ps (step_history tokens y) raw
  end.

(** The history [_step] leaves behind. *)
Definition step_tokens (ps : list (processor (F := F)))
    (tokens : option (list token)) (y : list token)
  : option (list token) :=
  match ps with
  | [] => tokens
  | _ :: _ => Some (step_history tokens y)
  end.

Implicit Types (args : gen_args (KV := KV)) (w : world (F := F) (Rng := Rng)).

(** The processors in the list the caller passed, if any. *)
Definition caller_processors args w : list (processor (F := F)) :=
  match logits_processor args with
  | Some l => default [] (heap w !! l)
  | None => []
  end.

(** [if logit_bias:] *)
Definition logit_bias_configured args : bool :=
  match logit_bias args with
  | Some (_ :: _) => true
  | _ => false
  end.

(** The processors [generate_step] appends, in the order of its two
    [append] calls. *)
Definition internal_processors args : list (processor (F := F)) :=
  match repetition_penalty args with
  | Some p =>
      if truthy (Some p) then
        [repetition_penalty_processor (repetition_context_size args)
           (pynum_val p)]
      else []
  | None => []
  end ++
  match logit_bias args with
  | Some ((_ :: _) as bias) =>
      [logit_bias_processor (fst <$> bias) (snd <$> bias)]
  | _ => []
  end.

(** The list object the session works on: the caller's, unless it is
    missing or empty. *)
Definition session_list args w : positive :=
  match caller_processors args w, logits_processor args with
  | _ :: _, Some l => l
  | _, _ => fresh (dom (heap w))
  end.

(** The world once the arguments are checked and the processors
    installed: one clock reading taken, one list extended. *)
Definition world_after_setup args w : world (F := F) (Rng := Rng) :=
  {| heap := <[session_list args w :=
                 caller_processors args w ++ internal_processors args]>
               (heap w);
     rng := rng w; clock := clock w;
     clock_reads := S (clock_reads w); trace := trace w |}.

(** The pacing target after one more turn of the loop. *)
Definition next_target args (t : Q) : Q :=
  match max_tokens_per_sec args with
  | Some r => (t + 1 / pynum_val r)%Q
  | None => t
  end.

(** The stage order as the specification words it: repetition
    penalty, then fixed bias, then the caller's stages. *)
Definition spec_stage_order
    (penalty bias : processor (F := F)) (user : list (processor (F := F)))
  : list (processor (F := F)) :=
  penalty :: bias :: user.

(** [keeps_heap c]: however [c] ends, the store of lists is as it
    was. *)
Definition keeps_heap {A} (c : M (F := F) (Rng := Rng) A) : Prop :=
  ∀ w, heap (c w).2 = heap w.

(** [raises_only P c]: an exception [c] raises satisfies [P]. *)
Definition raises_only {A} (P : exn → Prop)
    (c : M (F := F) (Rng := Rng) A) : Prop :=
  ∀ w e, (c w).1 = Raise e → P e.

(** The same world with more events on its trace. *)
Definition add_trace w (evs : list event) : world (F := F) (Rng := Rng) :=
  {| heap := heap w; rng := rng w; clock := clock w;
     clock_reads := clock_reads w; trace := trace w ++ evs |}.

(** The contract of a model with a cache: running it on [a] and then
    on [b] leaves the cache, and gives the scores at the last
    position, that running it once on [a ++ b] does. *)
Definition incremental (model : Model (F := F) (KV := KV)) : Prop :=
  ∀ (a b : list token) (c : list KV), b ≠ [] →
    (forward model (a ++ b) c).2 = (forward model b (forward model a c).2).2
    ∧ last_position (forward model (a ++ b) c).1
      = last_position (forward model b (forward model a c).2).1.

(** A processor that does not look at the token history. *)
Definition history_free (p : processor (F := F)) : Prop :=
  ∀ (t1 t2 : list token) (logits : list F),
    call_processor p t1 logits = call_processor p t2 logits.

(** [args] with another [prefill_step_size]. *)
Definition with_prefill_step_size args (s : Z) : gen_args (KV := KV) :=
  {| prompt := prompt args; temp := temp args;
     max_tokens_per_sec := max_tokens_per_sec args;
     repetition_penalty := repetition_penalty args;
     repetition_context_size := repetition_context_size args;
     top_p := top_p args; min_p := min_p args;
     min_tokens_to_keep := min_tokens_to_keep args;
     prefill_step_size := s;
     max_kv_size := max_kv_size args;
     prompt_cache := prompt_cache args;
     logit_bias := logit_bias args;
     logits_processor := logits_processor args |}.

(** The values of [repetition_penalty] that pass the check at the top
    of [generate_step]. *)
Definition penalty_acceptable (x : option pynum) : Prop :=
  match x with
  | None => True
  | Some p =>
      (pynum_val p == 0)%Q ∨
      (isinstance_float p = true ∧ (0 <= pynum_val p)%Q)
  end.

End Derived.

(** ** A small instance to run the engine on

    Scores are rationals.  [logsumexp] has no rational value, so it
    stays a parameter [lse] of the instance; where a run has to print
    numbers it takes the largest score in its place.  The random
    samplers are replaced by draws from a counter.  None of the general
    theorems depends on these choices. *)
Module Demo.

Definition Qmax_list (l : list Q) : Q :=
  match l with
  | [] => 0%Q
  | x :: l => foldl (λ m y, if Qltb m y then y else m) x l
  end.

(** Index of the first largest entry. *)
Fixpoint argmax_from (i best : nat) (m : Q) (l : list Q) : nat :=
  match l with
  | [] => best
  | x :: l => if Qltb m x then argmax_from (S i) i x l
              else argmax_from (S i) best m l
  end.

Definition Qargmax (l : list Q) : nat :=
  match l with
  | [] => 0
  | x :: l => argmax_from 1 0 x l
  end.

(** Rational scores with [lse] for [logsumexp]. *)
Definition Q_backend_with (lse : list Q → Q) : MxBackend Q := {|
  f_neg x := Qltb x 0;
  f_mul := Qmult;
  f_div := Qdiv;
  f_add := Qplus;
  f_sub := Qminus;
  f_of_py q := q;
  logsumexp := lse;
  argmax := Qargmax
|}.

#[export] Instance Q_backend : MxBackend Q := Q_backend_with Qmax_list.

(** Stand-ins for the three random samplers: the draw is the random
    state itself, reduced to the vocabulary. *)
Definition counter_sampler (logits : list Q) (r : nat) : token * nat :=
  (r mod (length logits), S r).
Definition demo_top_p (logits : list Q) (_ _ : Q) := counter_sampler logits.
Definition demo_min_p (logits : list Q) (_ : Q) (_ : Z) (_ : Q) :=
  counter_sampler logits.
Definition demo_categorical (logits : list Q) (_ : Q) :=
  counter_sampler logits.

Definition vocab : nat := 8.

(** Scores that put 1 on the id [top] and -1 on every other id. *)
Definition peak (top : nat) : list Q :=
  (λ j, if (j =? top mod vocab)%nat then 1%Q else (-1)%Q) <$> seq 0 vocab.

(** A causal model with two layers: each layer's cache entry is the
    list of tokens seen so far, and the scores at a position favour
    the id after the token at that position. *)
Definition bigram_forward (y : list token) (cache : list (list token))
  : list (list Q) * list (list token) :=
  ((λ t, peak (S t)) <$> y, (λ kv, kv ++ y) <$> cache).

Definition bigram_model : Model :=
  {| layers := 2; forward := bigram_forward |}.

(** A deterministic model that is not incremental: it counts its calls
    in the cache and scores by that count. *)
Definition counting_forward (y : list token) (cache : list (list token))
  : list (list Q) * list (list token) :=
  let calls := length (default [] (head cache)) in
  ((λ _, peak (S calls)) <$> y, (λ kv, kv ++ [0]) <$> cache).

Definition counting_model : Model :=
  {| layers := 2; forward := counting_forward |}.

Definition fresh_cache (_ : option Z) : list (list token) := [[]; []].

Definition world0 : world (F := Q) (Rng := nat) :=
  {| heap := ∅; rng := 0; clock := λ n, inject_Z (Z.of_nat n);
     clock_reads := 0; trace := [] |}.

(** [generate_step]'s defaults, on a given prompt. *)
Definition default_args (p : list token) : gen_args (KV := list token) :=
  {| prompt := p; temp := 0; max_tokens_per_sec := None;
     repetition_penalty := None; repetition_context_size := 20;
     top_p := 1; min_p := 0; min_tokens_to_keep := 1;
     prefill_step_size := 512; max_kv_size := None;
     prompt_cache := None; logit_bias := None;
     logits_processor := None |}.

Definition start (m : Model (F := Q) (KV := list token)) :=
  generate_step_start demo_top_p demo_min_p demo_categorical fresh_cache m.
Definition step (m : Model (F := Q) (KV := list token)) :=
  _step demo_top_p demo_min_p demo_categorical m.
Definition take_items (m : Model (F := Q) (KV := list token)) :=
  gen_take demo_top_p demo_min_p demo_categorical fresh_cache m.

(** The same start, for any choice of [logsumexp]. *)
Definition start_with (lse : list Q → Q)
    (m : Model (F := Q) (KV := list token)) :=
  generate_step_start (backend := Q_backend_with lse)
    demo_top_p demo_min_p demo_categorical fresh_cache m.

(** A caller's stage: every score raised by 2. *)
Definition raise_by_two : processor (F := Q) :=
  user_processor (λ _ logits, (λ x, x + 2)%Q <$> logits).

(** A world where the caller holds a list with that one stage, at
    location 7. *)
Definition world_with_list : world (F := Q) (Rng := nat) :=
  {| heap := {[ 7%positive := [raise_by_two] ]}; rng := 0;
     clock := λ n, inject_Z (Z.of_nat n); clock_reads := 0; trace := [] |}.

(** A session with the caller's list, a repetition penalty of 2.0 and
    a bias of +1 on id 0. *)
Definition all_stages_args : gen_args (KV := list token) :=
  {| prompt := [0]; temp := 0; max_tokens_per_sec := None;
     repetition_penalty := Some (PyFloat 2);
     repetition_context_size := 20;
     top_p := 1; min_p := 0; min_tokens_to_keep := 1;
     prefill_step_size := 512; max_kv_size := None;
     prompt_cache := None; logit_bias := Some [(0, 1%Q)];
     logits_processor := Some 7%positive |}.

(** The scores the first step of that session would sample from if the
    stages ran in the order of [spec_stage_order], on the same history
    [0] and the same raw scores. *)
Definition all_stages_spec_scores : list Q :=
  run_processors
    (spec_stage_order (repetition_penalty_processor 20 2)
       (logit_bias_processor [0] [1%Q]) [raise_by_two])
    [0] (last_position (bigram_forward [0] (fresh_cache None)).1).

(** A session with a repetition penalty of 2.0 on the prompt
    [3; 5]. *)
Definition penalty_args : gen_args (KV := list token) :=
  {| prompt := [3; 5]; temp := 0; max_tokens_per_sec := None;
     repetition_penalty := Some (PyFloat 2);
     repetition_context_size := 20;
     top_p := 1; min_p := 0; min_tokens_to_keep := 1;
     prefill_step_size := 512; max_kv_size := None;
     prompt_cache := None; logit_bias := None;
     logits_processor := None |}.

(** The same defaults with the integer 2 for the penalty. *)
Definition int_penalty_args : gen_args (KV := list token) :=
  {| prompt := [3; 5]; temp := 0; max_tokens_per_sec := None;
     repetition_penalty := Some (PyInt 2);
     repetition_context_size := 20;
     top_p := 1; min_p := 0; min_tokens_to_keep := 1;
     prefill_step_size := 512; max_kv_size := None;
     prompt_cache := None; logit_bias := None;
     logits_processor := None |}.

(** A cache of two entries for a model of four layers. *)
Definition four_layer_model : Model :=
  {| layers := 4; forward := bigram_forward |}.

Definition short_cache_args : gen_args (KV := list token) :=
  {| prompt := [1; 2]; temp := 0; max_tokens_per_sec := None;
     repetition_penalty := None; repetition_context_size := 20;
     top_p := 1; min_p := 0; min_tokens_to_keep := 1;
     prefill_step_size := 512; max_kv_size := None;
     prompt_cache := Some [[]; []]; logit_bias := None;
     logits_processor := None |}.

(** A session paced at 4 tokens per second. *)
Definition paced_args : gen_args (KV := list token) :=
  {| prompt := [1; 2]; temp := 0; max_tokens_per_sec := Some (PyInt 4);
     repetition_penalty := None; repetition_context_size := 20;
     top_p := 1; min_p := 0; min_tokens_to_keep := 1;
     prefill_step_size := 512; max_kv_size := None;
     prompt_cache := None; logit_bias := None;
     logits_processor := None |}.

Definition paced_frame : frame (F := Q) (KV := list token) :=
  {| fr_args := paced_args; fr_processors := 1%positive;
     fr_cache := [[1; 2]; [1; 2]]; fr_tokens := None; fr_y := 3;
     fr_logprobs := peak 3; fr_last_target_time := 10 |}.

(** A detokenizer that keeps the tokens it was given and shows the
    last one as its segment; the end-of-sequence id is 5. *)
Definition digits_tokenizer : Tokenizer (list token) :=
  {| encode := λ _, [1; 2];
     eos_token_id := 5;
     reset := λ _, [];
     add_token := λ t d, d ++ [t];
     finalize := λ d, d;
     last_segment := λ d, (if d is [] then "" else "+", d)%string |}.

End Demo.

(** ** More derived notions *)

(** The token arrays the model was run on, in order. *)
Definition forward_inputs (evs : list event) : list (list token) :=
  omap (λ e, match e with EvForward y => Some y | _ => None end) evs.

(** The durations slept, in order. *)
Definition sleeps (evs : list event) : list Q :=
  omap (λ e, match e with EvSleep d => Some d | _ => None end) evs.

(** The values of [max_tokens_per_sec] that pass the check at the top
    of [generate_step]. *)
Definition rate_acceptable (x : option pynum) : Prop :=
  match x with
  | None => True
  | Some r => (0 < pynum_val r)%Q
  end.

(** What the prefill loop records for the chunks it runs. *)
Definition prefill_events (chunks : list (list token)) : list event :=
  chunks ≫= λ chunk, [EvForward chunk; EvEvalCache; EvClearCache].

Section MoreDerived.
Context {F : Type} {Rng KV : Type}.

(** What one turn of the loop records: the forward pass on the pending
    token, the sampler, the asynchronous evaluation and, with a rate
    limit, the sleep when the clock reading [now] is before the
    [target]. *)
Definition turn_events (args : gen_args (KV := KV)) (y : token)
    (s : strategy) (now target : Q) : list event :=
  [EvForward [y]; EvSampler s; EvAsyncEval] ++
  match max_tokens_per_sec args with
  | Some _ => if Qltb now target then [EvSleep (target - now)%Q] else []
  | None => []
  end.

(** The clock readings one turn of the loop takes. *)
Definition turn_clock_reads (args : gen_args (KV := KV)) : nat :=
  match max_tokens_per_sec args with Some _ => 1 | None => 0 end.

(** The arguments [stream_generate] and [generate] call
    [generate_step] with: the keyword arguments, the encoded prompt and
    the rate. *)
Definition stream_args (kwargs : gen_args (KV := KV))
    (prompt_tokens : list token) (rate : option pynum) : gen_args (KV := KV) :=
  {| prompt := prompt_tokens; temp := temp kwargs;
     max_tokens_per_sec := rate;
     repetition_penalty := repetition_penalty kwargs;
     repetition_context_size := repetition_context_size kwargs;
     top_p := top_p kwargs; min_p := min_p kwargs;
     min_tokens_to_keep := min_tokens_to_keep kwargs;
     prefill_step_size := prefill_step_size kwargs;
     max_kv_size := max_kv_size kwargs;
     prompt_cache := prompt_cache kwargs;
     logit_bias := logit_bias kwargs;
     logits_processor := logits_processor kwargs |}.

(** The history after the tokens [ys] went through [_step] one at a
    time, with a processor configured. *)
Definition extend_history (tokens : option (list token)) (ys : list token)
  : option (list token) :=
  foldl (λ h t, Some (step_history h [t])) tokens ys.

End MoreDerived.

Section Simulation.
Context {F : Type} {backend : MxBackend F} {Rng KV : Type}.
Implicit Types (w : world (F := F) (Rng := Rng)).

(** Two worlds that agree on the store of lists and on the random
    state; the clock, the count of its readings and the trace are
    free. *)
Definition wsim w1 w2 : Prop := heap w1 = heap w2 ∧ rng w1 = rng w2.

(** Two outcomes of the same kind: two values related by [R], the same
    exception, or no end on either side. *)
Definition same_outcome {A B} (R : A → B → Prop)
    (o1 : outcome A) (o2 : outcome B) : Prop :=
  match o1, o2 with
  | Ok a, Ok b => R a b
  | Raise e1, Raise e2 => e1 = e2
  | Diverge, Diverge => True
  | _, _ => False
  end.

(** [sim R c1 c2]: from worlds that agree, [c1] and [c2] end the same
    way, in worlds that agree. *)
Definition sim {A B} (R : A → B → Prop)
    (c1 : M (F := F) (Rng := Rng) A) (c2 : M (F := F) (Rng := Rng) B)
  : Prop :=
  ∀ w1 w2, wsim w1 w2 →
    same_outcome R (c1 w1).1 (c2 w2).1 ∧ wsim (c1 w1).2 (c2 w2).2.

(** Two argument records that differ at most in [max_tokens_per_sec]. *)
Definition args_sim (a1 a2 : gen_args (KV := KV)) : Prop :=
  stream_args a1 (prompt a1) None = stream_args a2 (prompt a2) None.

(** Two frames that differ at most in the rate and the pacing target. *)
Definition frame_sim (f1 f2 : frame (F := F) (KV := KV)) : Prop :=
  args_sim (fr_args f1) (fr_args f2)
  ∧ fr_processors f1 = fr_processors f2 ∧ fr_cache f1 = fr_cache f2
  ∧ fr_tokens f1 = fr_tokens f2 ∧ fr_y f1 = fr_y f2
  ∧ fr_logprobs f1 = fr_logprobs f2.

(** Two rates the argument check treats alike: the same rate, or two
    rates that both pass. *)
Definition rate_sim (a1 a2 : gen_args (KV := KV)) : Prop :=
  max_tokens_per_sec a1 = max_tokens_per_sec a2
  ∨ (rate_rejected a1 = false ∧ rate_rejected a2 = false).

(** Two generators at the same point of the same session, up to the
    rate. *)
Definition gen_sim (g1 g2 : generator (F := F) (KV := KV)) : Prop :=
  match g1, g2 with
  | GenFresh a1, GenFresh a2 => args_sim a1 a2 ∧ rate_sim a1 a2
  | GenRunning f1, GenRunning f2 => frame_sim f1 f2
  | _, _ => False
  end.

End Simulation.

(** * Saving weights and configurations

    [make_shards], [save_weights] and [save_config].  A Python [dict]
    with string keys is the list of its items in insertion order; its
    keys are distinct.  An array enters through its [nbytes] only. *)

Definition dict (V : Type) := list (string * V).

Section Dict.
Context {V : Type}.

(** [d[k] = v] *)
Fixpoint dict_set (k : string) (v : V) (d : dict V) : dict V :=
  match d with
  | [] => [(k, v)]
  | (k', v') :: d =>
      if decide (k = k') then (k', v) :: d else (k', v') :: dict_set k v d
  end.

(** [d.get(k)] *)
Fixpoint dict_get (k : string) (d : dict V) : option V :=
  match d with
  | [] => None
  | (k', v') :: d => if decide (k = k') then Some v' else dict_get k d
  end.

(** [d.pop(k, None)], for the dict it leaves *)
Fixpoint dict_pop (k : string) (d : dict V) : dict V :=
  match d with
  | [] => []
  | (k', v') :: d => if decide (k = k') then d else (k', v') :: dict_pop k d
  end.

(** The order [sorted(d.items())] sorts by: the keys are distinct, so
    the comparison of two items is settled by their keys, which Python
    compares code point by code point. *)
Definition item_le (a b : string * V) : Prop := String.le a.1 b.1.

#[export] Instance item_le_dec : RelDecision item_le.
Proof. intros a b. unfold item_le. apply _. Defined.

#[export] Instance item_le_total : Total item_le.
Proof. intros a b. unfold item_le. apply (total String.le). Qed.

(** [save_config(config, config_path)]: the caller's dict as the call
    leaves it, and the dict written to [config_path]. *)
Definition save_config (config : dict V) : dict V * dict V :=
  let config_popped := dict_pop "_name_or_path" config in
  let config_sorted := merge_sort item_le config_popped in
  (config_popped, config_sorted).

End Dict.

(** ** File names *)

(** [str(n)] for a natural number *)
Definition decimal (n : nat) : string :=
  DecimalString.NilEmpty.string_of_uint (Nat.to_uint n).

Fixpoint zeros (n : nat) : string :=
  match n with
  | O => ""
  | S n => String "0"%char (zeros n)
  end.

(** ["{:05d}".format(n)] *)
Definition format_05d (n : nat) : string :=
  zeros (5 - String.length (decimal n)) +:+ decimal n.

(** [shard_file_format.format(a, b)], for the format [save_weights]
    picks when it has [shards_count] shards. *)
Definition shard_file_format (shards_count a b : nat) : string :=
  if (1 <? shards_count)%nat
  then "model-" +:+ format_05d a +:+ "-of-" +:+ format_05d b
       +:+ ".safetensors"
  else "model.safetensors".

Definition index_file_name : string := "model.safetensors.index.json".

(** The number a string starts with: its leading decimal digits, read
    on top of [acc]. *)
Definition digit_val (c : ascii) : option nat :=
  let n := nat_of_ascii c in
  if (48 <=? n)%nat && (n <=? 57)%nat then Some (n - 48) else None.

Fixpoint leading_number (s : string) (acc : nat) : nat :=
  match s with
  | String c s' =>
      match digit_val c with
      | Some d => leading_number s' (10 * acc + d)
      | None => acc
      end
  | EmptyString => acc
  end.

(** ** Shards *)

Definition MAX_FILE_SIZE_GB : Z := 5.

Record index_data := {
  total_size : Z;
  weight_map : dict string
}.

Section Shards.
Context {W : Type} (nbytes : W → N).

(** [sum(v.nbytes for v in weights.values())] *)
Definition total_nbytes (weights : dict W) : Z :=
  foldr (λ kv acc, (Z.of_N (nbytes kv.2) + acc)%Z) 0%Z weights.

(** The [for k, v in weights.items()] loop of [make_shards] and the
    [shards.append(shard)] after it. *)
Fixpoint shard_loop (max_file_size_bytes : Z) (items : list (string * W))
    (shards : list (dict W)) (shard : dict W) (shard_size : Z)
  : list (dict W) :=
  match items with
  | [] => shards ++ [shard]
  | (k, v) :: items =>
      let '(shards, shard, shard_size) :=
        if (max_file_size_bytes <? shard_size + Z.of_N (nbytes v))%Z
        then (shards ++ [shard], [], 0%Z)
        else (shards, shard, shard_size) in
      shard_loop max_file_size_bytes items shards (dict_set k v shard)
        (shard_size + Z.of_N (nbytes v))%Z
  end.

Definition make_shards (weights : dict W) (max_file_size_gb : Z)
  : list (dict W) :=
  let max_file_size_bytes := Z.shiftl max_file_size_gb 30 in
  shard_loop max_file_size_bytes weights [] [] 0%Z.

(** What [save_weights] leaves: the files [mx.save_safetensors] wrote,
    in order, each with its name in [save_path] and its content; the
    index written to [model.safetensors.index.json] ([None]: a
    [KeyError] in the look-ups that rebuild the map, which leaves no
    index); and the caller's dict of weights. *)
Record saved := {
  files : list (string * dict W);
  index : option index_data;
  weights_after : dict W
}.

(** The [for i in range(len(shards))] loop, from [i] on. *)
Fixpoint save_shards (shards_count i : nat) (shards : list (dict W))
    (files : list (string * dict W)) (wm : dict string)
  : list (string * dict W) * dict string :=
  match shards with
  | [] => (files, wm)
  | shard :: shards =>
      let shard_name := shard_file_format shards_count (i + 1) shards_count in
      save_shards shards_count (S i) shards (files ++ [(shard_name, shard)])
        (foldl (λ wm weight_name, dict_set weight_name shard_name wm)
               wm shard.*1)
  end.

Definition save_weights (weights : dict W) (donate_weights : bool) : saved :=
  let shards := make_shards weights MAX_FILE_SIZE_GB in
  let shards_count := length shards in
  let total := total_nbytes weights in
  let weights_left := if donate_weights then [] else weights in
  let '(files, wm) := save_shards shards_count 0 shards [] [] in
  let wm_sorted :=
    mapM (λ k, (λ name, (k, name)) <$> dict_get k wm)
         (merge_sort String.le wm.*1) in
  {| files := files;
     index := (λ wm, {| total_size := total; weight_map := wm |})
              <$> wm_sorted;
     weights_after := weights_left |}.

End Shards.

(** * generate *)

(** What [generate] does to its detokenizer and what it shows: the
    calls of [print], of the [formatter] and of the detokenizer, and
    the statistics it prints, with the numbers they are computed
    from. *)
Inductive generate_event {F : Type} :=
| GePrint (s : string)              (* print(s) *)
| GePrintPrompt (prompt : string)   (* print("Prompt:", prompt) *)
| GeReset                           (* detokenizer.reset() *)
| GeAddToken (t : token)            (* detokenizer.add_token(token) *)
| GeFinalize                        (* detokenizer.finalize() *)
| GeFormatter (segment : string) (prob : option F)
                                    (* formatter(last_segment, prob) *)
| GeNoTokens         (* print("No tokens generated for this prompt") *)
| GePromptStats (size : nat) (prompt_tps : Q)
| GeGenerationStats (token_count : nat) (gen_tps : Q)
| GePeakMemory.
Arguments generate_event : clear implicits.

(** How a call of [generate] ends when [generate_step] raises
    nothing: with the text, with [None], or with one of the two
    exceptions of its own statements, an unbound local variable in
    [token_count = n + 1] or a division by a zero time. *)
Inductive generate_outcome :=
| Returned (text : string)
| ReturnedNone
| UnboundLocalError
| ZeroDivisionError.

(** The tokens handed to the detokenizer, in order. *)
Definition ge_added {F} (evs : list (generate_event F)) : list token :=
  omap (λ e, match e with GeAddToken t => Some t | _ => None end) evs.

(** How many times the detokenizer is finalized. *)
Definition ge_finalize_count {F} (evs : list (generate_event F)) : nat :=
  length (omap (λ e, match e with GeFinalize => Some e | _ => None end) evs).

Section Generate.
Context {F : Type} {backend : MxBackend F} {Rng KV : Type}.
Variable top_p_sampling : list F → Q → Q → Rng → token * Rng.
Variable min_p_sampling : list F → Q → Z → Q → Rng → token * Rng.
Variable categorical_sampling : list F → Q → Rng → token * Rng.
Variable make_prompt_cache : option Z → list KV.
Variable model : Model (F := F) (KV := KV).
Context {D : Type} (tokenizer : Tokenizer D).
(** [detokenizer.text] and [mx.exp] *)
Variable detok_text : D → string.
Variable mx_exp : F → F.
Variable fuel : nat.

Local Notation "'let*' x ':=' c1 'in' c2" := (bind c1 (λ x, c2))
  (at level 10, x name, c1 at level 100, c2 at level 200).
Local Notation "'let*' ' pat ':=' c1 'in' c2" :=
  (bind c1 (λ x, match x with pat => c2 end))
  (at level 10, pat pattern, c1 at level 100, c2 at level 200).

Section GenerateLoop.
Variables verbose formatter : bool.

(** What the body shows for a token, under [if verbose:]. *)
Definition show_token (token : token) (logprobs : list F) (d : D)
  : list (generate_event F) * D :=
  if verbose then
    if formatter then
      let d := finalize tokenizer d in
      let prob := mx_exp <$> (logprobs !! token) in
      let '(segment, d) := last_segment tokenizer d in
      ([GeFinalize; GeFormatter segment prob], d)
    else
      let '(segment, d) := last_segment tokenizer d in
      ([GePrint segment], d)
  else ([], d).

(** [for n, (token, logprobs) in zip(range(max_tokens),
    generate_step(..))], from [n] on with [remaining] numbers left in the
    range; [last_n] is what the name [n] is bound to on entry, if it
    is.  The loop gives back the detokenizer, [tic], [prompt_time]
    when it is bound, and [n] when it is bound. *)
Fixpoint generate_loop (remaining n : nat) (last_n : option nat)
    (g : generator (F := F) (KV := KV)) (d : D)
    (tic : Q) (prompt_time : option Q)
  : M (F := F) (Rng := Rng)
      (list (generate_event F) * D * Q * option Q * option nat) :=
  match remaining with
  | O => ret ([], d, tic, prompt_time, last_n)
  | S remaining =>
      let* '(token, logprobs, g) :=
        gen_next top_p_sampling min_p_sampling categorical_sampling
          make_prompt_cache model fuel g in
      let* '(tic, prompt_time) :=
        (if (n =? 0)%nat then
           let* now := perf_counter in
           let* tic' := perf_counter in
           ret (tic', Some (now - tic)%Q)
         else ret (tic, prompt_time)) in
      if (token =? eos_token_id tokenizer)%nat
      then ret ([], d, tic, prompt_time, Some n)
      else
        let d := add_token tokenizer token d in
        let '(shown, d) := show_token token logprobs d in
        let* '(evs, d, tic, prompt_time, last) :=
          generate_loop remaining (S n) (Some n) g d tic prompt_time in
        ret (GeAddToken token :: shown ++ evs, d, tic, prompt_time, last)
  end.

(** The statements after the loop, under [if verbose:], from the
    reading of the clock on. *)
Definition generate_report (prompt_size token_count : nat)
    (tic : Q) (prompt_time : option Q) (d : D)
  : M (F := F) (Rng := Rng)
      (list (generate_event F) * D * generate_outcome) :=
  let* now := perf_counter in
  let gen_time := (now - tic)%Q in
  let '(segment, d) := last_segment tokenizer d in
  let shown := [GePrint segment; GePrint "=========="] in
  if (token_count =? 0)%nat then ret (shown ++ [GeNoTokens], d, ReturnedNone)
  else
    match prompt_time with
    | None => ret (shown, d, UnboundLocalError)
    | Some prompt_time =>
        if Qeq_bool prompt_time 0 then ret (shown, d, ZeroDivisionError)
        else
          let prompt_tps :=
            (inject_Z (Z.of_nat prompt_size) / prompt_time)%Q in
          if Qeq_bool gen_time 0 then ret (shown, d, ZeroDivisionError)
          else
            let gen_tps :=
              (inject_Z (Z.of_nat token_count - 1) / gen_time)%Q in
            ret (shown ++ [GePromptStats prompt_size prompt_tps;
                           GeGenerationStats token_count gen_tps;
                           GePeakMemory],
                 d, Returned (detok_text d))
    end.

Definition generate
    (prompt_text : string) (max_tokens : Z) (rate : option pynum)
    (kwargs : gen_args (KV := KV)) (d : D)
  : M (F := F) (Rng := Rng)
      (list (generate_event F) * D * generate_outcome) :=
  let banner :=
    if verbose then [GePrint "=========="; GePrintPrompt prompt_text]
    else [] in
  let prompt_tokens := encode tokenizer prompt_text in
  let* tic := perf_counter in
  let d := reset tokenizer d in
  let* '(evs, d, tic, prompt_time, n) :=
    generate_loop (Z.to_nat max_tokens) 0 None
      (call_generate_step kwargs prompt_tokens rate) d tic None in
  let evs := banner ++ GeReset :: evs in
  match n with
  | None => ret (evs, d, UnboundLocalError)
  | Some n =>
      let token_count := n + 1 in
      let d := finalize tokenizer d in
      if verbose then
        let* '(shown, d, out) :=
          generate_report (length prompt_tokens) token_count tic
            prompt_time d in
        ret (evs ++ GeFinalize :: shown, d, out)
      else ret (evs ++ [GeFinalize], d, Returned (detok_text d))
  end.

End GenerateLoop.

End Generate.

(** * More concrete instances *)

Module Examples.
Import Demo.

(** The defaults on the prompt [1; 2], with a temperature, a [top_p]
    and a [min_p]. *)
Definition sampling_args (t p m : Q) : gen_args (KV := list token) :=
  {| prompt := [1; 2]; temp := t; max_tokens_per_sec := None;
     repetition_penalty := None; repetition_context_size := 20;
     top_p := p; min_p := m; min_tokens_to_keep := 1;
     prefill_step_size := 512; max_kv_size := None;
     prompt_cache := None; logit_bias := None;
     logits_processor := None |}.

(** A session on the prompt [1; 2; 3] with the caller's list of
    [world_with_list] and a bias of +1 on id 0, and no penalty: no
    stage reads the token history. *)
Definition biased_args : gen_args (KV := list token) :=
  {| prompt := [1; 2; 3]; temp := 0; max_tokens_per_sec := None;
     repetition_penalty := None; repetition_context_size := 20;
     top_p := 1; min_p := 0; min_tokens_to_keep := 1;
     prefill_step_size := 512; max_kv_size := None;
     prompt_cache := None; logit_bias := Some [(0, 1%Q)];
     logits_processor := Some 7%positive |}.

(** A world where the caller holds an empty list, at location 7. *)
Definition world_with_empty_list : world (F := Q) (Rng := nat) :=
  {| heap := {[ 7%positive := [] ]}; rng := 0;
     clock := λ n, inject_Z (Z.of_nat n); clock_reads := 0; trace := [] |}.

(** A running session without a rate and without processors. *)
Definition plain_frame : frame (F := Q) (KV := list token) :=
  {| fr_args := default_args [1; 2]; fr_processors := 1%positive;
     fr_cache := [[1; 2]; [1; 2]]; fr_tokens := None; fr_y := 3;
     fr_logprobs := peak 3; fr_last_target_time := 10 |}.

(** A running session on the caller's list of [world_with_list], with
    the history [0; 1] so far. *)
Definition listed_frame : frame (F := Q) (KV := list token) :=
  {| fr_args := all_stages_args; fr_processors := 7%positive;
     fr_cache := [[0]; [0]]; fr_tokens := Some [0]; fr_y := 1;
     fr_logprobs := peak 1; fr_last_target_time := 10 |}.

(** Three arrays given by their sizes: two of 3 GiB and one of one
    byte; and two small ones. *)
Definition large_weights : dict N :=
  [("a", 3221225472%N); ("b", 3221225472%N); ("c", 1%N)].
Definition small_weights : dict N := [("b", 2%N); ("a", 1%N)].

Definition sample_config : dict string :=
  [("model_type", "llama"); ("_name_or_path", "x"); ("hidden_size", "64")].

(** The text of the detokenizer of [digits_tokenizer], and a stand-in
    for [mx.exp] on the rational backend. *)
Definition digits_text (d : list token) : string :=
  foldr (λ _ s, "+" +:+ s) "" d.
Definition demo_exp (x : Q) : Q := x.

End Examples.

(** * Properties *)

(** ** Comparisons on rationals *)

Lemma Qltb_lt (a b : Q) : Qltb a b = true ↔ (a < b)%Q.
Proof.
  unfold Qltb. rewrite negb_true_iff. split.
  - intros Hb. apply Qnot_le_lt. intros Hle.
    apply Qle_bool_iff in Hle. congruence.
  - intros Hlt. destruct (Qle_bool b a) eqn:E; [|done].
    apply Qle_bool_iff in E. exfalso. by apply (Qlt_not_le a b).
Qed.

Lemma Qltb_ge (a b : Q) : Qltb a b = false ↔ (b <= a)%Q.
Proof.
  unfold Qltb. rewrite negb_false_iff. apply Qle_bool_iff.
Qed.

Lemma Qeq_bool_false (a b : Q) : ¬ (a == b)%Q → Qeq_bool a b = false.
Proof.
  intros Hne. destruct (Qeq_bool a b) eqn:E; [|done].
  by apply Qeq_bool_iff in E.
Qed.

Lemma Qltb_pair_false (a b c : Q) :
  ¬ (a < b ∧ b < c)%Q → Qltb a b && Qltb b c = false.
Proof.
  intros Hn. apply not_true_is_false. intros Hb.
  apply andb_true_iff in Hb as [H1 H2]. apply Qltb_lt in H1, H2. tauto.
Qed.

(** ** Slices *)

Lemma py_slice_from_neg_zero {A} (l : list A) : py_slice_from (- 0) l = l.
Proof.
  unfold py_slice_from, py_bound. simpl.
  by replace (Z.to_nat _) with 0 by lia.
Qed.

(** For a positive [n], [l[-n:]] is the last [n] elements of [l], or
    all of [l] when it has fewer. *)
Lemma py_slice_from_trailing {A} (n : Z) (l : list A) :
  (0 < n)%Z →
  py_slice_from (- n) l = drop (length l - Z.to_nat n) l.
Proof.
  intros Hn. unfold py_slice_from, py_bound.
  destruct (- n <? 0)%Z eqn:E; [|apply Z.ltb_ge in E; lia].
  f_equal. lia.
Qed.

Lemma py_slice_from_trailing_length {A} (n : Z) (l : list A) :
  (0 < n)%Z → (Z.of_nat (length (py_slice_from (- n) l)) <= n)%Z.
Proof.
  intros Hn. rewrite py_slice_from_trailing by done.
  rewrite length_drop. lia.
Qed.

Lemma py_slice_split {A} (s : Z) (l : list A) :
  py_slice_to s l ++ py_slice_from s l = l.
Proof. unfold py_slice_to, py_slice_from. apply take_drop. Qed.

(** ** Gather and scatter *)

Ltac split_decides :=
  repeat match goal with
         | |- context [decide ?P] => destruct (decide P)
         end;
  try done;
  repeat match goal with
         | H : _ ∈ _ :: _ |- _ => apply elem_of_cons in H as [?|?]
         | H : _ ∉ _ :: _ |- _ => apply not_elem_of_cons in H as [? ?]
         end;
  try done.

Section ArrayFacts.
Context {F : Type} {backend : MxBackend F}.
Implicit Types (logits acc : list F) (idx : list nat).

Lemma scatter_length acc idx vals :
  length (scatter acc idx vals) = length acc.
Proof.
  revert acc vals. induction idx as [|i idx IH]; intros acc vals; [done|].
  destruct vals as [|[v|] vals]; simpl; [done| |by apply IH].
  by rewrite IH, length_insert.
Qed.

(** Writing back [g] of what was read: an id that was read holds [g]
    of its old entry (once, however often the id occurs), any other
    id keeps what the array held. *)
Lemma scatter_gather_lookup (g : F → F) logits idx : ∀ acc t,
  length acc = length logits →
  scatter acc idx ((λ ox : option F, g <$> ox) <$> gather logits idx) !! t
  = if decide (t ∈ idx) then g <$> (logits !! t) else acc !! t.
Proof.
  induction idx as [|i idx IH]; intros acc t Hlen.
  - cbn [gather fmap list_fmap scatter]. case_decide; [set_solver|done].
  - cbn [gather fmap list_fmap scatter].
    destruct (logits !! i) as [x|] eqn:Hi; cbn [fmap option_fmap option_map].
    + unfold gather in IH. rewrite IH by (by rewrite length_insert).
      destruct (decide (t = i)) as [->|Hne].
      * assert (i < length acc) by (rewrite Hlen; by eapply lookup_lt_Some).
        rewrite list_lookup_insert_eq, Hi by done.
        rewrite (decide_True (P := i ∈ i :: idx)) by set_solver.
        by destruct (decide _).
      * rewrite list_lookup_insert_ne by done.
        split_decides.
    + unfold gather in IH. rewrite IH by done.
      destruct (decide (t = i)) as [->|Hne].
      * assert (acc !! i = None) as ->.
        { apply lookup_ge_None. rewrite Hlen. by apply lookup_ge_None. }
        rewrite Hi. by repeat destruct (decide _).
      * split_decides.
Qed.

Lemma apply_repetition_penalty_lookup logits (tokens : list token) penalty t :
  apply_repetition_penalty logits tokens penalty !! t
  = if decide (t ∈ tokens) then penalise penalty <$> (logits !! t)
    else logits !! t.
Proof.
  unfold apply_repetition_penalty.
  destruct tokens as [|t0 tokens].
  - cbn. case_decide; [set_solver|done].
  - change (0 <? length (t0 :: tokens)) with true. cbv iota zeta.
    by apply scatter_gather_lookup.
Qed.

Lemma apply_repetition_penalty_length logits (tokens : list token) penalty :
  length (apply_repetition_penalty logits tokens penalty) = length logits.
Proof.
  unfold apply_repetition_penalty.
  destruct (0 <? length tokens); [apply scatter_length|done].
Qed.

End ArrayFacts.

(** ** The sampler and the decode step *)

Section EngineFacts.
Context {F : Type} {backend : MxBackend F} {Rng KV : Type}.
Variable top_p_sampling : list F → Q → Q → Rng → token * Rng.
Variable min_p_sampling : list F → Q → Z → Q → Rng → token * Rng.
Variable categorical_sampling : list F → Q → Rng → token * Rng.
Variable make_prompt_cache : option Z → list KV.
Variable model : Model (F := F) (KV := KV).

Local Abbreviation sample' :=
  (sample top_p_sampling min_p_sampling categorical_sampling).
Local Abbreviation _step' :=
  (_step top_p_sampling min_p_sampling categorical_sampling model).
Local Abbreviation prefill' := (prefill (Rng := Rng) model).
Local Abbreviation generate_step_start' :=
  (generate_step_start top_p_sampling min_p_sampling categorical_sampling
     make_prompt_cache model).
Local Abbreviation generate_step_next' :=
  (generate_step_next top_p_sampling min_p_sampling categorical_sampling
     model).
Local Abbreviation gen_next' :=
  (gen_next top_p_sampling min_p_sampling categorical_sampling
     make_prompt_cache model).
Local Abbreviation gen_take' :=
  (gen_take top_p_sampling min_p_sampling categorical_sampling
     make_prompt_cache model).

Implicit Types (args : gen_args (KV := KV)) (w : world (F := F) (Rng := Rng)).

(** C3. Each call of [sample] runs exactly one sampler, chosen in this
    order: arg-max when the temperature is 0, whatever [top_p] and
    [min_p] are; else nucleus sampling when 0 < top_p < 1; else min-p
    sampling when min_p is not 0; else categorical sampling.  The
    log-probabilities returned are the same in all four cases. *)
Theorem sample_strategy_priority args (logits : list F) w :
  let r := sample' args logits w in
  let logprobs := log_normalise logits in
  let in_unit_interval := (0 < top_p args ∧ top_p args < 1)%Q in
  (temp args == 0 →
     r.1 = Ok (argmax logits, logprobs) ∧
     trace r.2 = trace w ++ [EvSampler Greedy] ∧ rng r.2 = rng w)%Q
  ∧ (¬ temp args == 0 → in_unit_interval →
     let d := top_p_sampling logits (top_p args) (temp args) (rng w) in
     r.1 = Ok (d.1, logprobs) ∧
     trace r.2 = trace w ++ [EvSampler TopP] ∧ rng r.2 = d.2)%Q
  ∧ (¬ temp args == 0 → ¬ in_unit_interval → ¬ min_p args == 0 →
     let d := min_p_sampling logits (min_p args) (min_tokens_to_keep args)
                (temp args) (rng w) in
     r.1 = Ok (d.1, logprobs) ∧
     trace r.2 = trace w ++ [EvSampler MinP] ∧ rng r.2 = d.2)%Q
  ∧ (¬ temp args == 0 → ¬ in_unit_interval → min_p args == 0 →
     let d := categorical_sampling logits (temp args) (rng w) in
     r.1 = Ok (d.1, logprobs) ∧
     trace r.2 = trace w ++ [EvSampler Categorical] ∧ rng r.2 = d.2)%Q.
Proof.
  cbv zeta. unfold sample, bind, emit, draw, ret.
  split; [|split; [|split]].
  - intros Ht. apply Qeq_bool_iff in Ht. by rewrite Ht.
  - intros Ht [Hlo Hhi]. apply Qeq_bool_false in Ht.
    apply Qltb_lt in Hlo, Hhi. rewrite Ht, Hlo, Hhi. cbn.
    by destruct (top_p_sampling _ _ _ _).
  - intros Ht Hp Hm. apply Qeq_bool_false in Ht, Hm.
    apply Qltb_pair_false in Hp. rewrite Ht, Hp, Hm. cbn.
    by destruct (min_p_sampling _ _ _ _ _).
  - intros Ht Hp Hm. apply Qeq_bool_false in Ht.
    apply Qltb_pair_false in Hp. apply Qeq_bool_iff in Hm.
    rewrite Ht, Hp, Hm. cbn.
    by destruct (categorical_sampling _ _ _).
Qed.

(** [sample] always returns; it touches the random state and the
    trace only. *)
Lemma sample_ok args (logits : list F) w :
  ∃ token r' s,
    sample' args logits w
    = (Ok (token, log_normalise logits),
       {| heap := heap w; rng := r'; clock := clock w;
          clock_reads := clock_reads w;
          trace := trace w ++ [EvSampler s] |}).
Proof.
  unfold sample, bind, emit, draw, ret.
  destruct (Qeq_bool (temp args) 0); [by eexists _, _, _|].
  destruct (Qltb 0 (top_p args) && Qltb (top_p args) 1).
  { cbn. destruct (top_p_sampling _ _ _ _). by eexists _, _, _. }
  destruct (negb (Qeq_bool (min_p args) 0)); cbn.
  - destruct (min_p_sampling _ _ _ _ _). by eexists _, _, _.
  - destruct (categorical_sampling _ _ _). by eexists _, _, _.
Qed.

(** On an empty [y] the step raises, once the model has run. *)
Lemma step_no_position args lp cache tokens w :
  _step' args lp cache tokens [] w
  = (Raise NoLastPosition, add_trace w [EvForward []]).
Proof.
  unfold _step, bind, emit. by destruct (forward model [] cache).
Qed.

(** On a [y] that is not empty [_step] returns.  Its scores and
    history are those of [step_logits] and [step_tokens]; it leaves
    the store and the clock alone. *)
Lemma step_ok args lp cache tokens y w :
  y ≠ [] →
  let ps := default [] (heap w !! lp) in
  let raw := last_position (forward model y cache).1 in
  ∃ token r' s,
    _step' args lp cache tokens y w
    = (Ok (token, log_normalise (step_logits ps tokens y raw),
           (forward model y cache).2, step_tokens ps tokens y),
       {| heap := heap w; rng := r'; clock := clock w;
          clock_reads := clock_reads w;
          trace := trace w ++ [EvForward y; EvSampler s] |}).
Proof.
  intros Hy. cbv zeta. unfold _step.
  unfold bind at 1. unfold emit at 1.
  destruct (forward model y cache) as [out cache'] eqn:Efw.
  destruct y as [|t0 y0] eqn:Ey; [done|]. rewrite <- Ey in *.
  unfold bind at 1. unfold ret at 1.
  unfold bind at 1, read_list. cbn [heap fst snd].
  destruct (default [] (heap w !! lp)) as [|p ps];
    unfold bind at 1, ret at 1;
    match goal with
    | |- context [bind (sample _ _ _ args ?l) _ ?w0] =>
        destruct (sample_ok args l w0) as (tok & r' & s & Es)
    end;
    exists tok, r', s; unfold bind; rewrite Es; unfold ret; cbn;
    by rewrite <- app_assoc.
Qed.

(** C8. When the processor list is not empty, the log-probabilities a
    decode step returns are the log-sum-exp normalisation of the
    scores the processors produced, not of the model's raw scores:
    every entry is the processed score at that id minus the
    log-sum-exp of all the processed scores.  The step is one that
    has something to run on; on an empty [y] it raises. *)
Theorem step_logprobs_from_processed args lp cache tokens y w ps :
  heap w !! lp = Some ps → ps ≠ [] → y ≠ [] →
  let raw := last_position (forward model y cache).1 in
  let history := step_history tokens y in
  let processed := run_processors ps history raw in
  ∃ token cache' tokens' w',
    _step' args lp cache tokens y w
    = (Ok (token, (λ x, f_sub x (logsumexp processed)) <$> processed,
           cache', tokens'), w').
Proof.
  intros Hps Hne Hy. cbv zeta.
  destruct (step_ok args lp cache tokens y w Hy) as (tok & r' & s & Es).
  rewrite Es, Hps. cbn [from_option id].
  destruct ps as [|p ps]; [done|]. by eexists _, _, _, _.
Qed.

(** ** The start of a session *)

Lemma start_penalty_rejected args fuel w :
  penalty_rejected args = true →
  generate_step_start' args fuel w
  = (Raise (BadRepetitionPenalty (repetition_penalty args)), w).
Proof.
  intros Hp. unfold generate_step_start, check_args, bind, raise.
  by rewrite Hp.
Qed.

Lemma start_rate_rejected args fuel w :
  penalty_rejected args = false → rate_rejected args = true →
  generate_step_start' args fuel w
  = (Raise (BadMaxTokensPerSec (max_tokens_per_sec args)), w).
Proof.
  intros Hp Hr. unfold generate_step_start, check_args, bind, raise, ret.
  by rewrite Hp, Hr.
Qed.

(** With both checks passed, the session is the first-token phase run
    on the installed list. *)
Lemma start_accepted args fuel w :
  penalty_rejected args = false → rate_rejected args = false →
  generate_step_start' args fuel w
  = first_token top_p_sampling min_p_sampling categorical_sampling
      make_prompt_cache model args (session_list args w) fuel
      (world_after_setup args w).
Proof.
  intros Hp Hr.
  unfold generate_step_start, check_args. unfold bind at 1 2. unfold ret at 1.
  rewrite Hp, Hr. unfold ret at 1.
  unfold world_after_setup, session_list, caller_processors,
    internal_processors, processors_or_new, install_processors.
  destruct (logits_processor args) as [l|];
    [destruct (heap w !! l) as [[|q qs]|] eqn:Hl|];
    (destruct (repetition_penalty args) as [p|];
       [destruct (truthy (Some p))|]);
    destruct (logit_bias args) as [[|b bs]|];
    unfold bind, read_list, new_list, ret, perf_counter, list_append;
    cbn; rewrite ?Hl; cbn; f_equal; f_equal;
    rewrite ?lookup_insert_eq, ?insert_insert_eq, ?Hl; cbn;
    rewrite ?lookup_insert_eq, ?insert_insert_eq, ?Hl; cbn;
    rewrite ?app_nil_r, <- ?app_assoc; try done;
    try (symmetry; by apply insert_id).
Qed.

(** ** What a computation leaves alone *)

Lemma keeps_heap_ret {A} (a : A) : keeps_heap (F := F) (Rng := Rng) (ret a).
Proof. done. Qed.

Lemma keeps_heap_raise {A} e : keeps_heap (F := F) (Rng := Rng) (raise (A := A) e).
Proof. done. Qed.

Lemma keeps_heap_diverge {A} :
  keeps_heap (F := F) (Rng := Rng) (diverge (A := A)).
Proof. done. Qed.

Lemma keeps_heap_emit e : keeps_heap (F := F) (Rng := Rng) (emit e).
Proof. done. Qed.

Lemma keeps_heap_perf_counter :
  keeps_heap (F := F) (Rng := Rng) perf_counter.
Proof. done. Qed.

Lemma keeps_heap_read_list l :
  keeps_heap (F := F) (Rng := Rng) (read_list l).
Proof. done. Qed.

Lemma keeps_heap_draw {A} (f : Rng → A * Rng) : keeps_heap (F := F) (Rng := Rng) (draw f).
Proof. intros w. unfold draw. by destruct (f (rng w)). Qed.

Lemma keeps_heap_bind {A B} (c : M A) (k : A → M B) :
  keeps_heap (F := F) (Rng := Rng) c → (∀ a, keeps_heap (k a)) →
  keeps_heap (bind c k).
Proof.
  intros Hc Hk w. unfold bind. specialize (Hc w).
  destruct (c w) as [[a| |] w1]; cbn in *; [|done..].
  by rewrite Hk.
Qed.

Create HintDb keeps.
Hint Resolve keeps_heap_ret keeps_heap_raise keeps_heap_diverge
  keeps_heap_emit keeps_heap_perf_counter keeps_heap_read_list
  keeps_heap_draw : keeps.

Ltac keeps :=
  repeat first
    [ progress auto with keeps
    | apply keeps_heap_bind; [|intros]
    | match goal with
      | |- keeps_heap (if ?b then _ else _) => destruct b
      | |- keeps_heap (match ?x with _ => _ end) => destruct x
      | |- keeps_heap (let '(_, _) := ?x in _) => destruct x
      end ].

Lemma keeps_heap_sample args logits : keeps_heap (F := F) (Rng := Rng) (sample' args logits).
Proof. unfold sample. keeps. Qed.

Lemma keeps_heap_step args lp cache tokens y :
  keeps_heap (F := F) (Rng := Rng) (_step' args lp cache tokens y).
Proof.
  intros w. destruct y as [|t y]; [by rewrite step_no_position|].
  destruct (step_ok args lp cache tokens (t :: y) w) as (? & ? & ? & ->);
    done.
Qed.

Lemma keeps_heap_prefill args fuel : ∀ y cache,
  keeps_heap (F := F) (Rng := Rng) (prefill' args fuel y cache).
Proof.
  induction fuel as [|fuel IH]; intros y cache; cbn [prefill];
    destruct (_ <? _)%Z; keeps.
Qed.

Lemma keeps_heap_first_token args lp fuel :
  keeps_heap (F := F) (Rng := Rng) (first_token top_p_sampling min_p_sampling categorical_sampling
                make_prompt_cache model args lp fuel).
Proof.
  unfold first_token, resolve_cache.
  pose proof (keeps_heap_prefill args fuel).
  pose proof (keeps_heap_step args lp).
  keeps.
Qed.

(** ** Which exceptions a computation can raise *)

Lemma raises_only_ret {A} P (a : A) : raises_only (F := F) (Rng := Rng) P (ret a).
Proof. by intros w e. Qed.

Lemma raises_only_diverge {A} P : raises_only (F := F) (Rng := Rng) P (diverge (A := A)).
Proof. by intros w e. Qed.

Lemma raises_only_raise {A} (P : exn → Prop) e :
  P e → raises_only (F := F) (Rng := Rng) P (raise (A := A) e).
Proof. intros He w e' [= <-]. done. Qed.

Lemma raises_only_emit P e : raises_only (F := F) (Rng := Rng) P (emit e).
Proof. by intros w e'. Qed.

Lemma raises_only_perf_counter P : raises_only (F := F) (Rng := Rng) P perf_counter.
Proof. by intros w e'. Qed.

Lemma raises_only_bind {A B} P (c : M A) (k : A → M B) :
  raises_only (F := F) (Rng := Rng) P c → (∀ a, raises_only P (k a)) →
  raises_only P (bind c k).
Proof.
  intros Hc Hk w e. unfold bind. specialize (Hc w).
  destruct (c w) as [[a| |] w1]; cbn in *; [apply Hk| |done].
  intros [= <-]. by apply Hc.
Qed.

Lemma raises_only_step (P : exn → Prop) args lp cache tokens y :
  P NoLastPosition → raises_only P (_step' args lp cache tokens y).
Proof.
  intros HP w e. destruct y as [|t y].
  - rewrite step_no_position. by intros [= <-].
  - destruct (step_ok args lp cache tokens (t :: y) w) as (? & ? & ? & ->);
      done.
Qed.

Lemma raises_only_prefill P args fuel : ∀ y cache,
  raises_only P (prefill' args fuel y cache).
Proof.
  induction fuel as [|fuel IH]; intros y cache; cbn [prefill];
    destruct (_ <? _)%Z;
    auto using raises_only_ret, raises_only_diverge.
  repeat (apply raises_only_bind; [apply raises_only_emit|intros _]).
  apply IH.
Qed.

(** The first-token phase can only raise the cache error and the
    error of the first step on an empty prompt. *)
Lemma raises_only_first_token args lp fuel :
  raises_only (λ e, e = WrongNumberOfLayers ∨ e = NoLastPosition)
    (first_token top_p_sampling min_p_sampling categorical_sampling
       make_prompt_cache model args lp fuel).
Proof.
  unfold first_token. apply raises_only_bind.
  { unfold resolve_cache. destruct (prompt_cache args) as [c|].
    - apply raises_only_bind; [apply raises_only_emit|intros _].
      destruct (negb _);
        [apply raises_only_raise; by left|apply raises_only_ret].
    - apply raises_only_ret. }
  intros cache. apply raises_only_bind; [apply raises_only_prefill|].
  intros [y cache']. apply raises_only_bind;
    [apply raises_only_step; by right|].
  intros [[[tok lps] c] ts].
  apply raises_only_bind; [apply raises_only_emit|intros _].
  apply raises_only_bind; [apply raises_only_perf_counter|intros t].
  apply raises_only_ret.
Qed.

(** ** Argument checks *)

Lemma truthy_false_iff (p : pynum) :
  truthy (Some p) = false ↔ (pynum_val p == 0)%Q.
Proof.
  unfold truthy. rewrite negb_false_iff. apply Qeq_bool_iff.
Qed.

Lemma penalty_rejected_false_iff args :
  penalty_rejected args = false ↔
  penalty_acceptable (repetition_penalty args).
Proof.
  unfold penalty_rejected, penalty_acceptable.
  destruct (repetition_penalty args) as [p|]; [|done].
  rewrite andb_false_iff, orb_false_iff, negb_false_iff.
  rewrite truthy_false_iff, Qltb_ge. tauto.
Qed.

(** C5, as the code has it. The penalty passes the check exactly when
    it is [None], or zero, or a [float] that is not negative: then
    [generate_step] never raises the penalty error.  Any other value,
    a negative number or a non-zero number that is not a [float],
    raises it before anything else has happened. *)
Theorem repetition_penalty_validation args :
  (penalty_acceptable (repetition_penalty args) →
     ∀ fuel w got,
       (generate_step_start' args fuel w).1 ≠ Raise (BadRepetitionPenalty got))
  ∧ (¬ penalty_acceptable (repetition_penalty args) →
     ∀ fuel w,
       generate_step_start' args fuel w
       = (Raise (BadRepetitionPenalty (repetition_penalty args)), w)).
Proof.
  split.
  - intros Hok fuel w got. apply penalty_rejected_false_iff in Hok.
    destruct (rate_rejected args) eqn:Hr.
    + rewrite start_rate_rejected by done. cbn. discriminate.
    + rewrite start_accepted by done. intros Hraise.
      by apply raises_only_first_token in Hraise as [?|?].
  - intros Hbad fuel w. apply start_penalty_rejected.
    apply not_false_is_true. by rewrite penalty_rejected_false_iff.
Qed.

(** C6. A supplied cache whose length is not the number of layers
    makes [generate_step] raise before any forward pass: up to the
    exception the trace gains at most the one length comparison.  With
    the other arguments in order the exception is the cache error and
    the comparison has been made exactly once. *)
Theorem cache_mismatch_rejected args fuel w (c : list KV) :
  prompt_cache args = Some c → length c ≠ layers model →
  ∃ e w',
    generate_step_start' args fuel w = (Raise e, w')
    ∧ (trace w' = trace w ∨ trace w' = trace w ++ [EvCacheCheck])
    ∧ (penalty_rejected args = false → rate_rejected args = false →
       e = WrongNumberOfLayers ∧ trace w' = trace w ++ [EvCacheCheck]).
Proof.
  intros Hc Hlen.
  destruct (penalty_rejected args) eqn:Hp.
  { rewrite start_penalty_rejected by done. eexists _, _.
    split; [done|]. split; [by left|done]. }
  destruct (rate_rejected args) eqn:Hr.
  { rewrite start_rate_rejected by done. eexists _, _.
    split; [done|]. split; [by left|done]. }
  rewrite start_accepted by done.
  unfold first_token, resolve_cache. rewrite Hc.
  apply Nat.eqb_neq in Hlen.
  unfold bind, emit, raise. rewrite Hlen. cbn.
  eexists _, _. split; [done|]. split; [by right|done].
Qed.

(** ** The processor list *)

Lemma start_heap args fuel w :
  penalty_rejected args = false → rate_rejected args = false →
  heap (generate_step_start' args fuel w).2
  = <[session_list args w :=
        caller_processors args w ++ internal_processors args]> (heap w).
Proof.
  intros Hp Hr. rewrite start_accepted by done.
  by rewrite keeps_heap_first_token.
Qed.

Lemma start_heap_caller args fuel w l ps :
  logits_processor args = Some l → heap w !! l = Some ps → ps ≠ [] →
  penalty_rejected args = false → rate_rejected args = false →
  heap (generate_step_start' args fuel w).2 !! l
  = Some (ps ++ internal_processors args).
Proof.
  intros Hl Hps Hne Hp Hr. rewrite start_heap by done.
  unfold session_list, caller_processors. rewrite Hl, Hps. cbn.
  destruct ps as [|q qs]; [done|]. by rewrite lookup_insert_eq.
Qed.

(** C10. A caller who passes a list that is not empty, together with
    a repetition penalty or a logit bias, finds its own list longer
    after the call: the stages [generate_step] builds are appended to
    that very list, one or two of them. *)
Theorem caller_list_mutated args fuel w l ps :
  logits_processor args = Some l → heap w !! l = Some ps → ps ≠ [] →
  penalty_rejected args = false → rate_rejected args = false →
  truthy (repetition_penalty args) = true ∨ logit_bias_configured args = true →
  let w' := (generate_step_start' args fuel w).2 in
  let added := internal_processors (F := F) args in
  heap w' !! l = Some (ps ++ added) ∧ 1 ≤ length added ≤ 2.
Proof.
  intros Hl Hps Hne Hp Hr Hconf. cbv zeta.
  split; [by apply start_heap_caller|].
  unfold internal_processors, logit_bias_configured, truthy in *.
  destruct (repetition_penalty args) as [p|];
    [destruct (negb _)|]; destruct (logit_bias args) as [[|b bs]|];
    cbn; try lia; by destruct Hconf.
Qed.

Lemma run_processors_app (ps qs : list (processor (F := F))) tokens logits :
  run_processors (ps ++ qs) tokens logits
  = run_processors qs tokens (run_processors ps tokens logits).
Proof. unfold run_processors. by rewrite foldl_app. Qed.

Lemma step_logits_run (ps : list (processor (F := F))) tokens y raw :
  step_logits ps tokens y raw = run_processors ps (step_history tokens y) raw.
Proof. by destruct ps. Qed.

(** C1, as the code has it. With a caller's list, a repetition
    penalty and a logit bias all configured, the list the steps run
    is the caller's stages first, then the repetition penalty, then
    the bias; a step feeds each stage the output of the one before,
    in that order. *)
Theorem pipeline_order args fuel w l user p bias :
  logits_processor args = Some l → heap w !! l = Some user → user ≠ [] →
  repetition_penalty args = Some p → truthy (Some p) = true →
  logit_bias args = Some bias → bias ≠ [] →
  penalty_rejected args = false → rate_rejected args = false →
  let penalty_stage :=
    repetition_penalty_processor (repetition_context_size args)
      (pynum_val p) in
  let bias_stage := logit_bias_processor bias.*1 bias.*2 in
  heap (generate_step_start' args fuel w).2 !! l
  = Some (user ++ [penalty_stage; bias_stage])
  ∧ ∀ w1 cache tokens y,
      heap w1 !! l = Some (user ++ [penalty_stage; bias_stage]) →
      y ≠ [] →
      let history := step_history tokens y in
      let raw := last_position (forward model y cache).1 in
      ∃ token cache' tokens' w2,
        _step' args l cache tokens y w1
        = (Ok (token,
               log_normalise
                 (call_processor bias_stage history
                    (call_processor penalty_stage history
                       (run_processors user history raw))),
               cache', tokens'), w2).
Proof.
  intros Hl Hu Hne Hp Ht Hb Hbne Hpr Hrr. cbv zeta. split.
  - rewrite (start_heap_caller args fuel w l user) by done.
    unfold internal_processors. rewrite Hp, Ht, Hb.
    by destruct bias.
  - intros w1 cache tokens y Hw1 Hy.
    destruct (step_ok args l cache tokens y w1 Hy) as (tok & r' & s & Es).
    rewrite Es, Hw1. cbn [from_option id].
    eexists _, _, _, _. repeat f_equal.
    by rewrite step_logits_run, run_processors_app.
Qed.

(** ** The loop *)



(** ** The streaming wrapper *)

Lemma stream_events_step t segment evs :
  added_tokens (SeAddToken t :: SeYield segment :: evs)
  = t :: added_tokens evs
  ∧ yielded_segments (SeAddToken t :: SeYield segment :: evs)
    = segment :: yielded_segments evs
  ∧ finalize_count (SeAddToken t :: SeYield segment :: evs)
    = finalize_count evs.
Proof.
  unfold finalize_count. by rewrite !filter_cons_False.
Qed.

Lemma stream_events_wrap body segment :
  added_tokens (SeReset :: body ++ [SeFinalize; SeYield segment])
  = added_tokens body
  ∧ length (yielded_segments
              (SeReset :: body ++ [SeFinalize; SeYield segment]))
    = S (length (yielded_segments body))
  ∧ finalize_count (SeReset :: body ++ [SeFinalize; SeYield segment])
    = S (finalize_count body).
Proof.
  unfold added_tokens, yielded_segments, finalize_count.
  cbn [omap list_omap]. rewrite !omap_app, length_app.
  rewrite filter_cons_False, filter_app, length_app by done.
  rewrite filter_cons_True, filter_cons_False by done.
  cbn. rewrite app_nil_r. repeat split; lia.
Qed.

Lemma gen_take_succ_inv fuel n g w items g' w' :
  gen_take' fuel (S n) g w = (Ok (items, g'), w') →
  ∃ token logprobs g1 w1 rest,
    gen_next' fuel g w = (Ok (token, logprobs, g1), w1)
    ∧ gen_take' fuel n g1 w1 = (Ok (rest, g'), w')
    ∧ items = (token, logprobs) :: rest.
Proof.
  cbn [gen_take]. unfold bind at 1.
  destruct (gen_next' fuel g w) as [[[[tok lps] g1]| |] w1]; [|done..].
  unfold bind.
  destruct (gen_take' fuel n g1 w1) as [[[rest g2]| |] w2] eqn:E; [|done..].
  unfold ret. intros [= <- <- <-]. by eexists _, _, _, _, _.
Qed.

Section StreamFacts.
Context {D : Type} (tokenizer : Tokenizer D) (fuel : nat).

Local Abbreviation stream_loop' :=
  (stream_loop top_p_sampling min_p_sampling categorical_sampling
     make_prompt_cache model tokenizer fuel).
Local Abbreviation stream_generate' :=
  (stream_generate top_p_sampling min_p_sampling categorical_sampling
     make_prompt_cache model tokenizer fuel).
Local Abbreviation eos := (eos_token_id tokenizer).

(** Feeding tokens adds exactly them, yields one segment for each
    and finalizes nothing. *)
Lemma feed_tokens_events (ts : list token) : ∀ d : D,
  added_tokens (feed_tokens tokenizer ts d).1 = ts
  ∧ length (yielded_segments (feed_tokens tokenizer ts d).1) = length ts
  ∧ finalize_count (feed_tokens tokenizer ts d).1 = 0.
Proof.
  induction ts as [|t ts IH]; intros d; cbn [feed_tokens]; [done|].
  destruct (last_segment tokenizer (add_token tokenizer t d))
    as [segment d1].
  specialize (IH d1). destruct (feed_tokens tokenizer ts d1) as [evs d2].
  cbn [fst] in *. destruct IH as (Hadd & Hy & Hf).
  destruct (stream_events_step t segment evs) as (-> & -> & ->).
  cbn. by rewrite Hadd, Hy.
Qed.

(** When the generator's first end-of-sequence token comes after
    the tokens [pre] and the range is long enough, the loop asks
    the generator for exactly those tokens and the end-of-sequence
    token, and feeds [pre] to the detokenizer. *)
Lemma stream_loop_until_eos (pre : list token) : ∀ n g d w items g' w',
  gen_take' fuel (S (length pre)) g w = (Ok (items, g'), w') →
  items.*1 = pre ++ [eos] → eos ∉ pre → length pre < n →
  stream_loop' n g d w
  = (Ok ((feed_tokens tokenizer pre d).1, (feed_tokens tokenizer pre d).2,
         g'), w').
Proof.
  induction pre as [|t pre IH]; intros n g d w items g' w' Etake Hit Hpre Hn;
    apply gen_take_succ_inv in Etake
      as (tok & lps & g1 & w1 & rest & Enext & Erest & ->);
    (destruct n as [|n]; [cbn in Hn; lia|]);
    cbn [stream_loop feed_tokens]; unfold bind at 1; rewrite Enext.
  - cbn in Erest. unfold ret in Erest. injection Erest as <- <- <-.
    cbn in Hit. injection Hit as ->.
    by rewrite Nat.eqb_refl.
  - cbn in Hit. injection Hit as -> Hrest.
    apply not_elem_of_cons in Hpre as [Hne Hpre].
    assert ((t =? eos) = false) as -> by (apply Nat.eqb_neq; congruence).
    destruct (last_segment tokenizer (add_token tokenizer t d))
      as [segment d1].
    unfold bind at 1.
    rewrite (IH n g1 d1 w1 rest g' w' Erest Hrest Hpre)
      by (cbn in Hn; lia).
    unfold ret. by destruct (feed_tokens tokenizer pre d1).
Qed.

(** C7. When the end-of-sequence token is the k-th token generated
    and k is within [max_tokens], [stream_generate] takes exactly k
    items from the generator and does with its detokenizer what
    [stream_run] does on the k-1 tokens before it: it resets it, adds
    each of these tokens and yields the segment the detokenizer shows
    after it, finalizes it and yields its last segment; the state the
    detokenizer is left in is that of this run.  So the k-1 tokens
    and nothing else are handed over, never the end-of-sequence
    token, one segment is yielded for each of them, and the
    detokenizer is finalized exactly once, with one last segment
    after it. *)
Theorem stream_stops_at_eos
    (pre : list token) prompt_text max_tokens rate kwargs (d : D) w
    items g' w' :
  let k := S (length pre) in
  gen_take' fuel k
    (call_generate_step kwargs (encode tokenizer prompt_text) rate) w
  = (Ok (items, g'), w') →
  items.*1 = pre ++ [eos] → eos ∉ pre → (Z.of_nat k <= max_tokens)%Z →
  ∃ evs d',
    stream_generate' prompt_text max_tokens rate kwargs d w
    = (Ok (evs, d', g'), w')
    ∧ (evs, d') = stream_run tokenizer pre d
    ∧ added_tokens evs = pre
    ∧ (eos ∉ added_tokens evs)
    ∧ length (yielded_segments evs) = k
    ∧ finalize_count evs = 1
    ∧ ∃ body segment, evs = SeReset :: body ++ [SeFinalize; SeYield segment]
                     ∧ finalize_count body = 0.
Proof.
  cbv zeta. intros Etake Hit Hpre Hk.
  unfold stream_generate, stream_run. unfold bind at 1.
  rewrite (stream_loop_until_eos pre (Z.to_nat max_tokens) _
             (reset tokenizer d) w items g' w' Etake Hit Hpre) by lia.
  destruct (feed_tokens_events pre (reset tokenizer d)) as (Hadd & Hy & Hf).
  destruct (feed_tokens tokenizer pre (reset tokenizer d)) as [body d1].
  cbn [fst snd] in *. unfold bind.
  destruct (last_segment tokenizer (finalize tokenizer d1)) as [segment d2].
  unfold ret. eexists _, _. split; [done|]. split; [done|].
  destruct (stream_events_wrap body segment) as (-> & -> & ->).
  rewrite Hadd, Hy, Hf. repeat split; try done. by eexists _, _.
Qed.

End StreamFacts.

(** ** Chunked prefill *)

(** With a chunk size of at least one the loop ends, and on an
    incremental model what is left for the first step, run on the
    cache the loop filled, is worth the whole prompt on the cache the
    loop started from. *)
Lemma prefill_ok args (Hinc : incremental model) fuel : ∀ y cache w,
  (1 <= prefill_step_size args ∨
   Z.of_nat (length y) <= prefill_step_size args)%Z →
  length y ≤ fuel →
  ∃ y' cache' evs,
    prefill' args fuel y cache w = (Ok (y', cache'), add_trace w evs)
    ∧ (forward model y' cache').2 = (forward model y cache).2
    ∧ last_position (forward model y' cache').1
      = last_position (forward model y cache).1
    ∧ (y ≠ [] → y' ≠ []).
Proof.
  induction fuel as [|fuel IH]; intros y cache w Hs Hfuel; cbn [prefill];
    destruct (_ <? _)%Z eqn:Elt;
    try (exists y, cache, []; unfold ret, add_trace;
         rewrite app_nil_r; by destruct w).
  - apply Z.ltb_lt in Elt. lia.
  - apply Z.ltb_lt in Elt.
    set (s := prefill_step_size args) in *.
    assert (1 <= s)%Z as Hs1 by lia.
    assert (py_slice_to s y = take (Z.to_nat s) y) as Eto.
    { unfold py_slice_to, py_bound.
      destruct (s <? 0)%Z eqn:E; [apply Z.ltb_lt in E; lia|].
      f_equal. lia. }
    assert (py_slice_from s y = drop (Z.to_nat s) y) as Efrom.
    { unfold py_slice_from, py_bound.
      destruct (s <? 0)%Z eqn:E; [apply Z.ltb_lt in E; lia|].
      f_equal. lia. }
    rewrite Eto, Efrom.
    set (chunk := take (Z.to_nat s) y). set (rest := drop (Z.to_nat s) y).
    assert (length rest < length y ∧ rest ≠ []) as [Hlt Hne].
    { subst rest. split; [rewrite length_drop; lia|].
      intros E. apply (f_equal length) in E.
      rewrite length_drop in E. cbn in E. lia. }
    destruct (IH rest (forward model chunk cache).2
                (add_trace w [EvForward chunk; EvEvalCache; EvClearCache]))
      as (y' & cache' & evs & E & Hc & Hl & Hy'); [by left|lia|].
    exists y', cache', ([EvForward chunk; EvEvalCache; EvClearCache] ++ evs).
    split.
    + unfold bind, emit. cbn. rewrite <- !app_assoc. cbn [app].
      unfold add_trace in E. cbn in E.
      rewrite E. unfold add_trace. cbn. by rewrite <- !app_assoc.
    + destruct (Hinc chunk rest cache Hne) as [Hc' Hl'].
      assert (y = chunk ++ rest) as Ey by (symmetry; apply take_drop).
      rewrite Hc, Hl, <- Hc', <- Hl'. rewrite <- Ey.
      split; [done|]. split; [done|]. intros _. by apply Hy'.
Qed.

(** A chunk size of zero never gets through a prompt that is not
    empty. *)
Lemma prefill_zero_diverges args fuel : ∀ y cache w,
  prefill_step_size args = 0%Z → y ≠ [] →
  (prefill' args fuel y cache w).1 = Diverge.
Proof.
  induction fuel as [|fuel IH]; intros y cache w Hs Hy; cbn [prefill];
    rewrite Hs;
    (destruct (0 <? _)%Z eqn:E;
       [|apply Z.ltb_ge in E; destruct y; [done|cbn in E; lia]]);
    [done|].
  unfold bind, emit. cbn.
  assert (py_slice_from 0 y = y) as ->; [|by apply IH].
  unfold py_slice_from, py_bound. cbn.
  by replace (Z.to_nat _) with 0 by lia.
Qed.

Lemma run_processors_history_free (ps : list (processor (F := F))) t1 t2 :
  Forall history_free ps →
  ∀ logits, run_processors ps t1 logits = run_processors ps t2 logits.
Proof.
  unfold run_processors.
  induction 1 as [|p ps Hp _ IH]; intros logits; [done|].
  cbn. rewrite (Hp t1 t2). apply IH.
Qed.

Local Abbreviation first_token' :=
  (first_token top_p_sampling min_p_sampling categorical_sampling
     make_prompt_cache model).

(** The cache the session starts from, when there is one. *)
Local Abbreviation starts_from args cache0 :=
  (match prompt_cache args with
   | None => cache0 = make_prompt_cache (max_kv_size args)
   | Some c => c = cache0 ∧ length c = layers model
   end).

Lemma first_token_ok_inv args lp fuel w fr w' :
  first_token' args lp fuel w = (Ok fr, w') → ∃ cache0, starts_from args cache0.
Proof.
  unfold first_token, resolve_cache.
  destruct (prompt_cache args) as [c|]; [|by eexists].
  unfold bind at 1 2. unfold emit at 1.
  destruct (length c =? layers model) eqn:E; [|done].
  apply Nat.eqb_eq in E. by exists c.
Qed.

(** A first-token phase that returns had a prompt to run on. *)
Lemma first_token_needs_prompt args lp fuel w fr w' :
  first_token' args lp fuel w = (Ok fr, w') →
  (0 <= prefill_step_size args)%Z → prompt args ≠ [].
Proof.
  intros E Hs Hp. revert E. unfold first_token. unfold bind at 1.
  destruct (resolve_cache make_prompt_cache model args w)
    as [[c| |] w0]; [|done..].
  rewrite Hp. unfold bind at 1.
  assert (prefill' args fuel [] c w0 = (Ok ([], c), w0)) as ->.
  { destruct fuel; cbn [prefill length];
      (destruct (_ <? _)%Z eqn:Elt; [apply Z.ltb_lt in Elt; lia|done]). }
  unfold bind at 1. by rewrite step_no_position.
Qed.

(** What the first-token phase computes on an incremental model. *)
Lemma first_token_result args lp fuel w cache0 (Hinc : incremental model) :
  starts_from args cache0 → prompt args ≠ [] →
  (1 <= prefill_step_size args ∨
   Z.of_nat (length (prompt args)) <= prefill_step_size args)%Z →
  length (prompt args) ≤ fuel →
  ∃ fr w' y',
    first_token' args lp fuel w = (Ok fr, w')
    ∧ fr_cache fr = (forward model (prompt args) cache0).2
    ∧ fr_logprobs fr
      = log_normalise
          (step_logits (default [] (heap w !! lp)) None y'
             (last_position (forward model (prompt args) cache0).1)).
Proof.
  intros Hc Hprompt Hs Hfuel. unfold first_token.
  assert (∃ evs, resolve_cache make_prompt_cache model args w
                 = (Ok cache0, add_trace w evs)) as [evs0 E0].
  { unfold resolve_cache. destruct (prompt_cache args) as [c|].
    - destruct Hc as [-> Hlen]. apply Nat.eqb_eq in Hlen.
      unfold bind, emit, ret. rewrite Hlen. by exists [EvCacheCheck].
    - subst cache0. exists []. unfold ret, add_trace.
      rewrite app_nil_r. by destruct w. }
  unfold bind at 1. rewrite E0.
  destruct (prefill_ok args Hinc fuel (prompt args) cache0
              (add_trace w evs0) Hs Hfuel)
    as (y' & cache' & evs & E1 & Hcache & Hlast & Hy').
  unfold bind at 1. rewrite E1.
  destruct (step_ok args lp cache' None y' (add_trace (add_trace w evs0) evs)
              (Hy' Hprompt))
    as (tok & r' & s & E2).
  unfold bind at 1. rewrite E2.
  unfold bind, emit, perf_counter, ret. cbn.
  eexists _, _, y'. split; [done|]. cbn. by rewrite Hcache, Hlast.
Qed.

(** C2, as the code has it. On a model that is incremental over its
    cache and with a chunk size of at least one, a session that
    returns its first token when the prompt is taken in one pass also
    returns it when the prompt is prefilled in chunks, with the same
    cache, whatever the processors are; and, when the processors do
    not look at the token history, with the same first
    log-probabilities. *)
Theorem chunked_prefill_equivalent args (s : Z) fuel w fr1 w1 :
  incremental model →
  (1 <= s)%Z → length (prompt args) ≤ fuel →
  let unchunked :=
    with_prefill_step_size args (Z.of_nat (length (prompt args))) in
  let chunked := with_prefill_step_size args s in
  generate_step_start' unchunked fuel w = (Ok fr1, w1) →
  ∃ fr2 w2,
    generate_step_start' chunked fuel w = (Ok fr2, w2)
    ∧ fr_cache fr2 = fr_cache fr1
    ∧ (Forall history_free
         (caller_processors args w ++ internal_processors args) →
       fr_logprobs fr2 = fr_logprobs fr1).
Proof.
  intros Hinc Hs Hfuel. cbv zeta. intros E1.
  set (unchunked :=
         with_prefill_step_size args (Z.of_nat (length (prompt args)))) in *.
  set (chunked := with_prefill_step_size args s).
  assert (penalty_rejected unchunked = false) as Hp.
  { apply not_true_is_false. intros H.
    rewrite start_penalty_rejected in E1 by done. done. }
  assert (rate_rejected unchunked = false) as Hr.
  { apply not_true_is_false. intros H.
    rewrite start_rate_rejected in E1 by done. done. }
  rewrite start_accepted in E1 by done.
  rewrite (start_accepted chunked) by done.
  change (session_list chunked w) with (session_list unchunked w).
  change (world_after_setup chunked w) with (world_after_setup unchunked w).
  set (lp := session_list unchunked w) in *.
  set (w0 := world_after_setup (F := F) unchunked w) in *.
  destruct (first_token_ok_inv _ _ _ _ _ _ E1) as [cache0 Hc0].
  assert (prompt args ≠ []) as Hprompt.
  { apply (first_token_needs_prompt unchunked lp fuel w0 fr1 w1 E1).
    cbn. lia. }
  destruct (first_token_result unchunked lp fuel w0 cache0 Hinc Hc0)
    as (fr1' & w1' & y1 & E1' & Hc1 & Hl1); [done|right; cbn; lia|done|].
  rewrite E1 in E1'. injection E1' as <- <-.
  destruct (first_token_result chunked lp fuel w0 cache0 Hinc Hc0)
    as (fr2 & w2 & y2 & E2 & Hc2 & Hl2); [done|by left|done|].
  exists fr2, w2. split; [done|]. split; [by rewrite Hc1, Hc2|].
  intros Hfree. rewrite Hl1, Hl2. f_equal.
  rewrite !step_logits_run. apply run_processors_history_free.
  subst w0 lp. unfold world_after_setup. cbn [heap].
  by rewrite lookup_insert_eq.
Qed.

(** With a chunk size of zero and a prompt that is not empty, a
    session whose arguments are in order never reaches its first
    token. *)
Lemma start_zero_chunk_diverges args fuel w cache0 :
  penalty_rejected args = false → rate_rejected args = false →
  starts_from args cache0 →
  prefill_step_size args = 0%Z → prompt args ≠ [] →
  (generate_step_start' args fuel w).1 = Diverge.
Proof.
  intros Hp Hr Hc Hs Hy. rewrite start_accepted by done.
  unfold first_token. unfold bind at 1.
  destruct (resolve_cache make_prompt_cache model args _)
    as [[c| |] w0] eqn:E0.
  - unfold bind at 1.
    pose proof (prefill_zero_diverges args fuel (prompt args) c w0 Hs Hy) as Hd.
    destruct (prefill' args fuel (prompt args) c w0) as [[?| |] ?];
      by cbn in *.
  - exfalso. revert E0. unfold resolve_cache.
    destruct (prompt_cache args) as [c|]; [|done].
    destruct Hc as [_ Hlen]. apply Nat.eqb_eq in Hlen.
    unfold bind, emit, ret. by rewrite Hlen.
  - exfalso. revert E0. unfold resolve_cache.
    destruct (prompt_cache args) as [c|]; [|done].
    unfold bind, emit, ret. by destruct (negb _).
Qed.

(** ** The repetition penalty window *)

(** For a context size of at least one, the repetition-penalty stage
    works on the last [repetition_context_size] tokens of the
    history: an id in that window has its score multiplied by the
    penalty when negative and divided by it otherwise, and every
    other score is left as it was. *)
Lemma repetition_penalty_window (n : Z) (p : Q) tokens (logits : list F) t :
  (0 < n)%Z →
  let window := spec_trailing_window n tokens in
  length window ≤ Z.to_nat n
  ∧ call_processor (repetition_penalty_processor n p) tokens logits !! t
    = if decide (t ∈ window) then penalise (f_of_py p) <$> (logits !! t)
      else logits !! t.
Proof.
  intros Hn. cbv zeta. unfold spec_trailing_window.
  split; [rewrite length_drop; lia|].
  cbn [call_processor]. rewrite py_slice_from_trailing by done.
  apply apply_repetition_penalty_lookup.
Qed.

End EngineFacts.

(** * The properties on the small instance *)

Import Demo.
Import Examples.

(** Refutes a pointwise equality of two explicit lists of rationals by
    walking down to the first pair that differs. *)
Ltac refute_pointwise H :=
  repeat (let Hhd := fresh "Hhd" in
          let Htl := fresh "Htl" in
          inversion H as [|? ? ? ? Hhd Htl]; clear H;
          try (unfold Qeq in Hhd; cbn in Hhd; lia);
          rename Htl into H).

Lemma bigram_incremental : incremental bigram_model.
Proof.
  intros a b c Hb. cbn [forward bigram_model]. unfold bigram_forward.
  cbn [fst snd]. split.
  - rewrite <- list_fmap_compose. apply list_fmap_ext.
    intros _ kv _. cbn. by rewrite app_assoc.
  - unfold last_position. rewrite !fmap_last, last_app.
    match goal with
    | |- context [match ?x with Some _ => _ | None => _ end] =>
        destruct x eqn:E
    end; [done|]. by apply last_None in E.
Qed.

(** Two score vectors whose difference is not the same at two ids have
    different log-probabilities, whatever [logsumexp] computes. *)
Lemma log_normalise_separates (lse : list Q → Q) (l1 l2 : list Q)
    (i j : nat) (x1 x2 y1 y2 : Q) :
  l1 !! i = Some x1 → l2 !! i = Some x2 →
  l1 !! j = Some y1 → l2 !! j = Some y2 →
  ¬ (x1 - x2 == y1 - y2)%Q →
  ¬ Forall2 Qeq (log_normalise (backend := Q_backend_with lse) l1)
                (log_normalise (backend := Q_backend_with lse) l2).
Proof.
  intros Hx1 Hx2 Hy1 Hy2 Hne Hall. apply Hne.
  unfold log_normalise in Hall. cbn [f_sub logsumexp Q_backend_with] in Hall.
  assert (x1 - lse l1 == x2 - lse l2)%Q as Hi.
  { eapply (Forall2_lookup_lr _ _ _ i); [exact Hall|..];
      by rewrite list_lookup_fmap, ?Hx1, ?Hx2. }
  assert (y1 - lse l1 == y2 - lse l2)%Q as Hj.
  { eapply (Forall2_lookup_lr _ _ _ j); [exact Hall|..];
      by rewrite list_lookup_fmap, ?Hy1, ?Hy2. }
  lra.
Qed.

(** C1, the claim as stated fails. In a session with a caller's stage,
    a repetition penalty of 2 and a bias of +1 on id 0, the list the
    steps run starts with the caller's stage, and the first step
    normalises the scores [3/2; 3; 1; ..] where the order penalty, bias,
    caller gives [1; 3; 1; ..]: the log-probabilities differ whatever
    [logsumexp] computes. *)
Lemma pipeline_order_spec_counterexample :
  all_stages_spec_scores = [1; 3; 1; 1; 1; 1; 1; 1]%Q
  ∧ ∀ lse, ∃ fr w',
      start_with lse bigram_model all_stages_args 10 world_with_list
      = (Ok fr, w')
      ∧ heap w' !! 7%positive
        = Some [raise_by_two; repetition_penalty_processor 20 2;
                logit_bias_processor [0] [1%Q]]
      ∧ fr_logprobs fr
        = log_normalise (backend := Q_backend_with lse)
            [3 # 2; 3; 1; 1; 1; 1; 1; 1]%Q
      ∧ ¬ Forall2 Qeq (fr_logprobs fr)
            (log_normalise (backend := Q_backend_with lse)
               all_stages_spec_scores).
Proof.
  split; [reflexivity|]. intros lse.
  eexists _, _. split; [vm_compute; reflexivity|].
  split; [reflexivity|]. split; [reflexivity|].
  change (¬ Forall2 Qeq
            (log_normalise (backend := Q_backend_with lse)
               [3 # 2; 3; 1; 1; 1; 1; 1; 1]%Q)
            (log_normalise (backend := Q_backend_with lse)
               [1; 3; 1; 1; 1; 1; 1; 1]%Q)).
  by apply (log_normalise_separates lse _ _ 0 1 (3 # 2) 1 3 3).
Qed.

Lemma pipeline_order_witness :
  let penalty_stage := repetition_penalty_processor (F := Q) 20 2 in
  let bias_stage := logit_bias_processor (F := Q) [0] [1%Q] in
  let w1 := (start bigram_model all_stages_args 10 world_with_list).2 in
  let history := step_history None [0] in
  let raw := last_position (forward bigram_model [0] [[]; []]).1 in
  (heap world_with_list !! 7%positive = Some [raise_by_two]
   ∧ penalty_rejected all_stages_args = false
   ∧ rate_rejected all_stages_args = false
   ∧ [0] ≠ [])
  ∧ heap w1 !! 7%positive
    = Some ([raise_by_two] ++ [penalty_stage; bias_stage])
  ∧ ∃ token cache' tokens' w2,
      step bigram_model all_stages_args 7%positive [[]; []] None [0] w1
      = (Ok (token,
             log_normalise
               (call_processor bias_stage history
                  (call_processor penalty_stage history
                     (run_processors [raise_by_two] history raw))),
             cache', tokens'), w2).
Proof.
  cbv zeta. split; [by repeat split|].
  assert (Hy : [0] ≠ []) by discriminate.
  destruct (pipeline_order demo_top_p demo_min_p demo_categorical
              fresh_cache bigram_model all_stages_args 10 world_with_list
              7%positive [raise_by_two] (PyFloat 2) [(0, 1%Q)])
    as [Hheap Hstep]; try done.
  split; [exact Hheap|].
  exact (Hstep _ [[]; []] None [0] Hheap Hy).
Defined.

(** C2, the claim as stated fails, in three ways: on a model that is
    deterministic but counts its calls, chunks of one change the cache
    and the first log-probabilities; on an incremental model with a
    repetition penalty, chunks of one change the first
    log-probabilities, the history of the first step being only what
    the prefill left; and with a chunk size of zero the session never
    returns.  The first two hold whatever [logsumexp] computes. *)
Lemma chunked_prefill_counterexample :
  (∀ lse, ∃ fr1 w1 fr2 w2,
     start_with lse counting_model
       (with_prefill_step_size (default_args [1; 2; 3]) 3) 10 world0
     = (Ok fr1, w1)
     ∧ start_with lse counting_model
         (with_prefill_step_size (default_args [1; 2; 3]) 1) 10 world0
       = (Ok fr2, w2)
     ∧ fr_cache fr1 = [[0]; [0]] ∧ fr_cache fr2 = [[0; 0; 0]; [0; 0; 0]]
     ∧ fr_logprobs fr1
       = log_normalise (backend := Q_backend_with lse) (peak 1)
     ∧ fr_logprobs fr2
       = log_normalise (backend := Q_backend_with lse) (peak 3)
     ∧ ¬ Forall2 Qeq (fr_logprobs fr1) (fr_logprobs fr2))
  ∧ (∀ lse, ∃ fr1 w1 fr2 w2,
       start_with lse bigram_model
         (with_prefill_step_size penalty_args 2) 10 world0
       = (Ok fr1, w1)
       ∧ start_with lse bigram_model
           (with_prefill_step_size penalty_args 1) 10 world0
         = (Ok fr2, w2)
       ∧ fr_cache fr1 = fr_cache fr2
       ∧ fr_tokens fr1 = Some [3; 5] ∧ fr_tokens fr2 = Some [5]
       ∧ fr_logprobs fr1
         = log_normalise (backend := Q_backend_with lse)
             [-1; -1; -1; -2; -1; -2; 1; -1]%Q
       ∧ fr_logprobs fr2
         = log_normalise (backend := Q_backend_with lse)
             [-1; -1; -1; -1; -1; -2; 1; -1]%Q
       ∧ ¬ Forall2 Qeq (fr_logprobs fr1) (fr_logprobs fr2))
  ∧ (∀ fuel,
       (start bigram_model
          (with_prefill_step_size (default_args [1; 2; 3]) 0) fuel world0).1
       = Diverge).
Proof.
  split; [|split].
  - intros lse. eexists _, _, _, _. split; [vm_compute; reflexivity|].
    split; [vm_compute; reflexivity|]. do 4 (split; [reflexivity|]).
    change (¬ Forall2 Qeq
              (log_normalise (backend := Q_backend_with lse) (peak 1))
              (log_normalise (backend := Q_backend_with lse) (peak 3))).
    by apply (log_normalise_separates lse _ _ 1 3 1 (-1) (-1) 1).
  - intros lse. eexists _, _, _, _. split; [vm_compute; reflexivity|].
    split; [vm_compute; reflexivity|]. do 5 (split; [reflexivity|]).
    change (¬ Forall2 Qeq
              (log_normalise (backend := Q_backend_with lse)
                 [-1; -1; -1; -2; -1; -2; 1; -1]%Q)
              (log_normalise (backend := Q_backend_with lse)
                 [-1; -1; -1; -1; -1; -2; 1; -1]%Q)).
    by apply (log_normalise_separates lse _ _ 3 0 (-2) (-1) (-1) (-1)).
  - intros fuel.
    by apply (start_zero_chunk_diverges demo_top_p demo_min_p demo_categorical
                fresh_cache bigram_model _ fuel world0 [[]; []]).
Qed.

Lemma chunked_prefill_equivalent_witness :
  (incremental bigram_model
   ∧ Forall history_free
       (caller_processors biased_args world_with_list
        ++ internal_processors biased_args))
  ∧ ∃ fr1 w1 fr2 w2,
      start bigram_model (with_prefill_step_size biased_args 3) 10
        world_with_list
      = (Ok fr1, w1)
      ∧ start bigram_model (with_prefill_step_size biased_args 1) 10
          world_with_list
        = (Ok fr2, w2)
      ∧ fr_cache fr2 = fr_cache fr1
      ∧ fr_logprobs fr2 = fr_logprobs fr1.
Proof.
  assert (Hfree : Forall history_free
                    (caller_processors biased_args world_with_list
                     ++ internal_processors biased_args)).
  { change (Forall history_free
              [raise_by_two; logit_bias_processor (F := Q) [0] [1%Q]]).
    repeat constructor; intros t1 t2 logits; reflexivity. }
  split; [split; [exact bigram_incremental|exact Hfree]|].
  eexists _, _.
  assert (start bigram_model
            (with_prefill_step_size biased_args
               (Z.of_nat (length (prompt biased_args))))
            10 world_with_list = _) as Hun by (vm_compute; reflexivity).
  destruct (chunked_prefill_equivalent demo_top_p demo_min_p demo_categorical
              fresh_cache bigram_model biased_args 1 10 world_with_list
              _ _ bigram_incremental ltac:(lia) ltac:(cbn; lia) Hun)
    as (fr2 & w2 & E2 & Hc & Hl).
  exists fr2, w2. split; [exact Hun|]. split; [exact E2|].
  split; [exact Hc|exact (Hl Hfree)].
Defined.

Lemma sample_strategy_priority_witness :
  let run args :=
    sample demo_top_p demo_min_p demo_categorical args (peak 3) world0 in
  let logprobs := log_normalise (peak 3) in
  (* temperature 0, with [top_p] and [min_p] set: arg-max *)
  ((run (sampling_args 0 (1 # 2) (1 # 10))).1 = Ok (argmax (peak 3), logprobs)
   ∧ trace (run (sampling_args 0 (1 # 2) (1 # 10))).2
     = trace world0 ++ [EvSampler Greedy]
   ∧ rng (run (sampling_args 0 (1 # 2) (1 # 10))).2 = rng world0)
  (* temperature 1, [top_p] in (0, 1) and [min_p] set: nucleus *)
  ∧ ((run (sampling_args 1 (1 # 2) (1 # 10))).1
     = Ok ((demo_top_p (peak 3) (1 # 2) 1 (rng world0)).1, logprobs)
     ∧ trace (run (sampling_args 1 (1 # 2) (1 # 10))).2
       = trace world0 ++ [EvSampler TopP]
     ∧ rng (run (sampling_args 1 (1 # 2) (1 # 10))).2
       = (demo_top_p (peak 3) (1 # 2) 1 (rng world0)).2)
  (* temperature 1, [top_p] 1 and [min_p] set: min-p *)
  ∧ ((run (sampling_args 1 1 (1 # 10))).1
     = Ok ((demo_min_p (peak 3) (1 # 10) 1 1 (rng world0)).1, logprobs)
     ∧ trace (run (sampling_args 1 1 (1 # 10))).2
       = trace world0 ++ [EvSampler MinP]
     ∧ rng (run (sampling_args 1 1 (1 # 10))).2
       = (demo_min_p (peak 3) (1 # 10) 1 1 (rng world0)).2)
  (* temperature 1, [top_p] 1 and [min_p] 0: categorical *)
  ∧ ((run (sampling_args 1 1 0)).1
     = Ok ((demo_categorical (peak 3) 1 (rng world0)).1, logprobs)
     ∧ trace (run (sampling_args 1 1 0)).2
       = trace world0 ++ [EvSampler Categorical]
     ∧ rng (run (sampling_args 1 1 0)).2
       = (demo_categorical (peak 3) 1 (rng world0)).2).
Proof.
  cbv zeta.
  assert (Hzero : Qeq 0 0) by reflexivity.
  assert (Hone : ¬ Qeq 1 0) by (intros H; vm_compute in H; discriminate H).
  assert (Htenth : ¬ Qeq (1 # 10) 0)
    by (intros H; vm_compute in H; discriminate H).
  assert (Hin : (0 < 1 # 2 ∧ 1 # 2 < 1)%Q)
    by (split; vm_compute; reflexivity).
  assert (Hout : ¬ (0 < 1 ∧ 1 < 1)%Q)
    by (intros [_ H]; vm_compute in H; discriminate H).
  split; [|split; [|split]].
  - exact (proj1 (sample_strategy_priority demo_top_p demo_min_p
                    demo_categorical (sampling_args 0 (1 # 2) (1 # 10))
                    (peak 3) world0) Hzero).
  - exact (proj1 (proj2 (sample_strategy_priority demo_top_p demo_min_p
                           demo_categorical
                           (sampling_args 1 (1 # 2) (1 # 10))
                           (peak 3) world0)) Hone Hin).
  - exact (proj1 (proj2 (proj2 (sample_strategy_priority demo_top_p
                                  demo_min_p demo_categorical
                                  (sampling_args 1 1 (1 # 10))
                                  (peak 3) world0))) Hone Hout Htenth).
  - exact (proj2 (proj2 (proj2 (sample_strategy_priority demo_top_p
                                  demo_min_p demo_categorical
                                  (sampling_args 1 1 0)
                                  (peak 3) world0))) Hone Hout Hzero).
Defined.

(** C4, on the code. With [repetition_context_size = 0] the window of
    at most zero tokens is empty, but the slice [tokens[-0:]] the code
    takes is the whole history: the stage penalises the ids 1 and 3 of
    the history, where a context size of 1 touches the last id only. *)
Theorem context_size_zero_penalises_history :
  spec_trailing_window 0 [1; 3] = []
  ∧ py_slice_from (- 0) [1; 3] = [1; 3]
  ∧ Qred <$> call_processor (repetition_penalty_processor 0 2) [1; 3]
               [4; 6; -8; -2]%Q
    = [4; 3; -8; -4]%Q
  ∧ Qred <$> call_processor (repetition_penalty_processor 1 2) [1; 3]
               [4; 6; -8; -2]%Q
    = [4; 6; -8; -4]%Q.
Proof. by vm_compute. Qed.

(** C5, the claim as stated fails. The integer 2 is a non-negative
    number, and [generate_step] rejects it, before anything else. *)
Lemma integer_penalty_rejected :
  (0 <= pynum_val (PyInt 2))%Q
  ∧ ∀ fuel,
      start bigram_model int_penalty_args fuel world0
      = (Raise (BadRepetitionPenalty (Some (PyInt 2))), world0).
Proof. split; [by vm_compute|]. intros fuel. reflexivity. Qed.

Lemma repetition_penalty_validation_witness :
  penalty_acceptable (repetition_penalty penalty_args)
  ∧ (start bigram_model penalty_args 10 world0).1
    ≠ Raise (BadRepetitionPenalty (Some (PyFloat 2))).
Proof.
  assert (penalty_acceptable (repetition_penalty penalty_args)) as Hok.
  { right. split; [reflexivity|]. by vm_compute. }
  split; [exact Hok|].
  exact (proj1 (repetition_penalty_validation demo_top_p demo_min_p
                  demo_categorical fresh_cache bigram_model penalty_args)
           Hok 10 world0 (Some (PyFloat 2))).
Defined.

Lemma cache_mismatch_rejected_witness :
  (prompt_cache short_cache_args = Some [[]; []]
   ∧ length (A := list token) [[]; []] ≠ layers four_layer_model)
  ∧ ∃ e w',
      start four_layer_model short_cache_args 10 world0 = (Raise e, w')
      ∧ (trace w' = trace world0 ∨ trace w' = trace world0 ++ [EvCacheCheck])
      ∧ (penalty_rejected short_cache_args = false →
         rate_rejected short_cache_args = false →
         e = WrongNumberOfLayers ∧ trace w' = trace world0 ++ [EvCacheCheck]).
Proof.
  split; [split; [reflexivity|cbn; lia]|].
  apply (cache_mismatch_rejected demo_top_p demo_min_p demo_categorical
           fresh_cache four_layer_model short_cache_args 10 world0 [[]; []]);
    [reflexivity|cbn; lia].
Defined.

Lemma stream_stops_at_eos_witness :
  ∃ g' w',
    stream_generate demo_top_p demo_min_p demo_categorical fresh_cache
      bigram_model digits_tokenizer 10 "ab" 10 None (default_args []) [9]
      world0
    = (Ok ([SeReset; SeAddToken 3; SeYield "+"; SeAddToken 4; SeYield "+";
            SeFinalize; SeYield "+"], [3; 4], g'), w').
Proof.
  edestruct (stream_stops_at_eos demo_top_p demo_min_p demo_categorical
               fresh_cache bigram_model digits_tokenizer 10 [3; 4] "ab" 10%Z
               None (default_args []) [9] world0)
    as (evs & d' & E & Hrun & _).
  - vm_compute; reflexivity.
  - reflexivity.
  - cbn. repeat (apply not_elem_of_cons; split; [done|]).
    apply not_elem_of_nil.
  - cbn. lia.
  - change (stream_run digits_tokenizer [3; 4] [9])
      with ([SeReset; SeAddToken 3; SeYield "+"; SeAddToken 4; SeYield "+";
             SeFinalize; SeYield "+"], [3; 4]) in Hrun.
    injection Hrun as -> ->. eexists _, _. exact E.
Defined.

Lemma step_logprobs_from_processed_witness :
  let processed :=
    run_processors [raise_by_two] (step_history None [0])
      (last_position (forward bigram_model [0] [[]; []]).1) in
  (heap world_with_list !! 7%positive = Some [raise_by_two]
   ∧ [raise_by_two] ≠ [] ∧ [0] ≠ [])
  ∧ ∃ token cache' tokens' w',
      step bigram_model all_stages_args 7%positive [[]; []] None [0]
        world_with_list
      = (Ok (token, (λ x, f_sub x (logsumexp processed)) <$> processed,
             cache', tokens'), w').
Proof.
  cbv zeta.
  assert (Hps : [raise_by_two] ≠ []) by discriminate.
  assert (Hy : [0] ≠ []) by discriminate.
  split; [by repeat split|].
  exact (step_logprobs_from_processed demo_top_p demo_min_p demo_categorical
           bigram_model all_stages_args 7%positive [[]; []] None [0]
           world_with_list [raise_by_two] eq_refl Hps Hy).
Defined.


Lemma caller_list_mutated_witness :
  (logits_processor all_stages_args = Some 7%positive
   ∧ heap world_with_list !! 7%positive = Some [raise_by_two]
   ∧ truthy (repetition_penalty all_stages_args) = true)
  ∧ heap (start bigram_model all_stages_args 10 world_with_list).2 !! 7%positive
    = Some ([raise_by_two] ++ internal_processors all_stages_args)
  ∧ 1 ≤ length (internal_processors (F := Q) all_stages_args) ≤ 2.
Proof.
  split; [by repeat split|].
  apply (caller_list_mutated demo_top_p demo_min_p demo_categorical
           fresh_cache bigram_model all_stages_args 10 world_with_list
           7%positive [raise_by_two]); try done. by left.
Defined.

(** * Further properties of the generation loop *)

Section BiasFacts.
Context {F : Type} {backend : MxBackend F}.

(** Adding [vals] at the distinct ids [idx]: each id listed gets its
    own value added once, every other entry stays. *)
Lemma add_at_lookup (bias : list (nat * F)) : ∀ (acc logits : list F) t,
  NoDup bias.*1 → length acc = length logits →
  scatter acc bias.*1
    (zip_with (λ ox v, (λ x, f_add x v) <$> ox) (gather logits bias.*1)
       bias.*2) !! t
  = match (list_to_map bias : gmap nat F) !! t with
    | Some b => (λ x, f_add x b) <$> (logits !! t)
    | None => acc !! t
    end.
Proof.
  unfold gather.
  induction bias as [|[i b] bias IH]; intros acc logits t Hnd Hlen.
  { done. }
  rewrite !fmap_cons in *. apply NoDup_cons in Hnd as [Hi Hnd].
  cbn [fst snd zip_with scatter] in *.
  cbn [list_to_map foldr uncurry fst snd].
  assert ((list_to_map bias : gmap nat F) !! i = None) as Hnone.
  { by apply not_elem_of_list_to_map. }
  destruct (logits !! i) as [x|] eqn:Ei; cbn [fmap option_fmap option_map].
  - rewrite IH by (by rewrite ?length_insert).
    destruct (decide (t = i)) as [->|Hne].
    + rewrite Hnone, lookup_insert_eq, Ei.
      apply list_lookup_insert_eq. rewrite Hlen. by eapply lookup_lt_Some.
    + rewrite lookup_insert_ne by done.
      destruct (_ !! t); [done|]. by apply list_lookup_insert_ne.
  - rewrite IH by done.
    destruct (decide (t = i)) as [->|Hne].
    + rewrite Hnone, lookup_insert_eq, Ei. cbn.
      apply lookup_ge_None. rewrite Hlen. by apply lookup_ge_None.
    + by rewrite lookup_insert_ne.
Qed.

(** X1. The logit-bias stage adds to the score of each id of the bias
    dictionary that id's own bias, once, and leaves every other score
    as it was; the token history plays no part. *)
Theorem logit_bias_stage (bias : list (nat * Q)) tokens (logits : list F) t :
  NoDup bias.*1 →
  call_processor (logit_bias_processor bias.*1 bias.*2) tokens logits !! t
  = match (list_to_map bias : gmap nat Q) !! t with
    | Some b => (λ x, f_add x (f_of_py b)) <$> (logits !! t)
    | None => logits !! t
    end.
Proof.
  intros Hnd. cbn [call_processor]. unfold add_at.
  pose proof (add_at_lookup (prod_map id f_of_py <$> bias) logits logits t)
    as H.
  assert ((prod_map id f_of_py <$> bias).*1 = bias.*1) as E1.
  { rewrite <- list_fmap_compose. by apply list_fmap_ext; intros ? [] ?. }
  assert ((prod_map id f_of_py <$> bias).*2 = f_of_py <$> bias.*2) as E2.
  { rewrite <- !list_fmap_compose. by apply list_fmap_ext; intros ? [] ?. }
  rewrite E1, E2 in H. rewrite H by done.
  rewrite (list_to_map_fmap f_of_py bias), lookup_fmap.
  by match goal with |- context [f_of_py <$> ?o] => destruct o end.
Qed.

End BiasFacts.

Section MoreEngineFacts.
Context {F : Type} {backend : MxBackend F} {Rng KV : Type}.
Variable top_p_sampling : list F → Q → Q → Rng → token * Rng.
Variable min_p_sampling : list F → Q → Z → Q → Rng → token * Rng.
Variable categorical_sampling : list F → Q → Rng → token * Rng.
Variable make_prompt_cache : option Z → list KV.
Variable model : Model (F := F) (KV := KV).

Local Abbreviation _step' :=
  (_step top_p_sampling min_p_sampling categorical_sampling model).
Local Abbreviation prefill' := (prefill (Rng := Rng) model).
Local Abbreviation generate_step_start' :=
  (generate_step_start top_p_sampling min_p_sampling categorical_sampling
     make_prompt_cache model).
Local Abbreviation generate_step_next' :=
  (generate_step_next top_p_sampling min_p_sampling categorical_sampling
     model).
Local Abbreviation gen_next' :=
  (gen_next top_p_sampling min_p_sampling categorical_sampling
     make_prompt_cache model).
Local Abbreviation gen_take' :=
  (gen_take top_p_sampling min_p_sampling categorical_sampling
     make_prompt_cache model).

Implicit Types (args : gen_args (KV := KV)) (w : world (F := F) (Rng := Rng)).

(** ** The rate argument *)

Lemma rate_rejected_false_iff args :
  rate_rejected args = false ↔ rate_acceptable (max_tokens_per_sec args).
Proof.
  unfold rate_rejected, rate_acceptable.
  destruct (max_tokens_per_sec args) as [r|]; [|done].
  split.
  - intros Hb. apply Qnot_le_lt. intros Hle.
    apply Qle_bool_iff in Hle. congruence.
  - intros Hlt. apply not_true_is_false. intros Hb.
    apply Qle_bool_iff in Hb. by apply (Qlt_not_le _ _ Hlt).
Qed.

(** X2. With a penalty that passes its own check, [max_tokens_per_sec]
    passes exactly when it is [None] or a positive number, integer or
    float: then [generate_step] never raises the rate error.  Zero or a
    negative rate raises it before anything else has happened. *)
Theorem rate_validation args :
  penalty_rejected args = false →
  (rate_acceptable (max_tokens_per_sec args) →
     ∀ fuel w got,
       (generate_step_start' args fuel w).1 ≠ Raise (BadMaxTokensPerSec got))
  ∧ (¬ rate_acceptable (max_tokens_per_sec args) →
     ∀ fuel w,
       generate_step_start' args fuel w
       = (Raise (BadMaxTokensPerSec (max_tokens_per_sec args)), w)).
Proof.
  intros Hp. split.
  - intros Hok fuel w got. apply rate_rejected_false_iff in Hok.
    rewrite (start_accepted top_p_sampling min_p_sampling
               categorical_sampling make_prompt_cache model) by done.
    intros Hraise.
    by apply (raises_only_first_token top_p_sampling min_p_sampling
                categorical_sampling make_prompt_cache model) in Hraise
      as [?|?].
  - intros Hbad fuel w.
    apply (start_rate_rejected top_p_sampling min_p_sampling
             categorical_sampling make_prompt_cache model); [done|].
    apply not_false_is_true. by rewrite rate_rejected_false_iff.
Qed.

(** ** One turn of the loop, in full *)

Lemma Qltb_sub (a b : Q) : Qltb 0 (b - a) = Qltb a b.
Proof.
  destruct (Qltb a b) eqn:E.
  - apply Qltb_lt in E. apply Qltb_lt. lra.
  - apply Qltb_ge in E. apply Qltb_ge. lra.
Qed.

Lemma next_world fr w :
  let ps := default [] (heap w !! fr_processors fr) in
  let raw := last_position (forward model [fr_y fr] (fr_cache fr)).1 in
  let now := clock w (clock_reads w) in
  let target := next_target (fr_args fr) (fr_last_target_time fr) in
  ∃ token r' s,
    generate_step_next' fr w
    = (Ok (fr_y fr, fr_logprobs fr,
           {| fr_args := fr_args fr;
              fr_processors := fr_processors fr;
              fr_cache := (forward model [fr_y fr] (fr_cache fr)).2;
              fr_tokens := step_tokens ps (fr_tokens fr) [fr_y fr];
              fr_y := token;
              fr_logprobs :=
                log_normalise (step_logits ps (fr_tokens fr) [fr_y fr] raw);
              fr_last_target_time := target |}),
       {| heap := heap w; rng := r'; clock := clock w;
          clock_reads := turn_clock_reads (fr_args fr) + clock_reads w;
          trace := trace w ++ turn_events (fr_args fr) (fr_y fr) s now target |}).
Proof.
  cbv zeta. unfold generate_step_next. unfold bind at 1.
  destruct (step_ok top_p_sampling min_p_sampling categorical_sampling model
              (fr_args fr) (fr_processors fr) (fr_cache fr)
              (fr_tokens fr) [fr_y fr] w) as (tok & r' & s & ->); [done|].
  exists tok, r', s.
  unfold next_target, turn_events, turn_clock_reads.
  destruct (max_tokens_per_sec (fr_args fr)) as [r|].
  - unfold bind, emit, perf_counter, ret. cbn. rewrite Qltb_sub.
    destruct (Qltb _ _); cbn; do 2 f_equal; by rewrite <- ?app_assoc.
  - unfold bind, emit, ret. cbn. do 2 f_equal. by rewrite <- ?app_assoc.
Qed.

Lemma gen_take_running_succ fuel n fr w token logprobs fr1 w1 items g w2 :
  generate_step_next' fr w = (Ok (token, logprobs, fr1), w1) →
  gen_take' fuel n (GenRunning fr1) w1 = (Ok (items, g), w2) →
  gen_take' fuel (S n) (GenRunning fr) w
  = (Ok ((token, logprobs) :: items, g), w2).
Proof.
  intros E1 E2. cbn [gen_take]. unfold bind at 1. unfold gen_next.
  unfold bind at 1, ret at 1. unfold bind at 1. rewrite E1.
  unfold ret at 1. unfold bind. by rewrite E2.
Qed.

(** ** Several turns of the loop *)

Lemma forward_inputs_app evs1 evs2 :
  forward_inputs (evs1 ++ evs2) = forward_inputs evs1 ++ forward_inputs evs2.
Proof. apply omap_app. Qed.

Lemma sleeps_app evs1 evs2 : sleeps (evs1 ++ evs2) = sleeps evs1 ++ sleeps evs2.
Proof. apply omap_app. Qed.

Lemma forward_inputs_turn_events args y s now target :
  forward_inputs (turn_events args y s now target) = [[y]].
Proof.
  unfold turn_events. rewrite forward_inputs_app.
  destruct (max_tokens_per_sec args); [destruct (Qltb _ _)|]; done.
Qed.

Lemma sleeps_turn_events args y s now target :
  sleeps (turn_events args y s now target)
  = match max_tokens_per_sec args with
    | Some _ => if Qltb now target then [(target - now)%Q] else []
    | None => []
    end.
Proof.
  unfold turn_events. rewrite sleeps_app.
  destruct (max_tokens_per_sec args); [destruct (Qltb _ _)|]; done.
Qed.

Lemma extend_history_Some (h ys : list token) :
  extend_history (Some h) ys = Some (h ++ ys).
Proof.
  revert h. induction ys as [|y ys IH]; intros h; cbn.
  - by rewrite app_nil_r.
  - unfold extend_history in IH. rewrite IH. by rewrite <- app_assoc.
Qed.

Lemma extend_history_cons tokens (y : token) ys :
  extend_history tokens (y :: ys) = Some (default [] tokens ++ y :: ys).
Proof.
  unfold extend_history. cbn [foldl]. fold (extend_history
    (Some (step_history tokens [y])) ys).
  rewrite extend_history_Some. destruct tokens; cbn; [|done].
  by rewrite <- app_assoc.
Qed.

(** What [n] turns of the loop do, from any frame: they always
    succeed, and leave the store, the arguments and the list alone. *)
Lemma turns_ok n : ∀ fr fuel w,
  ∃ items fr' w',
    gen_take' fuel n (GenRunning fr) w = (Ok (items, GenRunning fr'), w')
    ∧ length items = n
    ∧ heap w' = heap w
    ∧ fr_args fr' = fr_args fr ∧ fr_processors fr' = fr_processors fr
    ∧ clock_reads w' = n * turn_clock_reads (fr_args fr) + clock_reads w
    ∧ forward_inputs (trace w')
      = forward_inputs (trace w) ++ ((λ t, [t]) <$> items.*1)
    ∧ head (items ++ [(fr_y fr', fr_logprobs fr')])
      = Some (fr_y fr, fr_logprobs fr)
    ∧ fr_tokens fr'
      = match default [] (heap w !! fr_processors fr) with
        | [] => fr_tokens fr
        | _ :: _ => extend_history (fr_tokens fr) items.*1
        end
    ∧ (max_tokens_per_sec (fr_args fr) = None →
       sleeps (trace w') = sleeps (trace w)
       ∧ fr_last_target_time fr' = fr_last_target_time fr).
Proof.
  induction n as [|n IH]; intros fr fuel w.
  { exists [], fr, w. cbn. rewrite app_nil_r.
    repeat split; try done. by destruct (default [] _). }
  destruct (next_world fr w) as (tok & r' & s & Enext).
  match type of Enext with
  | _ = (Ok (_, _, ?f), ?w0) =>
      set (fr1 := f) in *; set (w1 := w0) in *
  end.
  destruct (IH fr1 fuel w1)
    as (items & fr' & w' & E & Hn & Hh & Ha & Hp & Hc & Hf & Hhd & Ht & Hs).
  exists ((fr_y fr, fr_logprobs fr) :: items), fr', w'.
  split; [by apply (gen_take_running_succ _ _ _ _ _ _ _ _ _ _ _ Enext)|].
  split; [by cbn; rewrite Hn|]. split; [by rewrite Hh|].
  split; [by rewrite Ha|]. split; [by rewrite Hp|].
  split; [rewrite Hc; subst fr1 w1; cbn; lia|].
  split.
  { rewrite Hf. subst w1. cbn [trace].
    rewrite forward_inputs_app, forward_inputs_turn_events.
    by rewrite <- app_assoc. }
  split; [done|]. split.
  { rewrite Ht. subst fr1 w1. cbn [heap fr_processors fr_tokens].
    destruct (default [] (heap w !! fr_processors fr)); [done|].
    by cbn. }
  intros Hnone. destruct Hs as [Hs Htt]; [exact Hnone|].
  rewrite Hs, Htt. subst fr1 w1. cbn [trace fr_last_target_time].
  rewrite sleeps_app, sleeps_turn_events. unfold next_target.
  rewrite Hnone. by rewrite app_nil_r.
Qed.

(** X3. Without a rate limit the loop never sleeps and never looks at
    the clock: [n] turns leave the trace without a new sleep, the count
    of clock readings and the pacing target as they were. *)
Theorem no_rate_no_sleep n fr fuel w :
  max_tokens_per_sec (fr_args fr) = None →
  ∃ items fr' w',
    gen_take' fuel n (GenRunning fr) w = (Ok (items, GenRunning fr'), w')
    ∧ sleeps (trace w') = sleeps (trace w)
    ∧ clock_reads w' = clock_reads w
    ∧ fr_last_target_time fr' = fr_last_target_time fr.
Proof.
  intros Hnone.
  destruct (turns_ok n fr fuel w)
    as (items & fr' & w' & E & _ & _ & _ & _ & Hc & _ & _ & _ & Hs).
  destruct (Hs Hnone) as [Hs1 Hs2].
  exists items, fr', w'. repeat split; try done.
  rewrite Hc. unfold turn_clock_reads. rewrite Hnone. lia.
Qed.

(** X4. With a rate limit [r], a turn of the loop reads the clock once
    and sleeps exactly when that reading is before the new target, the
    old target plus [1 / r], for the time that is missing; at or past
    the target it does not sleep at all. *)
Theorem paced_turn fr w r :
  max_tokens_per_sec (fr_args fr) = Some r →
  let now := clock w (clock_reads w) in
  let target := (fr_last_target_time fr + 1 / pynum_val r)%Q in
  ∃ fr' w',
    generate_step_next' fr w = (Ok (fr_y fr, fr_logprobs fr, fr'), w')
    ∧ clock_reads w' = S (clock_reads w)
    ∧ ((now < target)%Q →
       sleeps (trace w') = sleeps (trace w) ++ [(target - now)%Q])
    ∧ ((target <= now)%Q → sleeps (trace w') = sleeps (trace w)).
Proof.
  intros Hr. cbv zeta.
  destruct (next_world fr w) as (tok & r' & s & ->).
  eexists _, _. split; [done|]. cbn [clock_reads trace].
  unfold turn_clock_reads, next_target. rewrite Hr.
  split; [done|].
  rewrite sleeps_app, sleeps_turn_events, Hr. split.
  - intros Hlt. apply Qltb_lt in Hlt. by rewrite Hlt.
  - intros Hge. apply Qltb_ge in Hge. rewrite Hge. by rewrite app_nil_r.
Qed.

(** X5. The loop runs the model exactly one token ahead of what it has
    handed out: over [n] turns the model is run once on each token
    yielded, in the order yielded, the first token yielded is the one
    the frame held, with the log-probabilities computed with it, and
    the token computed last is still held back. *)
Theorem one_step_lookahead n fr fuel w :
  ∃ items fr' w',
    gen_take' fuel n (GenRunning fr) w = (Ok (items, GenRunning fr'), w')
    ∧ length items = n
    ∧ forward_inputs (trace w')
      = forward_inputs (trace w) ++ ((λ t, [t]) <$> items.*1)
    ∧ head (items ++ [(fr_y fr', fr_logprobs fr')])
      = Some (fr_y fr, fr_logprobs fr).
Proof.
  destruct (turns_ok n fr fuel w)
    as (items & fr' & w' & E & Hn & _ & _ & _ & _ & Hf & Hhd & _).
  by exists items, fr', w'.
Qed.

(** X6. The token history follows the processors: while the processor
    list is not empty every token the loop consumes is appended to the
    history, in order; while it is empty the history is not touched. *)
Theorem history_follows_processors n fr fuel w :
  ∃ items fr' w',
    gen_take top_p_sampling min_p_sampling categorical_sampling
      make_prompt_cache model fuel n (GenRunning fr) w
    = (Ok (items, GenRunning fr'), w')
    ∧ (default [] (heap w !! fr_processors fr) ≠ [] → 0 < n →
       fr_tokens fr' = Some (default [] (fr_tokens fr) ++ items.*1))
    ∧ (default [] (heap w !! fr_processors fr) = [] →
       fr_tokens fr' = fr_tokens fr).
Proof.
  destruct (turns_ok n fr fuel w)
    as (items & fr' & w' & E & Hn & _ & _ & _ & _ & _ & _ & Ht & _).
  exists items, fr', w'. split; [done|]. split.
  - intros Hne Hpos. rewrite Ht.
    destruct (default [] (heap w !! fr_processors fr)); [done|].
    destruct items as [|[y lps] items]; [cbn in Hn; lia|].
    cbn [fmap list_fmap fst]. apply extend_history_cons.
  - intros He. rewrite Ht. by rewrite He.
Qed.

(** ** The prefill loop, chunk by chunk *)

(** X7. With a chunk size [s] of at least one the prefill loop ends.
    It runs the model on consecutive chunks of exactly [s] tokens, each
    followed by one cache evaluation and one clearing of the buffer
    cache, and hands the first step what is left: the chunks and the
    rest make up the prompt, the rest has at most [s] tokens and is
    empty only when the prompt is. *)
Theorem prefill_chunks args fuel : ∀ y cache w,
  (1 <= prefill_step_size args)%Z → length y ≤ fuel →
  ∃ chunks y' cache',
    prefill' args fuel y cache w
    = (Ok (y', cache'), add_trace w (prefill_events chunks))
    ∧ concat chunks ++ y' = y
    ∧ Forall (λ c, Z.of_nat (length c) = prefill_step_size args) chunks
    ∧ (Z.of_nat (length y') <= prefill_step_size args)%Z
    ∧ (y ≠ [] → y' ≠ []).
Proof.
  induction fuel as [|fuel IH]; intros y cache w Hs Hfuel; cbn [prefill];
    destruct (_ <? _)%Z eqn:Elt;
    try (apply Z.ltb_ge in Elt; exists [], y, cache;
         unfold ret, add_trace, prefill_events; cbn; rewrite app_nil_r;
         by destruct w).
  - apply Z.ltb_lt in Elt. lia.
  - apply Z.ltb_lt in Elt.
    set (s := prefill_step_size args) in *.
    assert (py_slice_to s y = take (Z.to_nat s) y) as ->.
    { unfold py_slice_to, py_bound.
      destruct (s <? 0)%Z eqn:E; [apply Z.ltb_lt in E; lia|].
      f_equal. lia. }
    assert (py_slice_from s y = drop (Z.to_nat s) y) as ->.
    { unfold py_slice_from, py_bound.
      destruct (s <? 0)%Z eqn:E; [apply Z.ltb_lt in E; lia|].
      f_equal. lia. }
    set (chunk := take (Z.to_nat s) y). set (rest := drop (Z.to_nat s) y).
    assert (length chunk = Z.to_nat s) as Hchunk.
    { subst chunk. rewrite length_take. lia. }
    assert (length rest < length y ∧ rest ≠ []) as [Hlt Hne].
    { subst rest. split; [rewrite length_drop; lia|].
      intros E. apply (f_equal length) in E.
      rewrite length_drop in E. cbn in E. lia. }
    destruct (IH rest (forward model chunk cache).2
                (add_trace w [EvForward chunk; EvEvalCache; EvClearCache]))
      as (chunks & y' & cache' & E & Hcat & Hall & Hlen & Hy');
      [done|lia|].
    exists (chunk :: chunks), y', cache'. split.
    { unfold bind, emit. cbn. rewrite <- !app_assoc. cbn [app].
      unfold add_trace in E. cbn in E. rewrite E.
      unfold add_trace, prefill_events. cbn. by rewrite <- !app_assoc. }
    split.
    { cbn. rewrite <- app_assoc, Hcat. apply take_drop. }
    split; [constructor; [lia|done]|]. split; [done|]. auto.
Qed.

(** ** A caller's empty list *)

(** X8. A caller's list that is empty is left alone: [generate_step]
    works on a new list, at a location the store did not hold, and the
    stages it builds go there; the caller's list is still empty
    afterwards. *)
Theorem empty_caller_list_untouched args fuel w l :
  logits_processor args = Some l → heap w !! l = Some [] →
  penalty_rejected args = false → rate_rejected args = false →
  let w' := (generate_step_start' args fuel w).2 in
  let session := session_list args w in
  heap w' !! l = Some []
  ∧ heap w !! session = None
  ∧ heap w' !! session = Some (internal_processors args).
Proof.
  intros Hl Hempty Hp Hr. cbv zeta.
  rewrite (start_heap top_p_sampling min_p_sampling categorical_sampling
             make_prompt_cache model) by done.
  unfold session_list, caller_processors. rewrite Hl, Hempty. cbn.
  assert (heap w !! fresh (dom (heap w)) = None) as Hfresh.
  { apply not_elem_of_dom. apply is_fresh. }
  split; [|split; [done|by rewrite lookup_insert_eq]].
  rewrite lookup_insert_ne; [done|].
  intros E. rewrite E in Hfresh. congruence.
Qed.

(** ** The streaming wrapper at its bounds *)

Section MoreStreamFacts.
Context {D : Type} (tokenizer : Tokenizer D) (fuel : nat).

Local Abbreviation stream_loop' :=
  (stream_loop top_p_sampling min_p_sampling categorical_sampling
     make_prompt_cache model tokenizer fuel).
Local Abbreviation stream_generate' :=
  (stream_generate top_p_sampling min_p_sampling categorical_sampling
     make_prompt_cache model tokenizer fuel).
Local Abbreviation eos := (eos_token_id tokenizer).

Lemma gen_take_length fuel0 (n : nat) : ∀ g w items g' w',
  gen_take' fuel0 n g w = (Ok (items, g'), w') → length items = n.
Proof.
  induction n as [|n IH]; intros g w items g' w' Etake.
  { cbn in Etake. unfold ret in Etake. by injection Etake as <- <- <-. }
  apply (gen_take_succ_inv top_p_sampling min_p_sampling categorical_sampling
           make_prompt_cache model) in Etake
    as (tok & lps & g1 & w1 & rest & Enext & Erest & ->).
  cbn. f_equal. by eapply IH.
Qed.

Lemma stream_loop_no_eos (n : nat) : ∀ g d w items g' w',
  gen_take' fuel n g w = (Ok (items, g'), w') → eos ∉ items.*1 →
  stream_loop' n g d w
  = (Ok ((feed_tokens tokenizer items.*1 d).1,
         (feed_tokens tokenizer items.*1 d).2, g'), w').
Proof.
  induction n as [|n IH]; intros g d w items g' w' Etake Hno.
  { cbn in Etake. unfold ret in Etake. by injection Etake as <- <- <-. }
  apply (gen_take_succ_inv top_p_sampling min_p_sampling categorical_sampling
           make_prompt_cache model) in Etake
    as (tok & lps & g1 & w1 & rest & Enext & Erest & ->).
  cbn [fmap list_fmap fst] in Hno.
  apply not_elem_of_cons in Hno as [Hne Hno].
  cbn [stream_loop feed_tokens fmap list_fmap fst].
  unfold bind at 1. rewrite Enext.
  assert ((tok =? eos) = false) as -> by (apply Nat.eqb_neq; congruence).
  destruct (last_segment tokenizer (add_token tokenizer tok d))
    as [segment d1].
  unfold bind at 1. rewrite (IH g1 d1 w1 rest g' w' Erest Hno).
  unfold ret. by destruct (feed_tokens tokenizer rest.*1 d1).
Qed.

(** X9. When none of the first [max_tokens] tokens generated is the
    end-of-sequence token, [stream_generate] takes exactly [max_tokens]
    items from the generator and does with its detokenizer what
    [stream_run] does on all their tokens: it resets it, adds each
    token in order and yields the segment the detokenizer shows after
    it, finalizes it and yields its last segment, and leaves the
    detokenizer in the state of that run.  So all the tokens are
    handed over, one segment is yielded for each and one more after
    the one finalization. *)
Theorem stream_stops_at_max_tokens
    prompt_text (max_tokens : Z) rate kwargs (d : D) w items g' w' :
  gen_take' fuel (Z.to_nat max_tokens)
    (call_generate_step kwargs (encode tokenizer prompt_text) rate) w
  = (Ok (items, g'), w') →
  eos ∉ items.*1 →
  ∃ evs d',
    stream_generate' prompt_text max_tokens rate kwargs d w
    = (Ok (evs, d', g'), w')
    ∧ (evs, d') = stream_run tokenizer items.*1 d
    ∧ added_tokens evs = items.*1
    ∧ length (yielded_segments evs) = S (Z.to_nat max_tokens)
    ∧ finalize_count evs = 1.
Proof.
  intros Etake Hno. unfold stream_generate, stream_run. unfold bind at 1.
  rewrite (stream_loop_no_eos (Z.to_nat max_tokens) _
             (reset tokenizer d) w items g' w' Etake Hno).
  pose proof (gen_take_length _ _ _ _ _ _ _ Etake) as Hlen.
  destruct (feed_tokens_events tokenizer items.*1 (reset tokenizer d))
    as (Hadd & Hy & Hf).
  destruct (feed_tokens tokenizer items.*1 (reset tokenizer d))
    as [body d1].
  cbn [fst snd] in *. unfold bind.
  destruct (last_segment tokenizer (finalize tokenizer d1)) as [segment d2].
  unfold ret. eexists _, _. split; [done|]. split; [done|].
  destruct (stream_events_wrap body segment) as (-> & -> & ->).
  by rewrite Hadd, Hy, Hf, length_fmap, Hlen.
Qed.

(** X10. With [max_tokens] zero or negative [stream_generate] never
    starts the generator: whatever the other arguments are, also ones
    [generate_step] would reject, it yields the one segment of the
    reset and finalized detokenizer and leaves the world as it was. *)
Theorem stream_generate_no_tokens
    prompt_text (max_tokens : Z) rate kwargs (d : D) w :
  (max_tokens <= 0)%Z →
  let final := last_segment tokenizer (finalize tokenizer (reset tokenizer d)) in
  stream_generate' prompt_text max_tokens rate kwargs d w
  = (Ok ([SeReset; SeFinalize; SeYield final.1], final.2,
         call_generate_step kwargs (encode tokenizer prompt_text) rate), w).
Proof.
  intros Hle. cbv zeta. unfold stream_generate.
  replace (Z.to_nat max_tokens) with 0 by lia.
  cbn [stream_loop]. unfold bind, ret.
  by destruct (last_segment _ _).
Qed.

End MoreStreamFacts.

End MoreEngineFacts.

(** * Pacing and output *)

Section SimulationFacts.
Context {F : Type} {backend : MxBackend F} {Rng KV : Type}.
Variable top_p_sampling : list F → Q → Q → Rng → token * Rng.
Variable min_p_sampling : list F → Q → Z → Q → Rng → token * Rng.
Variable categorical_sampling : list F → Q → Rng → token * Rng.
Variable make_prompt_cache : option Z → list KV.
Variable model : Model (F := F) (KV := KV).

Local Abbreviation sample' :=
  (sample top_p_sampling min_p_sampling categorical_sampling).
Local Abbreviation _step' :=
  (_step top_p_sampling min_p_sampling categorical_sampling model).
Local Abbreviation prefill' := (prefill (Rng := Rng) model).
Local Abbreviation first_token' :=
  (first_token top_p_sampling min_p_sampling categorical_sampling
     make_prompt_cache model).
Local Abbreviation generate_step_start' :=
  (generate_step_start top_p_sampling min_p_sampling categorical_sampling
     make_prompt_cache model).
Local Abbreviation generate_step_next' :=
  (generate_step_next top_p_sampling min_p_sampling categorical_sampling
     model).
Local Abbreviation gen_next' :=
  (gen_next top_p_sampling min_p_sampling categorical_sampling
     make_prompt_cache model).
Local Abbreviation gen_take' :=
  (gen_take top_p_sampling min_p_sampling categorical_sampling
     make_prompt_cache model).
Local Abbreviation sim' := (sim (F := F) (Rng := Rng)).

Implicit Types (args : gen_args (KV := KV)) (w : world (F := F) (Rng := Rng)).

Lemma sim_ret {A B} (R : A → B → Prop) a b : R a b → sim' R (ret a) (ret b).
Proof. by intros HR w1 w2 Hw. Qed.

Lemma sim_raise {A B} (R : A → B → Prop) e :
  sim' R (raise (A := A) e) (raise (A := B) e).
Proof. by intros w1 w2 Hw. Qed.

Lemma sim_diverge {A B} (R : A → B → Prop) :
  sim' R (diverge (A := A)) (diverge (A := B)).
Proof. by intros w1 w2 Hw. Qed.

Lemma sim_emit (R : unit → unit → Prop) e1 e2 :
  R tt tt → sim' R (emit e1) (emit e2).
Proof. by intros HR w1 w2 Hw. Qed.

Lemma sim_emit_skip (R : unit → unit → Prop) e :
  R tt tt → sim' R (emit e) (ret tt).
Proof. by intros HR w1 w2 Hw. Qed.

Lemma sim_perf_counter (R : Q → Q → Prop) :
  (∀ a b, R a b) → sim' R perf_counter perf_counter.
Proof. intros HR w1 w2 Hw. split; [apply HR|exact Hw]. Qed.

Lemma sim_read_list l : sim' eq (read_list l) (read_list l).
Proof. intros w1 w2 [Hh Hr]. cbn. by rewrite Hh. Qed.

Lemma sim_draw {A} (f : Rng → A * Rng) : sim' eq (draw f) (draw f).
Proof.
  intros w1 w2 [Hh Hr]. unfold draw. rewrite Hr.
  by destruct (f (rng w2)).
Qed.

Lemma sim_bind {A1 A2 B1 B2} (R : A1 → A2 → Prop) (S : B1 → B2 → Prop)
    (c1 : M A1) (c2 : M A2) (k1 : A1 → M B1) (k2 : A2 → M B2) :
  sim' R c1 c2 → (∀ a1 a2, R a1 a2 → sim' S (k1 a1) (k2 a2)) →
  sim' S (bind c1 k1) (bind c2 k2).
Proof.
  intros Hc Hk w1 w2 Hw. unfold bind. specialize (Hc w1 w2 Hw).
  destruct (c1 w1) as [[a1| |] w1'], (c2 w2) as [[a2| |] w2'];
    cbn in Hc; destruct Hc as [Ho Hw']; try done.
  by apply Hk.
Qed.

Lemma sim_sample args1 args2 (logits : list F) :
  args_sim args1 args2 →
  sim' eq (sample' args1 logits) (sample' args2 logits).
Proof.
  intros Ha. injection Ha as _ Ht _ _ Hp Hm Hk _ _ _ _ _.
  unfold sample. rewrite Ht, Hp, Hm, Hk.
  eapply sim_bind; [|intros ? ? ->; by apply sim_ret].
  repeat match goal with
         | |- sim' _ (if ?b then _ else _) _ => destruct b
         end;
    (eapply sim_bind; [by apply (sim_emit eq)|intros _ _ _]);
    first [by apply sim_ret | apply sim_draw].
Qed.

Lemma sim_new_list : sim' eq new_list new_list.
Proof.
  intros w1 w2 [Hh Hr]. unfold new_list, wsim. cbn. by rewrite Hh, Hr.
Qed.

Lemma sim_list_append l p (R : unit → unit → Prop) :
  R tt tt → sim' R (list_append l p) (list_append l p).
Proof.
  intros HR w1 w2 [Hh Hr]. unfold list_append, wsim. cbn.
  by rewrite Hh, Hr.
Qed.

Lemma sim_step args1 args2 lp cache tokens y :
  args_sim args1 args2 →
  sim' eq (_step' args1 lp cache tokens y) (_step' args2 lp cache tokens y).
Proof.
  intros Ha. unfold _step.
  eapply sim_bind; [by apply (sim_emit eq)|intros _ _ _].
  destruct (forward model y cache) as [out cache'].
  eapply sim_bind with (R := eq).
  { destruct y; [apply sim_raise|by apply sim_ret]. }
  intros raw ? <-.
  eapply sim_bind; [apply sim_read_list|intros ps ? <-].
  eapply sim_bind with (R := eq).
  { destruct ps; by apply sim_ret. }
  intros [logits tokens'] ? <-.
  eapply sim_bind; [by apply sim_sample|intros [tok lps] ? <-].
  by apply sim_ret.
Qed.

Lemma sim_prefill args1 args2 fuel y cache :
  args_sim args1 args2 →
  sim' eq (prefill' args1 fuel y cache) (prefill' args2 fuel y cache).
Proof.
  intros Ha. injection Ha as _ _ _ _ _ _ _ Hp _ _ _ _.
  revert y cache. induction fuel as [|fuel IH]; intros y cache; cbn [prefill];
    rewrite Hp; destruct (_ <? _)%Z; try by apply sim_ret.
  - apply sim_diverge.
  - eapply sim_bind; [by apply (sim_emit eq)|intros _ _ _].
    eapply sim_bind; [by apply (sim_emit eq)|intros _ _ _].
    eapply sim_bind; [by apply (sim_emit eq)|intros _ _ _].
    apply IH.
Qed.

Lemma sim_first_token args1 args2 lp fuel :
  args_sim args1 args2 →
  sim' frame_sim (first_token' args1 lp fuel) (first_token' args2 lp fuel).
Proof.
  intros Ha. unfold first_token.
  eapply sim_bind with (R := eq).
  { injection Ha as _ _ _ _ _ _ _ _ Hk Hc _ _.
    unfold resolve_cache. rewrite Hk, Hc.
    destruct (prompt_cache args2); [|by apply sim_ret].
    eapply sim_bind; [by apply (sim_emit eq)|intros _ _ _].
    destruct (negb _); [apply sim_raise|by apply sim_ret]. }
  intros cache ? <-.
  eapply sim_bind with (R := eq).
  { pose proof Ha as Ha'. injection Ha' as Hpr _ _ _ _ _ _ _ _ _ _ _.
    rewrite Hpr. by apply sim_prefill. }
  intros [y cache'] ? <-.
  eapply sim_bind; [by apply sim_step|intros [[[tok lps] c] ts] ? <-].
  eapply sim_bind; [by apply (sim_emit eq)|intros _ _ _].
  eapply sim_bind; [by apply (sim_perf_counter (λ _ _, True))|intros t1 t2 _].
  by apply sim_ret.
Qed.

Lemma sim_start args1 args2 fuel :
  args_sim args1 args2 → rate_sim args1 args2 →
  sim' frame_sim (generate_step_start' args1 fuel)
    (generate_step_start' args2 fuel).
Proof.
  intros Ha Hr. unfold generate_step_start.
  eapply sim_bind with (R := eq).
  { unfold check_args.
    injection Ha as _ _ Hp _ _ _ _ _ _ _ _ _.
    assert (Hpr : penalty_rejected args1 = penalty_rejected args2)
      by (unfold penalty_rejected; by rewrite Hp).
    rewrite Hpr, Hp.
    eapply sim_bind with (R := eq).
    { destruct (penalty_rejected args2); [apply sim_raise|by apply sim_ret]. }
    intros _ _ _. destruct Hr as [Hr|[Hr1 Hr2]].
    - unfold rate_rejected. rewrite Hr.
      destruct (match max_tokens_per_sec args2 with
                | Some r => Qle_bool (pynum_val r) 0
                | None => false
                end); [apply sim_raise|by apply sim_ret].
    - rewrite Hr1, Hr2. by apply sim_ret. }
  intros _ _ _.
  eapply sim_bind with (R := eq).
  { pose proof Ha as Ha'. injection Ha' as _ _ _ _ _ _ _ _ _ _ _ Hl.
    unfold processors_or_new. rewrite Hl.
    destruct (logits_processor args2); [|apply sim_new_list].
    eapply sim_bind; [apply sim_read_list|intros ps ? <-].
    destruct ps; [apply sim_new_list|by apply sim_ret]. }
  intros lp ? <-.
  eapply sim_bind; [by apply (sim_perf_counter (λ _ _, True))|intros t1 t2 _].
  eapply sim_bind with (R := eq); [|intros _ _ _; by apply sim_first_token].
  pose proof Ha as Ha'. injection Ha' as _ _ Hp Hc _ _ _ _ _ _ Hb _.
  unfold install_processors. rewrite Hp, Hc, Hb.
  eapply sim_bind with (R := eq).
  { destruct (repetition_penalty args2); [|by apply sim_ret].
    destruct (truthy _); [by apply sim_list_append|by apply sim_ret]. }
  intros _ _ _.
  destruct (logit_bias args2) as [[|]|];
    first [by apply sim_ret | by apply sim_list_append].
Qed.

Lemma sim_next fr1 fr2 :
  frame_sim fr1 fr2 →
  sim' (λ a b, a.1 = b.1 ∧ frame_sim a.2 b.2)
    (generate_step_next' fr1) (generate_step_next' fr2).
Proof.
  intros (Ha & Hp & Hc & Ht & Hy & Hl). unfold generate_step_next.
  rewrite Hp, Hc, Ht, Hy, Hl.
  eapply sim_bind;
    [by apply sim_step|intros [[[tok lps] c] ts] ? <-].
  eapply sim_bind; [by apply (sim_emit eq)|intros _ _ _].
  eapply sim_bind with (R := λ _ _, True); [|intros t1 t2 _; by apply sim_ret].
  destruct (max_tokens_per_sec (fr_args fr1)),
    (max_tokens_per_sec (fr_args fr2)).
  - eapply sim_bind;
      [by apply (sim_perf_counter (λ _ _, True))|intros t1 t2 _].
    eapply sim_bind with (R := λ _ _, True);
      [|intros _ _ _; by apply sim_ret].
    repeat match goal with
           | |- sim' _ (if ?b then _ else _) _ => destruct b
           | |- sim' _ _ (if ?b then _ else _) => destruct b
           end; intros w1 w2 Hw; done.
  - intros w1 w2 Hw. unfold bind, perf_counter. cbn.
    destruct (Qltb _ _); done.
  - intros w1 w2 Hw. unfold bind, perf_counter. cbn.
    destruct (Qltb _ _); done.
  - by apply sim_ret.
Qed.

Lemma sim_gen_next fuel g1 g2 :
  gen_sim g1 g2 →
  sim' (λ a b, a.1 = b.1 ∧ gen_sim a.2 b.2)
    (gen_next' fuel g1) (gen_next' fuel g2).
Proof.
  intros Hg. unfold gen_next.
  eapply sim_bind with (R := frame_sim).
  { destruct g1 as [a1|f1], g2 as [a2|f2]; try done.
    destruct Hg as (? & ?). by apply sim_start. }
  intros fr1 fr2 Hfr.
  eapply sim_bind; [by apply sim_next|].
  intros [[tok1 lps1] f1] [[tok2 lps2] f2] [E Hf]. cbn in E, Hf.
  injection E as -> ->. by apply sim_ret.
Qed.

Lemma sim_gen_take fuel n g1 g2 :
  gen_sim g1 g2 →
  sim' (λ a b, a.1 = b.1 ∧ gen_sim a.2 b.2)
    (gen_take' fuel n g1) (gen_take' fuel n g2).
Proof.
  revert g1 g2. induction n as [|n IH]; intros g1 g2 Hg; cbn [gen_take].
  { by apply sim_ret. }
  eapply sim_bind; [by apply sim_gen_next|].
  intros [[tok1 lps1] g1'] [[tok2 lps2] g2'] [E Hg']. cbn in E, Hg'.
  injection E as -> ->.
  eapply sim_bind; [by apply IH|].
  intros [items1 g1''] [items2 g2''] [E Hg'']. cbn in E, Hg''. subst.
  by apply sim_ret.
Qed.

(** X12. The rate changes nothing but the pace.  Two sessions started
    from the same arguments except for [max_tokens_per_sec] (each
    [None] or positive), in worlds with the same lists and the same
    random state but any clocks, end their first [n] turns the same
    way: the same tokens and log-probabilities, the same exception,
    or a prefill that does not end in either; and they leave the same
    lists and the same random state. *)
Theorem rate_only_paces (kwargs : gen_args (KV := KV)) prompt_tokens
    rate1 rate2 fuel n w1 w2 :
  rate_acceptable rate1 → rate_acceptable rate2 →
  heap w1 = heap w2 → rng w1 = rng w2 →
  let r1 := gen_take' fuel n
              (GenFresh (stream_args kwargs prompt_tokens rate1)) w1 in
  let r2 := gen_take' fuel n
              (GenFresh (stream_args kwargs prompt_tokens rate2)) w2 in
  same_outcome (λ a b, a.1 = b.1) r1.1 r2.1
  ∧ heap r1.2 = heap r2.2 ∧ rng r1.2 = rng r2.2.
Proof.
  intros H1 H2 Hh Hr r1 r2.
  assert (Hg : gen_sim (F := F)
                 (GenFresh (stream_args kwargs prompt_tokens rate1))
                 (GenFresh (stream_args kwargs prompt_tokens rate2))).
  { split; [done|]. right. split.
    - apply (rate_rejected_false_iff (stream_args kwargs prompt_tokens rate1)).
      exact H1.
    - apply (rate_rejected_false_iff (stream_args kwargs prompt_tokens rate2)).
      exact H2. }
  destruct (sim_gen_take fuel n _ _ Hg w1 w2 (conj Hh Hr)) as [Ho Hw].
  split; [|exact Hw].
  subst r1 r2.
  destruct (gen_take' fuel n _ w1).1 as [a| |],
    (gen_take' fuel n _ w2).1 as [b| |]; cbn in Ho |- *; try done.
  by destruct Ho.
Qed.

End SimulationFacts.

(** * Shards, weights and configurations *)

Section DictFacts.
Context {V : Type}.
Implicit Types (d : dict V) (k : string) (v : V).

Lemma dict_set_fresh k v d : k ∉ d.*1 → dict_set k v d = d ++ [(k, v)].
Proof.
  induction d as [|[k' v'] d IH]; cbn; [done|].
  intros Hk. apply not_elem_of_cons in Hk as [Hne Hk].
  destruct (decide (k = k')); [done|]. by rewrite IH.
Qed.

Lemma dict_get_set k k' v d :
  dict_get k (dict_set k' v d)
  = if decide (k = k') then Some v else dict_get k d.
Proof.
  induction d as [|[k'' v''] d IH]; cbn.
  { by destruct (decide (k = k')). }
  destruct (decide (k' = k'')) as [->|Hne]; cbn.
  - by destruct (decide (k = k'')).
  - destruct (decide (k = k'')) as [->|]; [|done].
    by destruct (decide (k'' = k')).
Qed.

Lemma dict_set_keys_fresh k v d : k ∉ d.*1 → (dict_set k v d).*1 = d.*1 ++ [k].
Proof. intros Hk. by rewrite dict_set_fresh, fmap_app. Qed.

Lemma dict_set_keys_old k v d : k ∈ d.*1 → (dict_set k v d).*1 = d.*1.
Proof.
  induction d as [|[k' v'] d IH]; cbn.
  { intros H. by apply elem_of_nil in H. }
  intros H. destruct (decide (k = k')) as [->|Hne]; cbn; [done|].
  apply elem_of_cons in H as [?|H]; [done|]. by rewrite IH.
Qed.

Lemma dict_set_NoDup k v d : NoDup d.*1 → NoDup (dict_set k v d).*1.
Proof.
  intros Hd. destruct (decide (k ∈ d.*1)).
  - by rewrite dict_set_keys_old.
  - rewrite dict_set_keys_fresh by done.
    apply NoDup_app. split; [done|]. split; [|apply NoDup_singleton].
    intros x Hx Hx'. apply list_elem_of_singleton in Hx'. by subst.
Qed.

Lemma dict_get_Some k v d : NoDup d.*1 → dict_get k d = Some v ↔ (k, v) ∈ d.
Proof.
  induction d as [|[k' v'] d IH]; cbn; intros Hd.
  { split; [done|]. intros H. by apply elem_of_nil in H. }
  apply NoDup_cons in Hd as [Hk' Hd].
  destruct (decide (k = k')) as [->|Hne].
  - split.
    + intros [= ->]. apply elem_of_cons; by left.
    + intros H. apply elem_of_cons in H as [[= ->]|H]; [done|].
      destruct Hk'. apply list_elem_of_fmap. by exists (k', v).
  - rewrite IH by done. split.
    + intros H. apply elem_of_cons; by right.
    + intros H. apply elem_of_cons in H as [[= ? ?]|H]; done.
Qed.

Lemma dict_get_None k d : dict_get k d = None ↔ k ∉ d.*1.
Proof.
  induction d as [|[k' v'] d IH]; cbn.
  { split; [intros _; apply not_elem_of_nil|done]. }
  destruct (decide (k = k')) as [->|Hne].
  - split; [done|]. intros H. destruct H. apply elem_of_cons; by left.
  - rewrite IH, not_elem_of_cons. split; [by split|by intros [_ ?]].
Qed.

Lemma dict_get_pop k k' d :
  NoDup d.*1 →
  dict_get k (dict_pop k' d) = if decide (k = k') then None else dict_get k d.
Proof.
  induction d as [|[k'' v''] d IH]; cbn; intros Hd.
  { by destruct (decide (k = k')). }
  apply NoDup_cons in Hd as [Hk'' Hd].
  destruct (decide (k' = k'')) as [->|Hne]; cbn.
  - destruct (decide (k = k'')) as [->|]; [|done].
    by apply dict_get_None.
  - rewrite IH by done.
    destruct (decide (k = k'')) as [->|]; [|done].
    by destruct (decide (k'' = k')).
Qed.

Lemma dict_pop_sublist k d : dict_pop k d `sublist_of` d.
Proof.
  induction d as [|[k' v'] d IH]; cbn; [done|].
  destruct (decide (k = k')).
  - by apply sublist_cons.
  - by apply sublist_skip.
Qed.

Lemma dict_pop_NoDup k d : NoDup d.*1 → NoDup (dict_pop k d).*1.
Proof.
  intros Hd. eapply sublist_NoDup; [exact Hd|].
  apply fmap_sublist, dict_pop_sublist.
Qed.

Lemma dict_pop_absent k d : k ∉ d.*1 → dict_pop k d = d.
Proof.
  induction d as [|[k' v'] d IH]; cbn; [done|].
  intros Hk. apply not_elem_of_cons in Hk as [Hne Hk].
  destruct (decide (k = k')); [done|]. by rewrite IH.
Qed.

Lemma dict_get_Permutation k d d' :
  NoDup d.*1 → d ≡ₚ d' → dict_get k d' = dict_get k d.
Proof.
  intros Hd Hp.
  assert (Hd' : NoDup d'.*1) by (by rewrite <- Hp).
  destruct (dict_get k d) as [v|] eqn:E.
  - apply dict_get_Some; [done|]. rewrite <- Hp. by apply dict_get_Some.
  - apply dict_get_None. rewrite <- Hp. by apply dict_get_None.
Qed.

(** X13. [save_config] writes the configuration sorted by key and
    without [_name_or_path]; every other key is written with the value
    it has.  The caller's dict loses [_name_or_path] and nothing
    else, and is not reordered. *)
Theorem save_config_sorted_without_name (config : dict V) :
  NoDup config.*1 →
  let '(config_left, written) := save_config config in
  StronglySorted String.le written.*1
  ∧ ("_name_or_path" ∉ written.*1)
  ∧ (∀ k, k ≠ "_name_or_path" → dict_get k written = dict_get k config)
  ∧ config_left `sublist_of` config
  ∧ (∀ k, dict_get k config_left
          = if decide (k = "_name_or_path") then None else dict_get k config).
Proof.
  intros Hd. unfold save_config.
  set (popped := dict_pop "_name_or_path" config).
  assert (Hp : NoDup popped.*1) by (by apply dict_pop_NoDup).
  assert (Hperm : popped ≡ₚ merge_sort item_le popped)
    by (symmetry; apply merge_sort_Permutation).
  assert (Hget : ∀ k, dict_get k popped
            = if decide (k = "_name_or_path") then None else dict_get k config)
    by (intros k; by apply dict_get_pop).
  split; [|split; [|split; [|split]]].
  - apply (StronglySorted_fmap fst item_le); [by intros a b|].
    apply StronglySorted_merge_sort; [|apply _].
    intros a b c. unfold item_le. apply transitivity.
  - apply dict_get_None. rewrite (dict_get_Permutation _ popped) by done.
    rewrite Hget. by destruct (decide _).
  - intros k Hk. rewrite (dict_get_Permutation _ popped) by done.
    rewrite Hget. by destruct (decide _).
  - apply dict_pop_sublist.
  - exact Hget.
Qed.

End DictFacts.

Section ShardFacts.
Context {W : Type} (nbytes : W → N).
Implicit Types (weights shard : dict W) (shards : list (dict W)).

Local Abbreviation size := (total_nbytes nbytes).

Lemma total_nbytes_app d1 d2 : size (d1 ++ d2) = (size d1 + size d2)%Z.
Proof.
  induction d1 as [|kv d1 IH]; cbn; [done|].
  fold (size (d1 ++ d2)). fold (size d1). lia.
Qed.

Lemma total_nbytes_nonneg d : (0 ≤ size d)%Z.
Proof.
  induction d as [|kv d IH]; cbn; [done|]. fold (size d). lia.
Qed.

Lemma shard_loop_acc max items shards shard sz :
  shard_loop nbytes max items shards shard sz
  = shards ++ shard_loop nbytes max items [] shard sz.
Proof.
  revert shards shard sz.
  induction items as [|[k v] items IH]; intros shards shard sz;
    cbn [shard_loop]; [done|].
  destruct (max <? sz + Z.of_N (nbytes v))%Z.
  - rewrite IH, (IH ([] ++ [shard])). by rewrite <- app_assoc.
  - apply IH.
Qed.

(** What the loop returns from a shard under construction: that shard
    grown by [more], then the [rest]. *)
Lemma shard_loop_spec max items shard :
  NoDup (shard ++ items).*1 →
  ∃ more rest,
    shard_loop nbytes max items [] shard (size shard) = (shard ++ more) :: rest
    ∧ more ++ concat rest = items
    ∧ Forall (λ s, s ≠ []) rest
    ∧ (more = [] ∨ (size (shard ++ more) ≤ max)%Z)
    ∧ Forall (λ s, length s ≤ 1 ∨ (size s ≤ max)%Z) rest
    ∧ (∀ i s1 s2 k v tl,
         ((shard ++ more) :: rest) !! i = Some s1 →
         rest !! i = Some s2 → s2 = (k, v) :: tl →
         (max < size s1 + Z.of_N (nbytes v))%Z)
    ∧ (more = [] ↔
       items = []
       ∨ ∃ k v tl, items = (k, v) :: tl
                   ∧ (max < size shard + Z.of_N (nbytes v))%Z).
Proof.
  revert shard. induction items as [|[k v] items IH]; intros shard Hnd.
  { exists [], []. cbn. rewrite app_nil_r.
    repeat split; auto.
    intros i s1 s2 k v tl _ H. by rewrite lookup_nil in H. }
  cbn [shard_loop].
  destruct (max <? size shard + Z.of_N (nbytes v))%Z eqn:E.
  - apply Z.ltb_lt in E.
    rewrite shard_loop_acc. cbn [dict_set app].
    replace (0 + Z.of_N (nbytes v))%Z with (size [(k, v)])
      by (cbn; lia).
    destruct (IH [(k, v)]) as (more & rest & Hloop & Hcat & Hne & Hfit & Hall
                               & Hgreedy & Hmore).
    { rewrite fmap_app in Hnd. apply NoDup_app in Hnd as (_ & _ & Hnd).
      exact Hnd. }
    rewrite Hloop.
    exists [], (([(k, v)] ++ more) :: rest). rewrite app_nil_r.
    split; [done|]. split; [by cbn; rewrite <- Hcat|].
    split; [by constructor|]. split; [by left|].
    split.
    { constructor; [|done].
      destruct Hfit as [->|Hfit]; [left; cbn; lia|by right]. }
    split.
    { intros [|i] s1 s2 k' v' tl H1 H2 ->; cbn in H1, H2.
      - injection H1 as <-. injection H2 as <- <- _. exact E.
      - by eapply Hgreedy. }
    split; [intros _; right; by exists k, v, items|done].
  - apply Z.ltb_ge in E.
    assert (Hk : k ∉ shard.*1).
    { rewrite fmap_app in Hnd. apply NoDup_app in Hnd as (_ & Hnd & _).
      intros Hk. apply (Hnd k Hk). cbn. apply elem_of_cons; by left. }
    rewrite dict_set_fresh by done.
    replace (size shard + Z.of_N (nbytes v))%Z with (size (shard ++ [(k, v)]))
      by (rewrite total_nbytes_app; cbn; lia).
    destruct (IH (shard ++ [(k, v)])) as (more & rest & Hloop & Hcat & Hne
                                          & Hfit & Hall & Hgreedy & Hmore).
    { by rewrite <- app_assoc. }
    rewrite Hloop.
    exists ((k, v) :: more), rest.
    rewrite <- !app_assoc in *. cbn [app] in *.
    split; [done|]. split; [by cbn; rewrite Hcat|]. split; [done|].
    split.
    { right. destruct Hfit as [->|Hfit]; [|done].
      rewrite total_nbytes_app. cbn. lia. }
    split; [done|]. split; [done|].
    split; [done|].
    intros [[=]|(k' & v' & tl & [= <- <- <-] & Hlt)]. lia.
Qed.

(** The shards of [make_shards], read off [shard_loop_spec]. *)
Lemma make_shards_spec weights gb :
  NoDup weights.*1 →
  let max := Z.shiftl gb 30 in
  ∃ first rest,
    make_shards nbytes weights gb = first :: rest
    ∧ first ++ concat rest = weights
    ∧ Forall (λ s, s ≠ []) rest
    ∧ (first = [] ∨ (size first ≤ max)%Z)
    ∧ Forall (λ s, length s ≤ 1 ∨ (size s ≤ max)%Z) rest
    ∧ (∀ i s1 s2 k v tl,
         (first :: rest) !! i = Some s1 → rest !! i = Some s2 →
         s2 = (k, v) :: tl → (max < size s1 + Z.of_N (nbytes v))%Z)
    ∧ (first = [] ↔
       weights = []
       ∨ ∃ k v tl, weights = (k, v) :: tl ∧ (max < Z.of_N (nbytes v))%Z).
Proof.
  intros Hnd max. unfold make_shards.
  destruct (shard_loop_spec max weights [] Hnd) as (more & rest & H).
  exists more, rest. exact H.
Qed.

End ShardFacts.

Section NameFacts.

Lemma leading_number_zeros n s :
  leading_number (zeros n +:+ s) 0 = leading_number s 0.
Proof. induction n as [|n IH]; cbn; [done|exact IH]. Qed.

Lemma string_app_cons a s t : String a s +:+ t = String a (s +:+ t).
Proof. reflexivity. Qed.

Lemma string_app_nil_l t : "" +:+ t = t.
Proof. reflexivity. Qed.

Lemma string_app_assoc s t u : (s +:+ t) +:+ u = s +:+ (t +:+ u).
Proof.
  induction s as [|a s IH]; [done|]. rewrite !string_app_cons. by f_equal.
Qed.

Lemma leading_number_decimal d acc c s :
  digit_val c = None →
  leading_number (DecimalString.NilEmpty.string_of_uint d +:+ String c s) acc
  = Nat.of_uint_acc d acc.
Proof.
  intros Hc. revert acc.
  induction d as [|d IH|d IH|d IH|d IH|d IH|d IH|d IH|d IH|d IH|d IH];
    intros acc; cbn [DecimalString.NilEmpty.string_of_uint Nat.of_uint_acc];
    rewrite ?string_app_cons, ?string_app_nil_l; cbn [leading_number];
    [by rewrite Hc|..];
    (change (digit_val _) with (Some 0) || change (digit_val _) with (Some 1)
     || change (digit_val _) with (Some 2) || change (digit_val _) with (Some 3)
     || change (digit_val _) with (Some 4) || change (digit_val _) with (Some 5)
     || change (digit_val _) with (Some 6) || change (digit_val _) with (Some 7)
     || change (digit_val _) with (Some 8)
     || change (digit_val _) with (Some 9));
    cbv beta iota; rewrite IH, Nat.tail_mul_spec; f_equal; lia.
Qed.

Lemma leading_number_format_05d n c s :
  digit_val c = None → leading_number (format_05d n +:+ String c s) 0 = n.
Proof.
  intros Hc. unfold format_05d, decimal.
  rewrite string_app_assoc, leading_number_zeros.
  rewrite leading_number_decimal by done.
  apply DecimalNat.Unsigned.of_to.
Qed.

Lemma shard_file_format_inj count a b :
  1 < count →
  shard_file_format count a count = shard_file_format count b count → a = b.
Proof.
  intros Hc. unfold shard_file_format.
  destruct (Nat.ltb_spec 1 count) as [_|?]; [|lia].
  intros H. rewrite !string_app_cons, !string_app_nil_l in H.
  injection H as H.
  apply (f_equal (λ s, leading_number s 0)) in H.
  by rewrite !leading_number_format_05d in H.
Qed.

Lemma shard_file_format_not_index count a b :
  shard_file_format count a b ≠ index_file_name.
Proof. unfold shard_file_format. by destruct (1 <? count). Qed.

End NameFacts.

Section SaveFacts.
Context {W : Type} (nbytes : W → N).
Implicit Types (weights shard : dict W) (shards : list (dict W)).

Local Abbreviation size := (total_nbytes nbytes).
Local Abbreviation set_pair :=
  (λ (wm : dict string) (kn : string * string), dict_set kn.1 kn.2 wm).
Local Abbreviation names count i shards :=
  (imap (λ j (shard : dict W),
           (shard_file_format count (i + j + 1) count, shard)) shards).
Local Abbreviation writes count i shards :=
  (concat (imap (λ j (shard : dict W),
                   (λ k, (k, shard_file_format count (i + j + 1) count))
                   <$> shard.*1) shards)).

Lemma foldl_set_name name (ks : list string) (wm : dict string) :
  foldl (λ wm k, dict_set k name wm) wm ks
  = foldl set_pair wm ((λ k, (k, name)) <$> ks).
Proof.
  revert wm. induction ks as [|k ks IH]; intros wm; cbn; [done|apply IH].
Qed.

Lemma save_shards_spec count i shards files wm :
  save_shards count i shards files wm
  = (files ++ names count i shards,
     foldl set_pair wm (writes count i shards)).
Proof.
  revert i files wm.
  induction shards as [|shard shards IH]; intros i files wm;
    cbn [save_shards].
  { by rewrite app_nil_r. }
  rewrite IH, !imap_cons. cbn [concat]. rewrite foldl_app, foldl_set_name.
  rewrite <- app_assoc. cbn [app].
  replace (i + 0 + 1) with (i + 1) by lia.
  f_equal.
  - do 2 f_equal. apply imap_ext. intros j x _.
    unfold compose. cbv beta.
    by replace (i + S j + 1) with (S i + j + 1) by lia.
  - do 2 f_equal. apply imap_ext. intros j x _.
    unfold compose. cbv beta.
    by replace (i + S j + 1) with (S i + j + 1) by lia.
Qed.

Lemma foldl_set_fresh (pairs wm : dict string) :
  NoDup (wm ++ pairs).*1 → foldl set_pair wm pairs = wm ++ pairs.
Proof.
  revert wm. induction pairs as [|[k n] pairs IH]; intros wm Hnd; cbn.
  { by rewrite app_nil_r. }
  assert (Hk : k ∉ wm.*1).
  { rewrite fmap_app in Hnd. apply NoDup_app in Hnd as (_ & Hnd & _).
    intros Hk. apply (Hnd k Hk). cbn. apply elem_of_cons; by left. }
  rewrite dict_set_fresh by done.
  rewrite IH; rewrite <- app_assoc; done.
Qed.

Lemma writes_keys count i shards :
  (writes count i shards).*1 = (concat shards).*1.
Proof.
  revert i. induction shards as [|shard shards IH]; intros i; [done|].
  rewrite imap_cons. cbn [concat]. rewrite !fmap_app. f_equal.
  - induction (shard.*1) as [|k l IHl]; [done|].
    rewrite !fmap_cons. cbn [fst]. by rewrite IHl.
  - rewrite <- (IH (S i)). do 2 f_equal. apply imap_ext. intros j x _.
    unfold compose. cbv beta.
    by replace (i + S j + 1) with (S i + j + 1) by lia.
Qed.

Lemma elem_of_concat {A} (x : A) (ls : list (list A)) :
  x ∈ concat ls ↔ ∃ l, x ∈ l ∧ l ∈ ls.
Proof.
  induction ls as [|l ls IH]; cbn.
  { split; [intros H; by apply elem_of_nil in H|].
    intros (l & _ & H). by apply elem_of_nil in H. }
  rewrite elem_of_app, IH. split.
  - intros [H|(l' & H & Hl')].
    + exists l. split; [done|]. apply elem_of_cons; by left.
    + exists l'. split; [done|]. apply elem_of_cons; by right.
  - intros (l' & H & Hl'). apply elem_of_cons in Hl' as [->|Hl'].
    + by left.
    + right. by exists l'.
Qed.

Lemma elem_of_writes count i shards k n :
  (k, n) ∈ writes count i shards →
  ∃ j shard, shards !! j = Some shard
             ∧ n = shard_file_format count (i + j + 1) count
             ∧ k ∈ shard.*1.
Proof.
  intros H. apply elem_of_concat in H as (l & Hl & Hkn).
  apply list_elem_of_lookup in Hkn as [j Hj].
  rewrite list_lookup_imap in Hj.
  destruct (shards !! j) as [shard|] eqn:E; [|done].
  injection Hj as <-.
  apply list_elem_of_fmap in Hl as (k' & [= -> ->] & Hk).
  by exists j, shard.
Qed.

(** What [save_weights] writes, on weights with distinct names. *)
Lemma save_weights_spec weights donate :
  NoDup weights.*1 →
  let shards := make_shards nbytes weights MAX_FILE_SIZE_GB in
  let count := length shards in
  let s := save_weights nbytes weights donate in
  files s = names count 0 shards
  ∧ concat shards = weights
  ∧ ∃ wm, index s = Some {| total_size := size weights; weight_map := wm |}
          ∧ wm.*1 = merge_sort String.le weights.*1
          ∧ ∀ k n, (k, n) ∈ wm → (k, n) ∈ writes count 0 shards.
Proof.
  intros Hnd shards count s.
  assert (Hcat : concat shards = weights).
  { destruct (make_shards_spec nbytes weights MAX_FILE_SIZE_GB Hnd)
      as (first & rest & E & Hc & _).
    subst shards. by rewrite E. }
  subst s. unfold save_weights. fold shards. fold count.
  rewrite save_shards_spec. cbn [app].
  assert (Hw : NoDup (writes count 0 shards).*1)
    by (by rewrite writes_keys, Hcat).
  rewrite foldl_set_fresh by done. cbn [app files index].
  split; [done|]. split; [done|].
  rewrite writes_keys, Hcat.
  set (wr := writes count 0 shards) in *.
  set (ks := merge_sort String.le weights.*1).
  assert (Hks : Forall (λ k, is_Some (dict_get k wr)) ks).
  { apply Forall_forall. intros k Hk. subst ks.
    rewrite merge_sort_Permutation in Hk.
    destruct (dict_get k wr) eqn:E; [done|].
    apply dict_get_None in E. subst wr.
    by rewrite writes_keys, Hcat in E. }
  assert (Hm : ∃ wm, mapM (λ k, (λ name, (k, name)) <$> dict_get k wr) ks
                     = Some wm
                     ∧ wm.*1 = ks ∧ ∀ k n, (k, n) ∈ wm → (k, n) ∈ wr).
  { clearbody ks. induction Hks as [|k ks [n Hn] Hks IH].
    { exists []. repeat split. intros k n H.
      by apply elem_of_nil in H. }
    destruct IH as (wm & Hwm & Hkeys & Hin).
    exists ((k, n) :: wm). cbn. rewrite Hn. cbn. rewrite Hwm. cbn.
    split; [done|]. split; [by rewrite Hkeys|].
    intros k' n' H. apply elem_of_cons in H as [[= -> ->]|H]; [|by apply Hin].
    by apply dict_get_Some in Hn. }
  destruct Hm as (wm & -> & Hkeys & Hin). cbn.
  by exists wm.
Qed.

End SaveFacts.

Section ShardTheorems.
Context {W : Type} (nbytes : W → N).
Implicit Types (weights shard : dict W) (shards : list (dict W)).

Local Abbreviation size := (total_nbytes nbytes).

Lemma make_shards_one weights gb :
  NoDup weights.*1 →
  make_shards nbytes weights gb = [weights]
  ↔ weights = [] ∨ (size weights ≤ Z.shiftl gb 30)%Z.
Proof.
  intros Hnd.
  destruct (make_shards_spec nbytes weights gb Hnd)
    as (first & rest & E & Hcat & Hne & Hfit & Hall & Hgreedy & Hfirst).
  rewrite E. split.
  - intros [= -> ->]. exact Hfit.
  - intros [->|Hle].
    + apply app_eq_nil in Hcat as [-> Hrest].
      destruct rest as [|s rest]; [done|].
      apply Forall_cons in Hne as [Hs _]. cbn in Hrest.
      by apply app_eq_nil in Hrest as [-> _].
    + destruct rest as [|[|[k v] tl] rest].
      * cbn in Hcat. rewrite app_nil_r in Hcat. by subst.
      * by apply Forall_cons in Hne as [Hs _].
      * specialize (Hgreedy 0 first _ k v tl eq_refl eq_refl eq_refl).
        rewrite <- Hcat in Hle. cbn [concat] in Hle.
        rewrite !total_nbytes_app in Hle. cbn in Hle.
        fold (size tl) in Hle.
        pose proof (total_nbytes_nonneg nbytes tl).
        pose proof (total_nbytes_nonneg nbytes (concat rest)).
        lia.
Qed.

(** X14. [make_shards] splits and loses nothing: the shards, one
    after the other, are the weights in their order. *)
Theorem make_shards_partition weights gb :
  NoDup weights.*1 → concat (make_shards nbytes weights gb) = weights.
Proof.
  intros Hnd.
  destruct (make_shards_spec nbytes weights gb Hnd)
    as (first & rest & E & Hcat & _).
  by rewrite E.
Qed.

(** X15. A shard with more than one weight is within the limit of
    [max_file_size_gb << 30] bytes; only a shard of a single weight
    can be larger. *)
Theorem make_shards_within_limit weights gb shard :
  NoDup weights.*1 →
  shard ∈ make_shards nbytes weights gb →
  1 < length shard → (size shard ≤ Z.shiftl gb 30)%Z.
Proof.
  intros Hnd Hin Hlen.
  destruct (make_shards_spec nbytes weights gb Hnd)
    as (first & rest & E & _ & _ & Hfit & Hall & _).
  rewrite E in Hin. apply elem_of_cons in Hin as [->|Hin].
  - destruct Hfit as [->|Hfit]; [cbn in Hlen; lia|done].
  - rewrite Forall_forall in Hall.
    destruct (Hall shard Hin) as [?|?]; [lia|done].
Qed.

(** X16. [make_shards] always returns at least one shard, and only
    the first can be empty: it is when there are no weights, or when
    the first weight alone is over the limit, so that the empty shard
    the loop starts with is closed before anything is put in it. *)
Theorem make_shards_first_empty weights gb :
  NoDup weights.*1 →
  ∃ first rest,
    make_shards nbytes weights gb = first :: rest
    ∧ Forall (λ s, s ≠ []) rest
    ∧ (first = [] ↔
       weights = []
       ∨ ∃ k v tl, weights = (k, v) :: tl
                   ∧ (Z.shiftl gb 30 < Z.of_N (nbytes v))%Z).
Proof.
  intros Hnd.
  destruct (make_shards_spec nbytes weights gb Hnd)
    as (first & rest & E & _ & Hne & _ & _ & _ & Hfirst).
  by exists first, rest.
Qed.

(** X17. The split is greedy: a shard is closed only when the next
    weight, the first of the following shard, would take it over the
    limit. *)
Theorem make_shards_greedy weights gb i s1 k v tl :
  NoDup weights.*1 →
  make_shards nbytes weights gb !! i = Some s1 →
  make_shards nbytes weights gb !! S i = Some ((k, v) :: tl) →
  (Z.shiftl gb 30 < size s1 + Z.of_N (nbytes v))%Z.
Proof.
  intros Hnd H1 H2.
  destruct (make_shards_spec nbytes weights gb Hnd)
    as (first & rest & E & _ & _ & _ & _ & Hgreedy & _).
  rewrite E in H1, H2. by eapply Hgreedy.
Qed.

(** X18. The weights stay in one shard exactly when there are none
    or their total size is within the limit. *)
Theorem make_shards_single weights gb :
  NoDup weights.*1 →
  make_shards nbytes weights gb = [weights]
  ↔ weights = [] ∨ (size weights ≤ Z.shiftl gb 30)%Z.
Proof. apply make_shards_one. Qed.

Lemma save_weights_files weights donate :
  let shards := make_shards nbytes weights MAX_FILE_SIZE_GB in
  files (save_weights nbytes weights donate)
  = imap (λ j shard,
            (shard_file_format (length shards) (0 + j + 1) (length shards),
             shard)) shards.
Proof.
  intros shards. unfold save_weights. fold shards.
  rewrite save_shards_spec. cbn [app].
  by destruct (mapM _ _).
Qed.

(** X19. The shard files have names that differ from one another and
    from the index's, so no write of [save_weights] replaces another;
    and the files hold the shards of [make_shards], in order. *)
Theorem save_weights_names_distinct weights donate :
  let s := save_weights nbytes weights donate in
  NoDup (files s).*1
  ∧ (index_file_name ∉ (files s).*1)
  ∧ (files s).*2 = make_shards nbytes weights MAX_FILE_SIZE_GB.
Proof.
  intros s. subst s. rewrite save_weights_files.
  set (shards := make_shards nbytes weights MAX_FILE_SIZE_GB).
  set (count := length shards).
  split; [|split].
  - apply NoDup_alt. intros i j x Hi Hj.
    rewrite list_lookup_fmap, list_lookup_imap in Hi, Hj.
    destruct (shards !! i) as [si|] eqn:Ei; [|done].
    destruct (shards !! j) as [sj|] eqn:Ej; [|done].
    cbn in Hi, Hj. injection Hi as <-. injection Hj as Hj.
    apply lookup_lt_Some in Ei, Ej. fold count in Ei, Ej.
    destruct (decide (1 < count)) as [Hc|Hc]; [|lia].
    apply (shard_file_format_inj count) in Hj; [lia|done].
  - intros H. apply list_elem_of_fmap in H as ([n sh] & Hn & H).
    apply list_elem_of_lookup in H as [j Hj].
    rewrite list_lookup_imap in Hj.
    destruct (shards !! j); [|done]. injection Hj as <- _.
    cbn in Hn. symmetry in Hn. by apply shard_file_format_not_index in Hn.
  - rewrite fmap_imap. unfold compose. cbn [snd].
    clear. induction shards as [|sh shards IH]; [done|].
    rewrite imap_cons. f_equal. exact IH.
Qed.

(** X20. On weights with distinct names the index is written, with
    the total size of the weights and a map with their names, sorted;
    the map sends each weight to a file that was written and that
    holds this weight. *)
Theorem save_weights_index weights donate :
  NoDup weights.*1 →
  let s := save_weights nbytes weights donate in
  ∃ wm,
    index s = Some {| total_size := size weights; weight_map := wm |}
    ∧ StronglySorted String.le wm.*1
    ∧ wm.*1 ≡ₚ weights.*1
    ∧ ∀ k v, (k, v) ∈ weights →
        ∃ name shard, dict_get k wm = Some name
                      ∧ (name, shard) ∈ files s ∧ (k, v) ∈ shard.
Proof.
  intros Hnd s.
  destruct (save_weights_spec nbytes weights donate Hnd)
    as (Hfiles & Hcat & wm & Hidx & Hkeys & Hin).
  fold s in Hfiles, Hidx.
  exists wm. split; [exact Hidx|].
  assert (Hperm : wm.*1 ≡ₚ weights.*1)
    by (rewrite Hkeys; apply merge_sort_Permutation).
  assert (Hwm : NoDup wm.*1) by (by rewrite Hperm).
  split; [rewrite Hkeys; apply StronglySorted_merge_sort; apply _|].
  split; [exact Hperm|].
  intros k v Hkv.
  assert (Hk : k ∈ wm.*1).
  { rewrite Hperm. apply list_elem_of_fmap. by exists (k, v). }
  apply list_elem_of_fmap in Hk as ([k' n] & -> & Hkn).
  cbn [fst] in Hkv |- *.
  destruct (elem_of_writes _ _ _ _ _ (Hin _ _ Hkn))
    as (j & shard & Hj & -> & Hks).
  eexists _, shard. split; [by apply dict_get_Some|]. split.
  - rewrite Hfiles. apply list_elem_of_lookup. exists j.
    by rewrite list_lookup_imap, Hj.
  - apply list_elem_of_fmap in Hks as ([k'' v'] & Hk'' & Hkv').
    cbn in Hk''. subst k''.
    assert (Hw : (k', v') ∈ weights).
    { rewrite <- Hcat. apply elem_of_concat. exists shard.
      split; [done|]. by eapply list_elem_of_lookup_2. }
    apply dict_get_Some in Hw, Hkv; try done.
    rewrite Hkv in Hw. by injection Hw as ->.
Qed.

(** X21. Weights that fit in [MAX_FILE_SIZE_GB] gigabytes go into the
    single file [model.safetensors], and the index sends every weight
    there. *)
Theorem save_weights_single_file weights donate :
  NoDup weights.*1 →
  (size weights ≤ Z.shiftl MAX_FILE_SIZE_GB 30)%Z →
  let s := save_weights nbytes weights donate in
  files s = [("model.safetensors", weights)]
  ∧ index s
    = Some {| total_size := size weights;
              weight_map := (λ k, (k, "model.safetensors"))
                            <$> merge_sort String.le weights.*1 |}.
Proof.
  intros Hnd Hle s.
  assert (E : make_shards nbytes weights MAX_FILE_SIZE_GB = [weights])
    by (apply make_shards_one; [done|by right]).
  destruct (save_weights_spec nbytes weights donate Hnd)
    as (Hfiles & Hcat & wm & Hidx & Hkeys & Hin).
  fold s in Hfiles, Hidx. rewrite E in Hfiles, Hin. cbn in Hfiles, Hin.
  split; [exact Hfiles|]. rewrite Hidx. do 2 f_equal.
  rewrite <- Hkeys. rewrite app_nil_r in Hin.
  clear -Hin. induction wm as [|[k n] wm IH]; [done|].
  rewrite !fmap_cons. cbn [fst]. f_equal.
  - f_equal. specialize (Hin k n). 
    assert (H : (k, n) ∈ (k, n) :: wm) by (apply elem_of_cons; by left).
    apply Hin, list_elem_of_fmap in H as (k' & [= _ ->] & _). done.
  - apply IH. intros k' n' H. apply Hin. apply elem_of_cons; by right.
Qed.

End ShardTheorems.

(** * generate *)

Section GenerateFacts.
Context {F : Type} {backend : MxBackend F} {Rng KV : Type}.
Variable top_p_sampling : list F → Q → Q → Rng → token * Rng.
Variable min_p_sampling : list F → Q → Z → Q → Rng → token * Rng.
Variable categorical_sampling : list F → Q → Rng → token * Rng.
Variable make_prompt_cache : option Z → list KV.
Variable model : Model (F := F) (KV := KV).
Context {D : Type} (tokenizer : Tokenizer D).
Variable detok_text : D → string.
Variable mx_exp : F → F.
Variable fuel : nat.

Local Abbreviation gen_next' :=
  (gen_next top_p_sampling min_p_sampling categorical_sampling
     make_prompt_cache model).
Local Abbreviation stream_loop' :=
  (stream_loop top_p_sampling min_p_sampling categorical_sampling
     make_prompt_cache model tokenizer fuel).
Local Abbreviation stream_generate' :=
  (stream_generate top_p_sampling min_p_sampling categorical_sampling
     make_prompt_cache model tokenizer fuel).
Local Abbreviation show_token' := (show_token (F := F) tokenizer mx_exp).
Local Abbreviation generate_loop' :=
  (generate_loop top_p_sampling min_p_sampling categorical_sampling
     make_prompt_cache model tokenizer mx_exp fuel).
Local Abbreviation generate_report' :=
  (generate_report (F := F) (Rng := Rng) tokenizer detok_text).
Local Abbreviation generate' :=
  (generate top_p_sampling min_p_sampling categorical_sampling
     make_prompt_cache model tokenizer detok_text mx_exp fuel).
Local Abbreviation sim' := (sim (F := F) (Rng := Rng)).

Implicit Types (w : world (F := F) (Rng := Rng)).
Implicit Types (verbose formatter : bool).

Lemma bind_Ok_inv {A B} (c : M A) (k : A → M B) w b w' :
  bind c k w = (Ok b, w') →
  ∃ a w1, c w = (Ok a, w1) ∧ k a w1 = (Ok b, w').
Proof.
  unfold bind. destruct (c w) as [[a| |] w1]; [|done..].
  intros H. by exists a, w1.
Qed.

Lemma show_token_events verbose formatter tok logprobs (d : D) :
  let shown := (show_token' verbose formatter tok logprobs d).1 in
  ge_added shown = []
  ∧ (GeNoTokens ∉ shown)
  ∧ ge_finalize_count shown = if verbose && formatter then 1 else 0.
Proof.
  unfold show_token. destruct verbose, formatter; cbn;
    repeat match goal with
           | |- context [last_segment tokenizer ?x] =>
               destruct (last_segment tokenizer x)
           end; cbn;
    (split; [done|]); (split; [|done]);
    rewrite ?not_elem_of_cons; repeat split; try done; apply not_elem_of_nil.
Qed.

Lemma ge_added_app (l1 l2 : list (generate_event F)) :
  ge_added (l1 ++ l2) = ge_added l1 ++ ge_added l2.
Proof. apply omap_app. Qed.

Lemma ge_finalize_count_app (l1 l2 : list (generate_event F)) :
  ge_finalize_count (l1 ++ l2) = ge_finalize_count l1 + ge_finalize_count l2.
Proof. unfold ge_finalize_count. by rewrite omap_app, length_app. Qed.

(** What a run of the loop that ends leaves behind. *)
Lemma generate_loop_facts verbose formatter :
  ∀ remaining n last_n g (d : D) tic pt w evs d' tic' pt' last w',
  generate_loop' verbose formatter remaining n last_n g d tic pt w
  = (Ok (evs, d', tic', pt', last), w') →
  (remaining = 0 → last = last_n)
  ∧ (0 < remaining → is_Some last)
  ∧ (is_Some pt → is_Some pt')
  ∧ (0 < remaining → n = 0 → is_Some pt')
  ∧ (GeNoTokens ∉ evs)
  ∧ ge_finalize_count evs
    = if verbose && formatter then length (ge_added evs) else 0.
Proof.
  induction remaining as [|remaining IH];
    intros n last_n g d tic pt w evs d' tic' pt' last w' E;
    cbn [generate_loop] in E.
  { unfold ret in E. injection E as <- <- <- <- <- <-.
    repeat split; try done; try lia; try apply not_elem_of_nil.
    by destruct (verbose && formatter). }
  apply bind_Ok_inv in E as ([[tok lps] g1] & w1 & _ & E).
  apply bind_Ok_inv in E as ([tic1 pt1] & w2 & Eclock & E).
  assert (Hpt1 : (is_Some pt → is_Some pt1) ∧ (n = 0 → is_Some pt1)).
  { destruct (Nat.eqb_spec n 0) as [->|Hn].
    - unfold bind, perf_counter, ret in Eclock. injection Eclock as <- <- <-.
      by split.
    - unfold ret in Eclock. injection Eclock as <- <- <-. by split. }
  destruct Hpt1 as [Hpt1 Hpt1'].
  destruct (tok =? eos_token_id tokenizer).
  { unfold ret in E. injection E as <- <- <- <- <- <-.
    repeat split; try done; try lia; try apply not_elem_of_nil; auto.
    by destruct (verbose && formatter). }
  pose proof (show_token_events verbose formatter tok lps
                (add_token tokenizer tok d)) as (Hadd & Hno & Hfin).
  destruct (show_token' verbose formatter tok lps (add_token tokenizer tok d))
    as [shown d1]. cbn [fst] in Hadd, Hno, Hfin.
  apply bind_Ok_inv in E as ([[[[evs1 d2] tic2] pt2] last2] & w3 & Eloop & E).
  unfold ret in E. injection E as <- <- <- <- <- <-.
  destruct (IH _ _ _ _ _ _ _ _ _ _ _ _ _ Eloop)
    as (Hlast0 & Hlast & Hpt & _ & Hno' & Hfin').
  split; [lia|]. split.
  { intros _. destruct remaining; [by rewrite Hlast0|apply Hlast; lia]. }
  split; [auto|]. split; [auto|]. split.
  { rewrite not_elem_of_cons. split; [done|].
    rewrite elem_of_app. by intros [?|?]. }
  change (GeAddToken tok :: shown ++ evs1)
    with ([GeAddToken tok] ++ shown ++ evs1).
  rewrite !ge_finalize_count_app, !ge_added_app, Hadd, Hfin, Hfin'.
  cbn. destruct (verbose && formatter); cbn; lia.
Qed.

Lemma generate_report_facts size token_count tic pt (d : D) w :
  ∃ shown d' out w',
    generate_report' size token_count tic pt d w = (Ok (shown, d', out), w')
    ∧ heap w' = heap w ∧ rng w' = rng w ∧ trace w' = trace w
    ∧ ge_added shown = [] ∧ ge_finalize_count shown = 0
    ∧ (0 < token_count → GeNoTokens ∉ shown)
    ∧ (0 < token_count → out ≠ ReturnedNone)
    ∧ (0 < token_count → is_Some pt → out ≠ UnboundLocalError)
    ∧ (∀ text, out = Returned text → text = detok_text d').
Proof.
  unfold generate_report, bind, perf_counter.
  destruct (last_segment tokenizer d) as [segment d1].
  destruct (Nat.eqb_spec token_count 0) as [->|Hn].
  { eexists _, _, _, _. split; [done|]. cbn.
    repeat split; try done; intros; lia. }
  assert (Hshown : GeNoTokens ∉ [GePrint (F := F) segment;
                                 GePrint "=========="]).
  { rewrite !not_elem_of_cons. repeat split; try done.
    apply not_elem_of_nil. }
  destruct pt as [prompt_time|].
  2: { eexists _, _, _, _. split; [done|]. cbn.
       repeat split; try done; intros _ [? [=]]. }
  destruct (Qeq_bool prompt_time 0).
  { eexists _, _, _, _. split; [done|]. cbn. by repeat split. }
  destruct (Qeq_bool _ 0).
  { eexists _, _, _, _. split; [done|]. cbn. by repeat split. }
  eexists _, _, _, _. split; [done|]. cbn.
  repeat split; try done.
  - intros _. rewrite !not_elem_of_cons. repeat split; try done.
    apply not_elem_of_nil.
  - by intros text [= <-].
Qed.

(** X22. With an empty range, [max_tokens <= 0], [generate] ends in
    an [UnboundLocalError]: the loop binds no [n] for [token_count = n
    + 1].  It has then reset the detokenizer and read the clock once,
    and nothing else: the generator was never started, so no argument
    was checked and the model was not called. *)
Theorem generate_empty_range verbose formatter prompt_text max_tokens rate
    kwargs (d : D) w :
  (max_tokens ≤ 0)%Z →
  generate top_p_sampling min_p_sampling categorical_sampling
    make_prompt_cache model tokenizer detok_text mx_exp fuel
    verbose formatter prompt_text max_tokens rate kwargs d w
  = (Ok ((if verbose
          then [GePrint "=========="; GePrintPrompt prompt_text]
          else []) ++ [GeReset],
         reset tokenizer d, UnboundLocalError),
     {| heap := heap w; rng := rng w; clock := clock w;
        clock_reads := S (clock_reads w); trace := trace w |}).
Proof.
  intros Hmax. unfold generate.
  replace (Z.to_nat max_tokens) with 0 by lia.
  reflexivity.
Qed.

(** X23. How [generate] can end once the generator has raised
    nothing: in an [UnboundLocalError] exactly when the range is
    empty; in a [ZeroDivisionError] only when [verbose]; never by the
    [return] under [if token_count == 0], whose message is never
    printed; and otherwise with the text of the detokenizer. *)
Theorem generate_outcomes verbose formatter prompt_text max_tokens rate
    kwargs (d : D) w evs d' out w' :
  generate top_p_sampling min_p_sampling categorical_sampling
    make_prompt_cache model tokenizer detok_text mx_exp fuel
    verbose formatter prompt_text max_tokens rate kwargs d w
  = (Ok (evs, d', out), w') →
  (out = UnboundLocalError ↔ (max_tokens ≤ 0)%Z)
  ∧ (out = ZeroDivisionError → verbose = true)
  ∧ out ≠ ReturnedNone
  ∧ (GeNoTokens ∉ evs)
  ∧ (∀ text, out = Returned text → text = detok_text d').
Proof.
  unfold generate. intros E.
  apply bind_Ok_inv in E as (tic & w1 & _ & E).
  apply bind_Ok_inv in E as ([[[[evs1 d1] tic1] pt1] n] & w2 & Eloop & E).
  destruct (generate_loop_facts _ _ _ _ _ _ _ _ _ _ _ _ _ _ _ _ Eloop)
    as (Hn0 & Hn & _ & Hpt & Hno & _).
  assert (Hbanner : GeNoTokens ∉
            (if verbose
             then [GePrint (F := F) "=========="; GePrintPrompt prompt_text]
             else []) ++ GeReset :: evs1).
  { intros [H|H]%elem_of_app.
    - destruct verbose;
        repeat (apply elem_of_cons in H as [?|H]; [done|]);
        by apply elem_of_nil in H.
    - apply elem_of_cons in H as [?|?]; done. }
  destruct n as [n|].
  2: { unfold ret in E. injection E as <- <- <- <-.
       split; [|by repeat split].
       split; [intros _|done].
       destruct (Z.to_nat max_tokens) eqn:Ez; [lia|].
       destruct Hn as [? [=]]. lia. }
  assert (Hpos : (0 < max_tokens)%Z).
  { destruct (Z.to_nat max_tokens) eqn:Ez; [|lia].
    by specialize (Hn0 eq_refl). }
  destruct verbose.
  2: { unfold ret in E. injection E as <- <- <- <-.
       split; [split; [done|lia]|]. split; [done|]. split; [done|].
       split; [|by intros text [= <-]].
       change (GeNoTokens ∉ ([] ++ GeReset :: evs1) ++ [GeFinalize]).
       rewrite elem_of_app, list_elem_of_singleton. by intros [?|?]. }
  destruct (generate_report_facts (length (encode tokenizer prompt_text))
              (n + 1) tic1 pt1 (finalize tokenizer d1) w2)
    as (shown & d2 & out2 & w3 & Erep & _ & _ & _ & _ & _ & Hno' & Hnone
        & Hunb & Htext).
  unfold bind in E. rewrite Erep in E. unfold ret in E.
  injection E as <- <- <- <-.
  split.
  { split; [|lia]. intros ->. exfalso. apply Hunb; [lia| |done].
    apply Hpt; [lia|done]. }
  split; [done|]. split; [apply Hnone; lia|]. split; [|exact Htext].
  change (GeNoTokens
          ∉ ([GePrint "=========="; GePrintPrompt prompt_text]
             ++ GeReset :: evs1) ++ GeFinalize :: shown).
  rewrite elem_of_app, elem_of_cons. intros [?|[?|?]]; try done.
  apply Hno'; [lia|done].
Qed.

(** X24. [generate] finalizes the detokenizer once at the end, and,
    when it shows the tokens through a [formatter], once more for
    every token it hands to the detokenizer. *)
Theorem generate_finalize_count verbose formatter prompt_text max_tokens rate
    kwargs (d : D) w evs d' out w' :
  (0 < max_tokens)%Z →
  generate' verbose formatter prompt_text max_tokens rate kwargs d w
  = (Ok (evs, d', out), w') →
  ge_finalize_count evs
  = (if verbose && formatter then length (ge_added evs) else 0) + 1.
Proof.
  intros Hmax. unfold generate. intros E.
  apply bind_Ok_inv in E as (tic & w1 & _ & E).
  apply bind_Ok_inv in E as ([[[[evs1 d1] tic1] pt1] n] & w2 & Eloop & E).
  destruct (generate_loop_facts _ _ _ _ _ _ _ _ _ _ _ _ _ _ _ _ Eloop)
    as (_ & Hn & _ & _ & _ & Hfin).
  destruct n as [n|]; [|destruct Hn as [? [=]]; lia].
  assert (Hb : ∀ tail : list (generate_event F),
            ge_added tail = [] → ge_finalize_count tail = 1 →
            ge_finalize_count
              (((if verbose
                 then [GePrint "=========="; GePrintPrompt prompt_text]
                 else []) ++ GeReset :: evs1) ++ tail)
            = (if verbose && formatter
               then length (ge_added
                      (((if verbose
                         then [GePrint "==========";
                               GePrintPrompt prompt_text]
                         else []) ++ GeReset :: evs1) ++ tail))
               else 0) + 1).
  { intros tail Ha Hf.
    change (GeReset :: evs1) with ([GeReset (F := F)] ++ evs1).
    rewrite !ge_finalize_count_app, !ge_added_app, Ha, Hf, Hfin.
    destruct verbose, formatter; cbn; rewrite ?app_nil_r; lia. }
  destruct verbose.
  2: { unfold ret in E. injection E as <- <- <- <-. by apply Hb. }
  destruct (generate_report_facts (length (encode tokenizer prompt_text))
              (n + 1) tic1 pt1 (finalize tokenizer d1) w2)
    as (shown & d2 & out2 & w3 & Erep & _ & _ & _ & Ha & Hf & _).
  unfold bind in E. rewrite Erep in E. unfold ret in E.
  injection E as <- <- <- <-.
  apply Hb.
  - change (GeFinalize :: shown) with ([GeFinalize (F := F)] ++ shown).
    by rewrite ge_added_app, Ha.
  - change (GeFinalize :: shown) with ([GeFinalize (F := F)] ++ shown).
    by rewrite ge_finalize_count_app, Hf.
Qed.

Lemma sim_silent_r {A B C} (R : A → C → Prop) (P : B → Prop)
    (c1 : M A) (c2 : M B) (k2 : B → M C) :
  (∀ w, ∃ b w', c2 w = (Ok b, w') ∧ heap w' = heap w ∧ rng w' = rng w
                ∧ P b) →
  (∀ b, P b → sim' R c1 (k2 b)) → sim' R c1 (bind c2 k2).
Proof.
  intros Hc Hk w1 w2 [Hh Hr].
  destruct (Hc w2) as (b & w2' & E & Hh' & Hr' & Hb).
  unfold bind. rewrite E. apply Hk; [done|]. split; congruence.
Qed.

Lemma sim_stream_generate_loop verbose formatter :
  ∀ remaining n last_n g1 g2 (d1 d2 : D) tic pt,
  gen_sim g1 g2 →
  sim' (λ a b, added_tokens a.1.1 = ge_added b.1.1.1.1)
    (stream_loop' remaining g1 d1)
    (generate_loop' verbose formatter remaining n last_n g2 d2 tic pt).
Proof.
  induction remaining as [|remaining IH];
    intros n last_n g1 g2 d1 d2 tic pt Hg; cbn [stream_loop generate_loop].
  { by apply sim_ret. }
  eapply sim_bind; [by apply sim_gen_next|].
  intros [[tok1 lps1] g1'] [[tok2 lps2] g2'] [E Hg']. cbn in E, Hg'.
  injection E as -> ->.
  apply (sim_silent_r _ (λ _, True)).
  { intros w. destruct (n =? 0).
    - unfold bind, perf_counter, ret. by eexists _, _.
    - unfold ret. by eexists _, _. }
  intros [tic1 pt1] _.
  destruct (tok2 =? eos_token_id tokenizer); [by apply sim_ret|].
  destruct (last_segment tokenizer (add_token tokenizer tok2 d1))
    as [segment d1'].
  pose proof (show_token_events verbose formatter tok2 lps2
                (add_token tokenizer tok2 d2)) as (Hadd & _ & _).
  destruct (show_token' verbose formatter tok2 lps2
              (add_token tokenizer tok2 d2)) as [shown d2'].
  cbn [fst] in Hadd.
  eapply sim_bind; [by apply IH|].
  intros [[evs1 dx] gx] [[[[evs2 dy] ticy] pty] lasty] HR. cbn in HR.
  apply sim_ret. cbn [fst].
  change (GeAddToken tok2 :: shown ++ evs2)
    with ([GeAddToken tok2] ++ shown ++ evs2).
  rewrite !ge_added_app, Hadd. cbn. by f_equal.
Qed.

(** X25. [generate] and [stream_generate] drive the generator alike.
    Called with the same arguments in worlds with the same lists and
    the same random state, whatever the clocks, the detokenizer
    states, [verbose] and the [formatter], they end the same way as
    far as the generator goes: both with the exception it raised,
    both in a prefill that does not end, or both past it, and then
    they have handed the same tokens to their detokenizers; and they
    leave the same lists and the same random state. *)
Theorem generate_same_tokens verbose formatter prompt_text max_tokens rate
    kwargs (d1 d2 : D) w1 w2 :
  heap w1 = heap w2 → rng w1 = rng w2 →
  let r1 := stream_generate' prompt_text max_tokens rate kwargs d1 w1 in
  let r2 := generate' verbose formatter prompt_text max_tokens rate kwargs
              d2 w2 in
  same_outcome (λ a b, added_tokens a.1.1 = ge_added b.1.1) r1.1 r2.1
  ∧ heap r1.2 = heap r2.2 ∧ rng r1.2 = rng r2.2.
Proof.
  intros Hh Hr.
  enough (Hsim : sim' (λ a b, added_tokens a.1.1 = ge_added b.1.1)
            (stream_generate' prompt_text max_tokens rate kwargs d1)
            (generate' verbose formatter prompt_text max_tokens rate kwargs
               d2))
    by exact (Hsim w1 w2 (conj Hh Hr)).
  unfold stream_generate, generate.
  apply (sim_silent_r _ (λ _, True)).
  { intros w. unfold perf_counter. by eexists _, _. }
  intros tic _.
  eapply sim_bind.
  { apply (sim_stream_generate_loop verbose formatter).
    split; [done|by left]. }
  intros [[evs1 dx] gx] [[[[evs2 dy] ticy] pty] lasty] HR. cbn [fst] in HR.
  destruct (last_segment tokenizer (finalize tokenizer dx)) as [segment dx'].
  assert (Hevs : ∀ tail : list (generate_event F), ge_added tail = [] →
            added_tokens (SeReset :: evs1 ++ [SeFinalize; SeYield segment])
            = ge_added
                (((if verbose
                   then [GePrint "=========="; GePrintPrompt prompt_text]
                   else []) ++ GeReset :: evs2) ++ tail)).
  { intros tail Htail.
    change (GeReset :: evs2) with ([GeReset (F := F)] ++ evs2).
    rewrite !ge_added_app, Htail, <- HR.
    destruct (stream_events_wrap evs1 segment) as (-> & _ & _).
    rewrite app_nil_r. by destruct verbose. }
  destruct lasty as [n|].
  2: { apply sim_ret. cbn [fst]. rewrite <- (app_nil_r (_ ++ _ :: evs2)).
       by apply Hevs. }
  destruct verbose.
  2: { apply sim_ret. cbn [fst]. by apply (Hevs [GeFinalize]). }
  apply (sim_silent_r _ (λ b, ge_added b.1.1 = [])).
  { intros w.
    destruct (generate_report_facts (length (encode tokenizer prompt_text))
                (n + 1) ticy pty (finalize tokenizer dy) w)
      as (shown & d' & out & w' & E & Hh' & Hr' & _ & Ha & _).
    by exists (shown, d', out), w'. }
  intros [[shown d'] out] Ha. cbn [fst] in Ha.
  apply sim_ret. cbn [fst]. apply (Hevs (GeFinalize :: shown)).
  change (GeFinalize :: shown) with ([GeFinalize (F := F)] ++ shown).
  by rewrite ge_added_app, Ha.
Qed.

End GenerateFacts.

(** * Instances of the further properties *)

Ltac by_decide := apply (bool_decide_unpack _); vm_compute; reflexivity.

Lemma logit_bias_stage_witness :
  NoDup [(0, 1%Q); (2, 3%Q)].*1
  ∧ call_processor
      (logit_bias_processor [(0, 1%Q); (2, 3%Q)].*1 [(0, 1%Q); (2, 3%Q)].*2)
      [] [1%Q; 1%Q; 1%Q] !! 2
    = match (list_to_map [(0, 1%Q); (2, 3%Q)] : gmap nat Q) !! 2 with
      | Some b => (λ x, f_add x (f_of_py b)) <$> ([1%Q; 1%Q; 1%Q] !! 2)
      | None => [1%Q; 1%Q; 1%Q] !! 2
      end.
Proof.
  assert (H : NoDup [(0, 1%Q); (2, 3%Q)].*1) by by_decide.
  split; [exact H|].
  exact (logit_bias_stage [(0, 1%Q); (2, 3%Q)] [] [1%Q; 1%Q; 1%Q] 2 H).
Defined.

Lemma rate_validation_witness :
  (penalty_rejected paced_args = false
   ∧ rate_acceptable (max_tokens_per_sec paced_args)
   ∧ ¬ rate_acceptable
         (max_tokens_per_sec
            (stream_args paced_args [1; 2] (Some (PyInt 0)))))
  ∧ (start bigram_model paced_args 10 world0).1
    ≠ Raise (BadMaxTokensPerSec (Some (PyInt 4)))
  ∧ start bigram_model (stream_args paced_args [1; 2] (Some (PyInt 0))) 10
      world0
    = (Raise (BadMaxTokensPerSec (Some (PyInt 0))), world0).
Proof.
  assert (H1 : rate_acceptable (max_tokens_per_sec paced_args))
    by (vm_compute; reflexivity).
  assert (H2 : ¬ rate_acceptable
                   (max_tokens_per_sec
                      (stream_args paced_args [1; 2] (Some (PyInt 0)))))
    by (intros H; vm_compute in H; discriminate H).
  split; [by repeat split|]. split.
  - exact (proj1 (rate_validation demo_top_p demo_min_p demo_categorical
                    fresh_cache bigram_model paced_args eq_refl)
             H1 10 world0 (Some (PyInt 4))).
  - exact (proj2 (rate_validation demo_top_p demo_min_p demo_categorical
                    fresh_cache bigram_model
                    (stream_args paced_args [1; 2] (Some (PyInt 0))) eq_refl)
             H2 10 world0).
Defined.

Lemma no_rate_no_sleep_witness :
  max_tokens_per_sec (fr_args plain_frame) = None
  ∧ ∃ items fr' w',
      take_items bigram_model 10 3 (GenRunning plain_frame) world0
      = (Ok (items, GenRunning fr'), w')
      ∧ sleeps (trace w') = sleeps (trace world0)
      ∧ clock_reads w' = clock_reads world0
      ∧ fr_last_target_time fr' = fr_last_target_time plain_frame.
Proof.
  split; [reflexivity|].
  exact (no_rate_no_sleep demo_top_p demo_min_p demo_categorical fresh_cache
           bigram_model 3 plain_frame 10 world0 eq_refl).
Defined.

Lemma paced_turn_witness :
  (max_tokens_per_sec (fr_args paced_frame) = Some (PyInt 4)
   ∧ (clock world0 (clock_reads world0)
      < fr_last_target_time paced_frame + 1 / pynum_val (PyInt 4))%Q)
  ∧ ∃ fr' w',
      generate_step_next demo_top_p demo_min_p demo_categorical bigram_model
        paced_frame world0
      = (Ok (fr_y paced_frame, fr_logprobs paced_frame, fr'), w')
      ∧ clock_reads w' = S (clock_reads world0)
      ∧ sleeps (trace w')
        = sleeps (trace world0)
          ++ [(fr_last_target_time paced_frame + 1 / pynum_val (PyInt 4)
               - clock world0 (clock_reads world0))%Q].
Proof.
  assert (Hlt : (clock world0 (clock_reads world0)
                 < fr_last_target_time paced_frame
                   + 1 / pynum_val (PyInt 4))%Q)
    by (vm_compute; reflexivity).
  split; [by split|].
  destruct (paced_turn demo_top_p demo_min_p demo_categorical bigram_model
              paced_frame world0 (PyInt 4) eq_refl)
    as (fr' & w' & E & Hc & Hs & _).
  exists fr', w'. split; [exact E|]. split; [exact Hc|exact (Hs Hlt)].
Defined.

Lemma history_follows_processors_witness :
  (default [] (heap world_with_list !! fr_processors listed_frame) ≠ []
   ∧ 0 < 2)
  ∧ ∃ items fr' w',
      take_items bigram_model 10 2 (GenRunning listed_frame) world_with_list
      = (Ok (items, GenRunning fr'), w')
      ∧ fr_tokens fr'
        = Some (default [] (fr_tokens listed_frame) ++ items.*1).
Proof.
  assert (H : default [] (heap world_with_list !! fr_processors listed_frame)
              ≠ []) by (vm_compute; discriminate).
  split; [split; [exact H|lia]|].
  destruct (history_follows_processors demo_top_p demo_min_p demo_categorical
              fresh_cache bigram_model 2 listed_frame 10 world_with_list)
    as (items & fr' & w' & E & Hh & _).
  exists items, fr', w'. split; [exact E|]. apply Hh; [exact H|lia].
Defined.

Lemma prefill_chunks_witness :
  ((1 <= prefill_step_size (with_prefill_step_size (default_args []) 2))%Z
   ∧ length [1; 2; 3; 4; 5] ≤ 5)
  ∧ ∃ chunks y' cache',
      prefill (Rng := nat) bigram_model
        (with_prefill_step_size (default_args []) 2) 5 [1; 2; 3; 4; 5]
        [[]; []] world0
      = (Ok (y', cache'), add_trace world0 (prefill_events chunks))
      ∧ concat chunks ++ y' = [1; 2; 3; 4; 5]
      ∧ Forall (λ c, Z.of_nat (length c)
                     = prefill_step_size
                         (with_prefill_step_size (default_args []) 2)) chunks
      ∧ (Z.of_nat (length y')
         <= prefill_step_size (with_prefill_step_size (default_args []) 2))%Z
      ∧ ([1; 2; 3; 4; 5] ≠ [] → y' ≠ []).
Proof.
  assert (H1 : (1 <= prefill_step_size
                       (with_prefill_step_size (KV := list token)
                          (default_args []) 2))%Z) by (cbn; lia).
  assert (H2 : length [1; 2; 3; 4; 5] ≤ 5) by (cbn; lia).
  split; [by split|].
  exact (prefill_chunks bigram_model
           (with_prefill_step_size (default_args []) 2) 5 [1; 2; 3; 4; 5]
           [[]; []] world0 H1 H2).
Defined.

Lemma empty_caller_list_untouched_witness :
  (logits_processor all_stages_args = Some 7%positive
   ∧ heap world_with_empty_list !! 7%positive = Some []
   ∧ penalty_rejected all_stages_args = false
   ∧ rate_rejected all_stages_args = false)
  ∧ heap (start bigram_model all_stages_args 10 world_with_empty_list).2
      !! 7%positive = Some []
  ∧ heap world_with_empty_list
      !! session_list all_stages_args world_with_empty_list = None
  ∧ heap (start bigram_model all_stages_args 10 world_with_empty_list).2
      !! session_list all_stages_args world_with_empty_list
    = Some (internal_processors all_stages_args).
Proof.
  assert (H : heap world_with_empty_list !! 7%positive = Some [])
    by (vm_compute; reflexivity).
  split; [by repeat split|].
  exact (empty_caller_list_untouched demo_top_p demo_min_p demo_categorical
           fresh_cache bigram_model all_stages_args 10 world_with_empty_list
           7%positive eq_refl H eq_refl eq_refl).
Defined.

Lemma stream_stops_at_max_tokens_witness :
  ∃ g' w',
    stream_generate demo_top_p demo_min_p demo_categorical fresh_cache
      bigram_model digits_tokenizer 10 "ab" 2 None (default_args []) [9]
      world0
    = (Ok ([SeReset; SeAddToken 3; SeYield "+"; SeAddToken 4; SeYield "+";
            SeFinalize; SeYield "+"], [3; 4], g'), w').
Proof.
  edestruct (stream_stops_at_max_tokens demo_top_p demo_min_p
               demo_categorical fresh_cache bigram_model digits_tokenizer 10
               "ab" 2%Z None (default_args []) [9] world0)
    as (evs & d' & E & Hrun & _).
  - vm_compute; reflexivity.
  - cbn. repeat (apply not_elem_of_cons; split; [done|]).
    apply not_elem_of_nil.
  - change (stream_run digits_tokenizer _ [9])
      with ([SeReset; SeAddToken 3; SeYield "+"; SeAddToken 4; SeYield "+";
             SeFinalize; SeYield "+"], [3; 4]) in Hrun.
    injection Hrun as -> ->. eexists _, _. exact E.
Defined.

Lemma stream_generate_no_tokens_witness :
  (0 <= 0)%Z
  ∧ stream_generate demo_top_p demo_min_p demo_categorical fresh_cache
      bigram_model digits_tokenizer 10 "ab" 0 None (default_args []) [9]
      world0
    = (Ok ([SeReset; SeFinalize;
            SeYield (last_segment digits_tokenizer
                       (finalize digits_tokenizer
                          (reset digits_tokenizer [9]))).1],
           (last_segment digits_tokenizer
              (finalize digits_tokenizer (reset digits_tokenizer [9]))).2,
           call_generate_step (default_args [])
             (encode digits_tokenizer "ab") None), world0).
Proof.
  assert (H : (0 <= 0)%Z) by lia.
  split; [exact H|].
  exact (stream_generate_no_tokens demo_top_p demo_min_p demo_categorical
           fresh_cache bigram_model digits_tokenizer 10 "ab" 0%Z None
           (default_args []) [9] world0 H).
Defined.

Lemma rate_only_paces_witness :
  (rate_acceptable None ∧ rate_acceptable (Some (PyInt 4)))
  ∧ same_outcome (λ a b, a.1 = b.1)
      (take_items bigram_model 10 3
         (GenFresh (stream_args (default_args []) [1; 2] None)) world0).1
      (take_items bigram_model 10 3
         (GenFresh (stream_args (default_args []) [1; 2] (Some (PyInt 4))))
         world0).1
  ∧ heap (take_items bigram_model 10 3
            (GenFresh (stream_args (default_args []) [1; 2] None)) world0).2
    = heap (take_items bigram_model 10 3
              (GenFresh
                 (stream_args (default_args []) [1; 2] (Some (PyInt 4))))
              world0).2
  ∧ rng (take_items bigram_model 10 3
           (GenFresh (stream_args (default_args []) [1; 2] None)) world0).2
    = rng (take_items bigram_model 10 3
             (GenFresh
                (stream_args (default_args []) [1; 2] (Some (PyInt 4))))
             world0).2.
Proof.
  assert (H1 : rate_acceptable None) by exact I.
  assert (H2 : rate_acceptable (Some (PyInt 4))) by (vm_compute; reflexivity).
  split; [by split|].
  exact (rate_only_paces demo_top_p demo_min_p demo_categorical fresh_cache
           bigram_model (default_args []) [1; 2] None (Some (PyInt 4)) 10 3
           world0 world0 H1 H2 eq_refl eq_refl).
Defined.

Lemma save_config_sorted_without_name_witness :
  NoDup sample_config.*1
  ∧ let '(config_left, written) := save_config sample_config in
    StronglySorted String.le written.*1
    ∧ ("_name_or_path" ∉ written.*1)
    ∧ (∀ k, k ≠ "_name_or_path" →
         dict_get k written = dict_get k sample_config)
    ∧ config_left `sublist_of` sample_config
    ∧ (∀ k, dict_get k config_left
            = if decide (k = "_name_or_path") then None
              else dict_get k sample_config).
Proof.
  assert (H : NoDup sample_config.*1) by by_decide.
  split; [exact H|].
  exact (save_config_sorted_without_name sample_config H).
Defined.

Lemma make_shards_partition_witness :
  NoDup large_weights.*1
  ∧ concat (make_shards id large_weights 5) = large_weights.
Proof.
  assert (H : NoDup large_weights.*1) by by_decide.
  split; [exact H|].
  exact (make_shards_partition id large_weights 5 H).
Defined.

Lemma make_shards_within_limit_witness :
  (NoDup large_weights.*1
   ∧ [("b", 3221225472%N); ("c", 1%N)] ∈ make_shards id large_weights 5
   ∧ 1 < length [("b", 3221225472%N); ("c", 1%N)])
  ∧ (total_nbytes id [("b", 3221225472%N); ("c", 1%N)] ≤ Z.shiftl 5 30)%Z.
Proof.
  assert (H1 : NoDup large_weights.*1) by by_decide.
  assert (H2 : [("b", 3221225472%N); ("c", 1%N)]
               ∈ make_shards id large_weights 5) by by_decide.
  assert (H3 : 1 < length [("b", 3221225472%N); ("c", 1%N)]) by (cbn; lia).
  split; [by repeat split|].
  exact (make_shards_within_limit id large_weights 5 _ H1 H2 H3).
Defined.

Lemma make_shards_first_empty_witness :
  NoDup [("big", 6442450944%N); ("c", 1%N)].*1
  ∧ ∃ first rest,
      make_shards id [("big", 6442450944%N); ("c", 1%N)] 5 = first :: rest
      ∧ Forall (λ s, s ≠ []) rest
      ∧ (first = [] ↔
         [("big", 6442450944%N); ("c", 1%N)] = []
         ∨ ∃ k v tl, [("big", 6442450944%N); ("c", 1%N)] = (k, v) :: tl
                     ∧ (Z.shiftl 5 30 < Z.of_N (id v))%Z).
Proof.
  assert (H : NoDup [("big", 6442450944%N); ("c", 1%N)].*1) by by_decide.
  split; [exact H|].
  exact (make_shards_first_empty id [("big", 6442450944%N); ("c", 1%N)] 5 H).
Defined.

Lemma make_shards_greedy_witness :
  (NoDup large_weights.*1
   ∧ make_shards id large_weights 5 !! 0 = Some [("a", 3221225472%N)]
   ∧ make_shards id large_weights 5 !! 1
     = Some (("b", 3221225472%N) :: [("c", 1%N)]))
  ∧ (Z.shiftl 5 30
     < total_nbytes id [("a", 3221225472%N)] + Z.of_N (id 3221225472%N))%Z.
Proof.
  assert (H1 : NoDup large_weights.*1) by by_decide.
  assert (H2 : make_shards id large_weights 5 !! 0
               = Some [("a", 3221225472%N)]) by (vm_compute; reflexivity).
  assert (H3 : make_shards id large_weights 5 !! 1
               = Some (("b", 3221225472%N) :: [("c", 1%N)]))
    by (vm_compute; reflexivity).
  split; [by repeat split|].
  exact (make_shards_greedy id large_weights 5 0 _ _ _ _ H1 H2 H3).
Defined.

Lemma make_shards_single_witness :
  NoDup small_weights.*1
  ∧ (make_shards id small_weights 5 = [small_weights]
     ↔ small_weights = [] ∨ (total_nbytes id small_weights ≤ Z.shiftl 5 30)%Z).
Proof.
  assert (H : NoDup small_weights.*1) by by_decide.
  split; [exact H|].
  exact (make_shards_single id small_weights 5 H).
Defined.

Lemma save_weights_index_witness :
  NoDup large_weights.*1
  ∧ ∃ wm,
      index (save_weights id large_weights false)
      = Some {| total_size := total_nbytes id large_weights;
                weight_map := wm |}
      ∧ StronglySorted String.le wm.*1
      ∧ wm.*1 ≡ₚ large_weights.*1
      ∧ ∀ k v, (k, v) ∈ large_weights →
          ∃ name shard,
            dict_get k wm = Some name
            ∧ (name, shard) ∈ files (save_weights id large_weights false)
            ∧ (k, v) ∈ shard.
Proof.
  assert (H : NoDup large_weights.*1) by by_decide.
  split; [exact H|].
  exact (save_weights_index id large_weights false H).
Defined.

Lemma save_weights_single_file_witness :
  (NoDup small_weights.*1
   ∧ (total_nbytes id small_weights ≤ Z.shiftl MAX_FILE_SIZE_GB 30)%Z)
  ∧ files (save_weights id small_weights true)
    = [("model.safetensors", small_weights)]
  ∧ index (save_weights id small_weights true)
    = Some {| total_size := total_nbytes id small_weights;
              weight_map := (λ k, (k, "model.safetensors"))
                            <$> merge_sort String.le small_weights.*1 |}.
Proof.
  assert (H1 : NoDup small_weights.*1) by by_decide.
  assert (H2 : (total_nbytes id small_weights
                ≤ Z.shiftl MAX_FILE_SIZE_GB 30)%Z)
    by (vm_compute; discriminate).
  split; [by split|].
  exact (save_weights_single_file id small_weights true H1 H2).
Defined.

Lemma generate_empty_range_witness :
  (0 ≤ 0)%Z
  ∧ generate demo_top_p demo_min_p demo_categorical fresh_cache bigram_model
      digits_tokenizer digits_text demo_exp 10 true false "ab" 0 None
      (default_args []) [9] world0
    = (Ok ([GePrint "=========="; GePrintPrompt "ab"] ++ [GeReset],
           reset digits_tokenizer [9], UnboundLocalError),
       {| heap := heap world0; rng := rng world0; clock := clock world0;
          clock_reads := S (clock_reads world0); trace := trace world0 |}).
Proof.
  assert (H : (0 ≤ 0)%Z) by lia.
  split; [exact H|].
  exact (generate_empty_range demo_top_p demo_min_p demo_categorical
           fresh_cache bigram_model digits_tokenizer digits_text demo_exp 10
           true false "ab" 0%Z None (default_args []) [9] world0 H).
Defined.

Lemma generate_outcomes_witness :
  ∃ evs d' out w',
    generate demo_top_p demo_min_p demo_categorical fresh_cache bigram_model
      digits_tokenizer digits_text demo_exp 10 true false "ab" 2 None
      (default_args []) [9] world0
    = (Ok (evs, d', out), w')
    ∧ (out = UnboundLocalError ↔ (2 ≤ 0)%Z)
    ∧ (out = ZeroDivisionError → true = true)
    ∧ out ≠ ReturnedNone
    ∧ (GeNoTokens ∉ evs)
    ∧ (∀ text, out = Returned text → text = digits_text d').
Proof.
  eexists _, _, _, _. split; [vm_compute; reflexivity|].
  eapply (generate_outcomes demo_top_p demo_min_p demo_categorical
            fresh_cache bigram_model digits_tokenizer digits_text demo_exp 10
            true false "ab" 2%Z None (default_args []) [9] world0).
  vm_compute; reflexivity.
Defined.

Lemma generate_finalize_count_witness :
  (0 < 2)%Z
  ∧ ∃ evs d' out w',
      generate demo_top_p demo_min_p demo_categorical fresh_cache bigram_model
        digits_tokenizer digits_text demo_exp 10 true true "ab" 2 None
        (default_args []) [9] world0
      = (Ok (evs, d', out), w')
      ∧ ge_finalize_count evs
        = (if true && true then length (ge_added evs) else 0) + 1.
Proof.
  assert (H : (0 < 2)%Z) by lia.
  split; [exact H|].
  eexists _, _, _, _. split; [vm_compute; reflexivity|].
  eapply (generate_finalize_count demo_top_p demo_min_p demo_categorical
            fresh_cache bigram_model digits_tokenizer digits_text demo_exp 10
            true true "ab" 2%Z None (default_args []) [9] world0 _ _ _ _ H).
  vm_compute; reflexivity.
Defined.

Lemma generate_same_tokens_witness :
  (heap world0 = heap world0 ∧ rng world0 = rng world0)
  ∧ same_outcome (λ a b, added_tokens a.1.1 = ge_added b.1.1)
      (stream_generate demo_top_p demo_min_p demo_categorical fresh_cache
         bigram_model digits_tokenizer 10 "ab" 5 None (default_args []) [9]
         world0).1
      (generate demo_top_p demo_min_p demo_categorical fresh_cache
         bigram_model digits_tokenizer digits_text demo_exp 10 true true "ab"
         5 None (default_args []) [] world0).1
  ∧ heap (stream_generate demo_top_p demo_min_p demo_categorical fresh_cache
            bigram_model digits_tokenizer 10 "ab" 5 None (default_args [])
            [9] world0).2
    = heap (generate demo_top_p demo_min_p demo_categorical fresh_cache
              bigram_model digits_tokenizer digits_text demo_exp 10 true true
              "ab" 5 None (default_args []) [] world0).2
  ∧ rng (stream_generate demo_top_p demo_min_p demo_categorical fresh_cache
           bigram_model digits_tokenizer 10 "ab" 5 None (default_args [])
           [9] world0).2
    = rng (generate demo_top_p demo_min_p demo_categorical fresh_cache
             bigram_model digits_tokenizer digits_text demo_exp 10 true true
             "ab" 5 None (default_args []) [] world0).2.
Proof.
  split; [by split|].
  exact (generate_same_tokens demo_top_p demo_min_p demo_categorical
           fresh_cache bigram_model digits_tokenizer digits_text demo_exp 10
           true true "ab" 5%Z None (default_args []) [9] [] world0 world0
           eq_refl eq_refl).
Defined.
